(** * asd::vector: a growable array over a raw allocator

    A shallow embedding of [src/vector.hpp] (namespace [asd]): the construction
    helpers [asd::move] and [asd::copy], the class [asd::allocator<T>] and the
    class [asd::vector<T>], over an explicit model of the C heap, of the
    objects of type [vector<T>] and of the history of allocator and
    constructor/destructor calls. *)

From Stdlib Require Import ZArith Lia.
From stdpp Require Import base list.

Local Open Scope Z_scope.

(** ** The platform and the element type *)

(** The widths of [std::size_t] and of [int].  The helpers [asd::move] and
    [asd::copy] take their element count as an [int] while the vector keeps it
    as a [std::size_t], so both widths matter. *)
Class Platform := {
  size_bits : Z;
  int_bits : Z;
  int_bits_pos : 0 < int_bits;
  int_bits_le : int_bits <= size_bits
}.

(** What the vector needs to know of its template parameter [T]: [sizeof(T)],
    [std::is_trivially_destructible_v<T>], and the value a [T] is left with
    once it has been the source of a move construction. *)
Class Element (T : Type) := {
  sizeof : Z;
  sizeof_pos : 0 < sizeof;
  trivially_destructible : bool;
  moved_from : T -> T
}.

(** Arithmetic in [std::size_t] is modulo [2 ^ size_bits]. *)
Definition to_size_t `{Platform} (x : Z) : Z := x mod 2 ^ size_bits.

(** Conversion to [int] (two's complement, modulo [2 ^ int_bits]). *)
Definition to_int `{Platform} (x : Z) : Z :=
  (x + 2 ^ (int_bits - 1)) mod 2 ^ int_bits - 2 ^ (int_bits - 1).

Definition INT_MAX `{Platform} : Z := 2 ^ (int_bits - 1) - 1.

(** ** Memory *)

(** A slot of storage sized for one [T]: raw, or holding a constructed object. *)
Inductive slot (T : Type) : Type :=
| Raw
| Obj (x : T).
Arguments Raw {T}.
Arguments Obj {T} x.

(** A block handed out by [malloc].  A block that was passed to [free] stays in
    the heap, marked, so that what it held when it was released can be
    inspected; every access to it is undefined behaviour. *)
Record block (T : Type) : Type := {
  blk_bytes : Z;
  blk_cells : list (slot T);
  blk_freed : bool
}.
Arguments blk_bytes {T} _.
Arguments blk_cells {T} _.
Arguments blk_freed {T} _.

(** A [T*] as the vector uses it: [nullptr], or the base address of a block.
    Blocks are numbered in the order of their allocation. *)
Definition pointer : Type := option nat.

(** The data members of [asd::vector<T>].  [m_allocator] has no data members
    and no state. *)
Record vector : Type := {
  m_count : Z;
  m_capacity : Z;
  m_data_ptr : pointer
}.

(** The history of calls to [malloc], [free], constructors (placement new) and
    destructors. *)
Inductive event : Type :=
| EvMalloc (b : nat) (bytes : Z)
| EvFree (p : pointer)
| EvConstruct (b : nat) (i : Z)
| EvCopyConstruct (src : nat) (b : nat) (i : Z)
| EvMoveConstruct (src : nat) (b : nat) (i : Z)
| EvDestroy (b : nat) (i : Z).

Record mem (T : Type) : Type := {
  heap : list (block T);
  objs : list vector;
  trace : list event
}.
Arguments heap {T} _.
Arguments objs {T} _.
Arguments trace {T} _.

(** ** Computations: normal return, [std::bad_alloc], undefined behaviour *)

Inductive outcome (St A : Type) : Type :=
| Normal (a : A) (s : St)
| BadAlloc (s : St)
| Undefined.
Arguments Normal {St A} a s.
Arguments BadAlloc {St A} s.
Arguments Undefined {St A}.

Definition M (T A : Type) : Type := mem T -> outcome (mem T) A.

Definition ret {T A} (a : A) : M T A := fun m => Normal a m.

Definition bind {T A B} (c : M T A) (k : A -> M T B) : M T B :=
  fun m =>
    match c m with
    | Normal a m' => k a m'
    | BadAlloc m' => BadAlloc m'
    | Undefined => Undefined
    end.

Definition throw_bad_alloc {T A} : M T A := fun m => BadAlloc m.

Definition undefined {T A} : M T A := fun _ => Undefined.

Declare Scope cpp_scope.
Delimit Scope cpp_scope with cpp.
Notation "x <- c ;; k" := (bind c (fun x => k))
  (at level 100, c at next level, right associativity) : cpp_scope.
Notation "c ;; k" := (bind c (fun _ => k))
  (at level 100, right associativity) : cpp_scope.
Local Open Scope cpp_scope.

Section Vector.

Context `{Platform} {T : Type} `{Element T}.

(** Whether a call [malloc(bytes)] in a given state is granted; the C library
    may refuse any request. *)
Variable malloc_grants : mem T -> Z -> bool.

(** The constructor of [T] that [emplace_back] forwards its arguments to. *)
Context {Args : Type}.
Variable construct : Args -> T.

Abbreviation Mem := (mem T).
Abbreviation Cmd := (M T).

(** *** The C heap *)

Definition log (e : event) (m : Mem) : Mem :=
  {| heap := heap m; objs := objs m; trace := trace m ++ [e] |}.

Definition set_block (b : nat) (blk : block T) (m : Mem) : Mem :=
  {| heap := <[b := blk]> (heap m); objs := objs m; trace := trace m |}.

Definition fresh_block (bytes : Z) : block T :=
  {| blk_bytes := bytes;
     blk_cells := replicate (Z.to_nat (bytes / sizeof)) Raw;
     blk_freed := false |}.

(** [std::malloc]: a null pointer when the request is refused, else a new block
    of [bytes] bytes, which has room for [bytes / sizeof(T)] objects. *)
Definition malloc (bytes : Z) : Cmd pointer := fun m =>
  if malloc_grants m bytes then
    let b := length (heap m) in
    Normal (Some b)
      {| heap := heap m ++ [fresh_block bytes];
         objs := objs m;
         trace := trace m ++ [EvMalloc b bytes] |}
  else Normal None m.

(** The block a pointer may be used to access: allocated and not yet freed. *)
Definition live_block (p : pointer) (m : Mem) : option (nat * block T) :=
  match p with
  | None => None
  | Some b =>
      match heap m !! b with
      | Some blk => if blk_freed blk then None else Some (b, blk)
      | None => None
      end
  end.

(** [free]: a no-op on [nullptr]; undefined on anything but a live block. *)
Definition free (p : pointer) : Cmd unit := fun m =>
  match p with
  | None => Normal tt (log (EvFree None) m)
  | Some _ =>
      match live_block p m with
      | Some (b, blk) =>
          Normal tt
            (log (EvFree p)
               (set_block b
                  {| blk_bytes := blk_bytes blk;
                     blk_cells := blk_cells blk;
                     blk_freed := true |} m))
      | None => Undefined
      end
  end.

(** The slot [p + i], when it lies inside a live block. *)
Definition cell_at (p : pointer) (i : Z) (m : Mem) : option (slot T) :=
  match live_block p m with
  | Some (_, blk) => if 0 <=? i then blk_cells blk !! Z.to_nat i else None
  | None => None
  end.

Definition set_cell (b : nat) (i : Z) (s : slot T) (m : Mem) : Mem :=
  match heap m !! b with
  | Some blk =>
      set_block b
        {| blk_bytes := blk_bytes blk;
           blk_cells := <[Z.to_nat i := s]> (blk_cells blk);
           blk_freed := blk_freed blk |} m
  | None => m
  end.

(** Reading the object [p[i]]. *)
Definition read_obj (p : pointer) (i : Z) : Cmd T := fun m =>
  match cell_at p i m with
  | Some (Obj x) => Normal x m
  | _ => Undefined
  end.

(** [new (p + i) T(x)] for a value [x] supplied by the caller.  The slot must
    be storage inside a live block; whatever it held is overwritten. *)
Definition placement_new (p : pointer) (i : Z) (x : T) : Cmd unit := fun m =>
  match live_block p m, cell_at p i m with
  | Some (b, _), Some _ => Normal tt (log (EvConstruct b i) (set_cell b i (Obj x) m))
  | _, _ => Undefined
  end.

(** [new (output + i) T(input[i])]. *)
Definition copy_construct (input : pointer) (i : Z) (output : pointer) : Cmd unit := fun m =>
  match live_block input m, cell_at input i m, live_block output m, cell_at output i m with
  | Some (src, _), Some (Obj x), Some (b, _), Some _ =>
      Normal tt (log (EvCopyConstruct src b i) (set_cell b i (Obj x) m))
  | _, _, _, _ => Undefined
  end.

(** [new (output + i) T(std::move(input[i]))]: the new object takes the value,
    the source object stays constructed, in its moved-from state. *)
Definition move_construct (input : pointer) (i : Z) (output : pointer) : Cmd unit := fun m =>
  match live_block input m, cell_at input i m, live_block output m, cell_at output i m with
  | Some (src, _), Some (Obj x), Some (b, _), Some _ =>
      Normal tt
        (log (EvMoveConstruct src b i)
           (set_cell b i (Obj x) (set_cell src i (Obj (moved_from x)) m)))
  | _, _, _, _ => Undefined
  end.

(** [std::destroy_at(p + i)]. *)
Definition destroy_at (p : pointer) (i : Z) : Cmd unit := fun m =>
  match live_block p m, cell_at p i m with
  | Some (b, _), Some (Obj _) => Normal tt (log (EvDestroy b i) (set_cell b i Raw m))
  | _, _ => Undefined
  end.

(** *** asd::move and asd::copy *)

(** The loop [for (size_t i = 0; i < count; i++)] of both helpers.  [count] is
    an [int]; the comparison converts it to [std::size_t], so the body runs
    [to_size_t count] times, for [i = 0, 1, ...]. *)
Fixpoint move_from (input output : pointer) (i : Z) (n : nat) : Cmd unit :=
  match n with
  | O => ret tt
  | S n' => move_construct input i output ;; move_from input output (i + 1) n'
  end.

Definition move (input : pointer) (count : Z) (output : pointer) : Cmd unit :=
  move_from input output 0 (Z.to_nat (to_size_t count)).

Fixpoint copy_from (input output : pointer) (i : Z) (n : nat) : Cmd unit :=
  match n with
  | O => ret tt
  | S n' => copy_construct input i output ;; copy_from input output (i + 1) n'
  end.

Definition copy (input : pointer) (count : Z) (output : pointer) : Cmd unit :=
  copy_from input output 0 (Z.to_nat (to_size_t count)).

(** *** asd::allocator<T> *)

Definition allocate (n : Z) : Cmd pointer :=
  ptr <- malloc (to_size_t (n * sizeof)) ;;
  match ptr with
  | None => throw_bad_alloc
  | Some _ => ret ptr
  end.

Definition deallocate (ptr : pointer) : Cmd unit := free ptr.

(** *** asd::vector<T>: access to the data members of the object [this] *)

Definition get (this : nat) : Cmd vector := fun m =>
  match objs m !! this with
  | Some v => Normal v m
  | None => Undefined
  end.

Definition put (this : nat) (v : vector) : Cmd unit := fun m =>
  Normal tt {| heap := heap m; objs := <[this := v]> (objs m); trace := trace m |}.

Definition get_count (this : nat) : Cmd Z := v <- get this ;; ret (m_count v).
Definition get_capacity (this : nat) : Cmd Z := v <- get this ;; ret (m_capacity v).
Definition get_data_ptr (this : nat) : Cmd pointer := v <- get this ;; ret (m_data_ptr v).

Definition set_count (this : nat) (c : Z) : Cmd unit :=
  v <- get this ;;
  put this {| m_count := c; m_capacity := m_capacity v; m_data_ptr := m_data_ptr v |}.

Definition set_capacity (this : nat) (c : Z) : Cmd unit :=
  v <- get this ;;
  put this {| m_count := m_count v; m_capacity := c; m_data_ptr := m_data_ptr v |}.

Definition set_data_ptr (this : nat) (p : pointer) : Cmd unit :=
  v <- get this ;;
  put this {| m_count := m_count v; m_capacity := m_capacity v; m_data_ptr := p |}.

(** *** asd::vector<T>: private members *)

Definition reset (this : nat) : Cmd unit :=
  set_count this 0 ;;
  set_capacity this 0 ;;
  set_data_ptr this None.

Definition init (this : nat) (capacity count : Z) (data_ptr : pointer) : Cmd unit :=
  set_count this count ;;
  set_capacity this capacity ;;
  set_data_ptr this data_ptr.

Definition reallocate (this : nat) : Cmd unit :=
  cap <- get_capacity this ;;
  let new_capacity := if cap =? 0 then 1 else to_size_t (cap * 2) in
  new_data_ptr <- allocate new_capacity ;;
  old <- get_data_ptr this ;;
  n <- get_count this ;;
  move old (to_int n) new_data_ptr ;;
  old <- get_data_ptr this ;;
  deallocate old ;;
  n <- get_count this ;;
  init this new_capacity n new_data_ptr.

(** [std::destroy(first, first + n)], from index [i] on. *)
Fixpoint destroy_range (p : pointer) (i : Z) (n : nat) : Cmd unit :=
  match n with
  | O => ret tt
  | S n' => destroy_at p i ;; destroy_range p (i + 1) n'
  end.

Definition destroy (this : nat) : Cmd unit :=
  (if trivially_destructible then ret tt
   else
     p <- get_data_ptr this ;;
     n <- get_count this ;;
     destroy_range p 0 (Z.to_nat n)) ;;
  p <- get_data_ptr this ;;
  deallocate p.

(** *** asd::vector<T>: public members *)

(** The definition of a variable of type [vector<T>]: storage for the object,
    whose data members are indeterminate until a constructor has run.  Every
    constructor below writes each data member before it reads it, so the
    placeholder values are never observed. *)
Definition declare : Cmd nat := fun m =>
  Normal (length (objs m))
    {| heap := heap m;
       objs := objs m ++ [{| m_count := 0; m_capacity := 0; m_data_ptr := None |}];
       trace := trace m |}.

Definition size (this : nat) : Cmd Z := get_count this.

Definition capacity (this : nat) : Cmd Z := get_capacity this.

(** [vector()] *)
Definition vector_default (this : nat) : Cmd unit := reset this.

(** [vector(const vector &other)] *)
Definition vector_copy (this other : nat) : Cmd unit :=
  n <- size other ;;
  if n =? 0 then reset this
  else
    n <- size other ;;
    p <- allocate n ;;
    set_data_ptr this p ;;
    src <- get_data_ptr other ;;
    n <- size other ;;
    dst <- get_data_ptr this ;;
    copy src (to_int n) dst ;;
    cap <- size other ;;
    n <- size other ;;
    dst <- get_data_ptr this ;;
    init this cap n dst.

(** [vector(vector &&other) noexcept] *)
Definition vector_move (this other : nat) : Cmd unit :=
  cap <- get_capacity other ;;
  n <- get_count other ;;
  p <- get_data_ptr other ;;
  init this cap n p ;;
  reset other.

(** [vector& operator= (const vector& other)]; the result is [*this]. *)
Definition copy_assign (this other : nat) : Cmd nat :=
  cap <- get_capacity this ;;
  n <- get_count other ;;
  (if cap <? n then
     n <- get_count other ;;
     new_data_ptr <- allocate n ;;
     destroy this ;;
     set_data_ptr this new_data_ptr
   else ret tt) ;;
  src <- get_data_ptr other ;;
  n <- get_count other ;;
  dst <- get_data_ptr this ;;
  copy src (to_int n) dst ;;
  cap <- size other ;;
  n <- size other ;;
  dst <- get_data_ptr this ;;
  init this cap n dst ;;
  ret this.

(** Control reaching the closing brace of a function whose return type is not
    [void]: no value is returned and the behaviour is undefined. *)
Definition flows_off_the_end {A} : Cmd A := undefined.

(** [vector& operator= (vector&& other) noexcept]; its body has no [return]
    statement. *)
Definition move_assign (this other : nat) : Cmd nat :=
  destroy this ;;
  cap <- get_capacity other ;;
  n <- get_count other ;;
  p <- get_data_ptr other ;;
  init this cap n p ;;
  reset other ;;
  flows_off_the_end.

(** [~vector()] *)
Definition vector_destructor (this : nat) : Cmd unit := destroy this.

(** [push_back(U &&item)]: the new element is constructed from [item], by copy
    or by move as the caller passed it; either way it takes [item]'s value. *)
Definition push_back (this : nat) (item : T) : Cmd unit :=
  n <- get_count this ;;
  cap <- get_capacity this ;;
  (if n =? cap then reallocate this else ret tt) ;;
  p <- get_data_ptr this ;;
  n <- get_count this ;;
  placement_new p n item ;;
  n <- get_count this ;;
  set_count this (to_size_t (n + 1)).

(** [emplace_back(Args... args)] *)
Definition emplace_back (this : nat) (args : Args) : Cmd unit :=
  n <- get_count this ;;
  cap <- get_capacity this ;;
  (if n =? cap then reallocate this else ret tt) ;;
  p <- get_data_ptr this ;;
  n <- get_count this ;;
  placement_new p n (construct args) ;;
  n <- get_count this ;;
  set_count this (to_size_t (n + 1)).

(** [operator[](idx)]: the reference [m_data_ptr[idx]], unchecked. *)
Definition subscript (this : nat) (idx : Z) : Cmd (pointer * Z) :=
  p <- get_data_ptr this ;;
  ret (p, idx).

(** Reading through, and assigning through, a reference to an element. *)
Definition load (r : pointer * Z) : Cmd T := read_obj (fst r) (snd r).

Definition store (r : pointer * Z) (x : T) : Cmd unit := fun m =>
  match live_block (fst r) m, cell_at (fst r) (snd r) m with
  | Some (b, _), Some (Obj _) => Normal tt (set_cell b (snd r) (Obj x) m)
  | _, _ => Undefined
  end.

End Vector.

(** ** Valid vectors *)

Section Representation.

Context `{Platform} {T : Type} `{Element T}.

(** The storage [p] holds exactly the elements [xs], in its first slots,
    followed by [r] raw slots.  The null pointer holds nothing. *)
Definition stores (m : mem T) (p : pointer) (xs : list T) (r : nat) : Prop :=
  match p with
  | None => xs = [] /\ r = 0%nat
  | Some b =>
      exists bytes,
        heap m !! b
        = Some {| blk_bytes := bytes;
                  blk_cells := (Obj <$> xs) ++ replicate r Raw;
                  blk_freed := false |}
  end.

(** The object [this] has the data members [v] and is a vector of the
    elements [xs]: [m_count] is their number and [m_data_ptr] stores them. *)
Definition rep (m : mem T) (this : nat) (v : vector) (xs : list T) (r : nat) : Prop :=
  objs m !! this = Some v
  /\ m_count v = Z.of_nat (length xs)
  /\ stores m (m_data_ptr v) xs r.

(** The capacity that [reallocate] computes from the capacity [cap], the bytes
    it requests for it and the number of slots of the block it obtains. *)
Definition grown_capacity (cap : Z) : Z :=
  if cap =? 0 then 1 else to_size_t (cap * 2).

Definition grown_bytes (cap : Z) : Z := to_size_t (grown_capacity cap * sizeof).

Definition grown_slots (cap : Z) : nat := Z.to_nat (grown_bytes cap / sizeof).

(** The number of times the loop of [asd::move] and [asd::copy] runs when the
    caller passes the [std::size_t] value [n] for the [int] parameter. *)
Definition loop_count (n : Z) : nat := Z.to_nat (to_size_t (to_int n)).

(** What a growth step adds to the history: the allocation of block [nb], the
    move of [n] elements out of the old storage in index order, and the
    release of the old storage. *)
Definition growth_events (old : pointer) (nb : nat) (bytes : Z) (n : Z) : list event :=
  EvMalloc nb bytes
  :: match old with
     | Some ob => EvMoveConstruct ob nb <$> seqZ 0 n
     | None => []
     end
  ++ [EvFree old].

Definition is_destroy (e : event) : bool :=
  match e with
  | EvDestroy _ _ => true
  | _ => false
  end.

(** The statements of [push_back] and [emplace_back] that follow the growth
    check: construct the new element in slot [m_count], then [++m_count]. *)
Definition construct_at_end (this : nat) (x : T) : M T unit :=
  p <- get_data_ptr this ;;
  n <- get_count this ;;
  placement_new p n x ;;
  n <- get_count this ;;
  set_count this (to_size_t (n + 1)).

(** The capacity of a vector that started empty, after [k] insertions: the
    least power of two that is at least [k]. *)
Definition capacity_after (k : nat) : Z :=
  match k with
  | O => 0
  | S _ => 2 ^ Z.log2_up (Z.of_nat k)
  end.

(** Commands that leave every [vector] object as it is. *)
Definition keeps_objs {A : Type} (c : M T A) : Prop :=
  forall m a m', c m = Normal a m' -> objs m' = objs m.

(** The size in bytes, the number of slots and the status of each block. *)
Definition shapes (m : mem T) : list (Z * nat * bool) :=
  (fun blk => (blk_bytes blk, length (blk_cells blk), blk_freed blk)) <$> heap m.

(** Commands that allocate nothing, release nothing and resize nothing. *)
Definition keeps_shapes {A : Type} (c : M T A) : Prop :=
  forall m a m', c m = Normal a m' -> shapes m' = shapes m.

(** [m'] has every block of [m], and has it unchanged unless it is one of [P];
    [m'] may have further blocks. *)
Definition touches_only (P : nat -> Prop) (m m' : mem T) : Prop :=
  (length (heap m) <= length (heap m'))%nat
  /\ forall p, (p < length (heap m))%nat -> ~ P p -> heap m' !! p = heap m !! p.

(** The vector [this] is in a state that insertions alone lead to from the
    empty vector, with elements [xs]: its capacity is [capacity_after] their
    number, it has no storage while it has no element, its capacity has not
    passed [2 ^ (int_bits - 1)], and its block has a slot for each unit of
    capacity unless the size of that many elements wrapped. *)
Definition from_empty (m : mem T) (this : nat) (xs : list T) : Prop :=
  exists v r,
    rep m this v xs r
    /\ m_capacity v = capacity_after (length xs)
    /\ (xs = [] -> m_data_ptr v = None)
    /\ capacity_after (length xs) <= 2 ^ (int_bits - 1)
    /\ (capacity_after (length xs) * sizeof < 2 ^ size_bits ->
        Z.of_nat (length xs + r) = capacity_after (length xs)).

End Representation.

(** ** Runs of insertions *)

Section Runs.

Context `{Platform} {T : Type} `{Element T}.
Variable malloc_grants : mem T -> Z -> bool.
Context {Args : Type}.
Variable construct : Args -> T.

Inductive insertion : Type :=
| PushBack (item : T)
| EmplaceBack (args : Args).

Definition insert (this : nat) (op : insertion) : M T unit :=
  match op with
  | PushBack item => push_back malloc_grants this item
  | EmplaceBack args => emplace_back malloc_grants construct this args
  end.

(** The value of the element an insertion adds. *)
Definition inserted (op : insertion) : T :=
  match op with
  | PushBack item => item
  | EmplaceBack args => construct args
  end.

Fixpoint insert_all (this : nat) (ops : list insertion) : M T unit :=
  match ops with
  | [] => ret tt
  | op :: ops' => insert this op ;; insert_all this ops'
  end.

(** [asd::vector<T> v;] *)
Definition new_vector : M T nat :=
  this <- declare ;;
  vector_default this ;;
  ret this.

(** [asd::vector<T> v; v.push_back(x0); v.push_back(x1); ...] *)
Definition push_all (items : list T) : M T nat :=
  this <- new_vector ;;
  insert_all this (PushBack <$> items) ;;
  ret this.

(** [asd::vector<T> v;] followed by the insertions [ops]. *)
Definition run (ops : list insertion) : M T nat :=
  this <- new_vector ;;
  insert_all this ops ;;
  ret this.

(** [v[idx]] read as a value. *)
Definition read_at (this : nat) (idx : Z) : M T T :=
  r <- subscript this idx ;;
  load r.

(** [v[idx] = x] *)
Definition write_at (this : nat) (idx : Z) (x : T) : M T unit :=
  r <- subscript this idx ;;
  store r x.

(** The operations of the public interface that change a vector in place. *)
Inductive mutation : Type :=
| Push (item : T)
| Emplace (args : Args)
| Assign (idx : Z) (x : T).

Definition mutate (this : nat) (mu : mutation) : M T unit :=
  match mu with
  | Push item => push_back malloc_grants this item
  | Emplace args => emplace_back malloc_grants construct this args
  | Assign idx x => write_at this idx x
  end.

Fixpoint mutate_all (this : nat) (mus : list mutation) : M T unit :=
  match mus with
  | [] => ret tt
  | mu :: mus' => mutate this mu ;; mutate_all this mus'
  end.

End Runs.

(** ** Instances used to run the code on concrete inputs *)

(** A platform with a 64-bit [std::size_t] and a 32-bit [int]. *)
Definition LP64 : Platform :=
  {| size_bits := 64; int_bits := 32;
     int_bits_pos := ltac:(lia); int_bits_le := ltac:(lia) |}.

(** A platform with a 16-bit [std::size_t] and a 16-bit [int]. *)
Definition IP16 : Platform :=
  {| size_bits := 16; int_bits := 16;
     int_bits_pos := ltac:(lia); int_bits_le := ltac:(lia) |}.

(** [T = int]: four bytes, trivially destructible, unchanged by a move. *)
Definition int_element : Element Z :=
  {| sizeof := 4; sizeof_pos := ltac:(lia);
     trivially_destructible := true; moved_from := fun x => x |}.

(** A [T] that owns a resource, as [std::string] does: not trivially
    destructible, and left with the value [0] once moved from. *)
Definition owning_element : Element Z :=
  {| sizeof := 32; sizeof_pos := ltac:(lia);
     trivially_destructible := false; moved_from := fun _ => 0 |}.

Definition empty_mem {T : Type} : mem T := {| heap := []; objs := []; trace := [] |}.

Definition grant_all {T : Type} : mem T -> Z -> bool := fun _ _ => true.

Definition refuse_all {T : Type} : mem T -> Z -> bool := fun _ _ => false.

(** Whether a computation returned to its caller. *)
Definition returns {St A : Type} (o : outcome St A) : bool :=
  match o with
  | Normal _ _ => true
  | _ => false
  end.

(** The slots in which a history constructs an object while the object
    constructed there before has not been destroyed.  [live] lists the slots
    that hold an object; releasing a block ends the objects in it. *)
Fixpoint constructed_over_live (live : list (nat * Z)) (tr : list event) : list (nat * Z) :=
  let holds b i := existsb (fun s => Nat.eqb (fst s) b && Z.eqb (snd s) i) live in
  let clear b i := filter (fun s => negb (Nat.eqb (fst s) b && Z.eqb (snd s) i)) live in
  let construct b i tr' :=
    (if holds b i then [(b, i)] else [])
    ++ constructed_over_live ((b, i) :: clear b i) tr' in
  match tr with
  | [] => []
  | EvMalloc _ _ :: tr' => constructed_over_live live tr'
  | EvFree None :: tr' => constructed_over_live live tr'
  | EvFree (Some b) :: tr' =>
      constructed_over_live (filter (fun s => negb (Nat.eqb (fst s) b)) live) tr'
  | EvConstruct b i :: tr' => construct b i tr'
  | EvCopyConstruct _ b i :: tr' => construct b i tr'
  | EvMoveConstruct _ b i :: tr' => construct b i tr'
  | EvDestroy b i :: tr' => constructed_over_live (clear b i) tr'
  end.

(** ** Programs run on concrete inputs *)

Section Scenarios.

Local Existing Instance LP64.

(** [T = int], and [emplace_back] given an [int]. *)
Definition int_push_back := push_back (H0 := int_element) grant_all.
Definition new_vector_Z : M Z nat := new_vector.
Definition int_copy_assign := copy_assign (H0 := int_element) grant_all.

(** [T] owning a resource, constructed from an integer. *)
Definition owning_push_back := push_back (H0 := owning_element) grant_all.
Definition owning_copy_assign := copy_assign (H0 := owning_element) grant_all.
Definition owning_move_assign := move_assign (H0 := owning_element) (T := Z).

(** [vector<T> v; v.push_back(1); vector<T> w; w.push_back(2); v = w;] *)
Definition assign_same_size : M Z (nat * nat) :=
  v <- new_vector_Z ;;
  owning_push_back v 1 ;;
  w <- new_vector_Z ;;
  owning_push_back w 2 ;;
  owning_copy_assign v w ;;
  ret (v, w).

(** [vector<T> v; v.push_back(1); vector<T> w; w.push_back(2);
    w.push_back(3); v = w;] *)
Definition assign_larger : M Z (nat * nat) :=
  v <- new_vector_Z ;;
  owning_push_back v 1 ;;
  w <- new_vector_Z ;;
  owning_push_back w 2 ;;
  owning_push_back w 3 ;;
  owning_copy_assign v w ;;
  ret (v, w).

(** [vector<int> v; v.push_back(1); vector<int> w; v = w;] *)
Definition assign_from_empty : M Z (nat * nat) :=
  v <- new_vector_Z ;;
  int_push_back v 1 ;;
  w <- new_vector_Z ;;
  int_copy_assign v w ;;
  ret (v, w).

(** [vector<T> v; v.push_back(1); vector<T> w; w.push_back(2);] *)
Definition two_vectors : M Z (nat * nat) :=
  v <- new_vector_Z ;;
  owning_push_back v 1 ;;
  w <- new_vector_Z ;;
  owning_push_back w 2 ;;
  ret (v, w).

(** [... ; v = std::move(w);] and [... ; v = w;] after [two_vectors]. *)
Definition then_move_assign : M Z nat :=
  vw <- two_vectors ;;
  owning_move_assign (fst vw) (snd vw).

Definition then_copy_assign : M Z nat :=
  vw <- two_vectors ;;
  owning_copy_assign (fst vw) (snd vw).

(** A vector of the two elements 1 and 2 that is full, as two calls of
    [push_back] leave it (the blocks it has outgrown apart). *)
Definition full_vector_mem : mem Z :=
  {| heap := [{| blk_bytes := 64; blk_cells := [Obj 1; Obj 2]; blk_freed := false |}];
     objs := [{| m_count := 2; m_capacity := 2; m_data_ptr := Some 0%nat |}];
     trace := [] |}.

(** The same vector, and the storage of a second object of type [vector<T>]
    on which no constructor has run yet. *)
Definition source_and_declared_mem : mem Z :=
  {| heap := [{| blk_bytes := 64; blk_cells := [Obj 1; Obj 2]; blk_freed := false |}];
     objs := [{| m_count := 2; m_capacity := 2; m_data_ptr := Some 0%nat |};
              {| m_count := 0; m_capacity := 0; m_data_ptr := None |}];
     trace := [] |}.

(** A vector [v] of three elements with capacity 4 and a vector [w] of one
    element, as three calls and one call of [push_back] leave them. *)
Definition three_and_one_mem : mem Z :=
  {| heap := [{| blk_bytes := 16; blk_cells := [Obj 1; Obj 2; Obj 3; Raw];
                 blk_freed := false |};
              {| blk_bytes := 4; blk_cells := [Obj 9]; blk_freed := false |}];
     objs := [{| m_count := 3; m_capacity := 4; m_data_ptr := Some 0%nat |};
              {| m_count := 1; m_capacity := 1; m_data_ptr := Some 1%nat |}];
     trace := [] |}.

End Scenarios.

(** ** Notions used for the members the sections above do not cover *)

Section Observations.

Context `{Platform} {T : Type} `{Element T}.

(** The object [this] has the data members [v]; its count is the number of
    the values [ys], and, unless there is none, its storage is a live block
    that starts with them.  Unlike [rep] this says nothing of the slots after
    the first [m_count]. *)
Definition holds (m : mem T) (this : nat) (v : vector) (ys : list T) : Prop :=
  objs m !! this = Some v
  /\ m_count v = Z.of_nat (length ys)
  /\ (ys = []
      \/ exists b bytes rest,
           m_data_ptr v = Some b
           /\ heap m !! b
              = Some {| blk_bytes := bytes;
                        blk_cells := (Obj <$> ys) ++ rest;
                        blk_freed := false |}).

(** What [asd::copy] adds to the history when it copies [n] elements from
    the storage [p] into block [nb]. *)
Definition copy_events (p : pointer) (nb : nat) (n : Z) : list event :=
  match p with
  | Some sb => EvCopyConstruct sb nb <$> seqZ 0 n
  | None => []
  end.

(** What [destroy()] adds to the history for a vector with the storage [p]
    and [n] elements: the destructor calls in index order, unless [T] is
    trivially destructible, and the release of the storage. *)
Definition destructor_events (p : pointer) (n : Z) : list event :=
  (if trivially_destructible then []
   else match p with
        | Some b => EvDestroy b <$> seqZ 0 n
        | None => []
        end)
  ++ [EvFree p].

(** The number of events of a kind in a history. *)
Fixpoint count_events (kind : event -> bool) (tr : list event) : nat :=
  match tr with
  | [] => 0
  | e :: tr' => (if kind e then 1 else 0) + count_events kind tr'
  end.

Definition is_move (e : event) : bool :=
  match e with
  | EvMoveConstruct _ _ _ => true
  | _ => false
  end.

Definition is_malloc (e : event) : bool :=
  match e with
  | EvMalloc _ _ => true
  | _ => false
  end.

Definition is_release (e : event) : bool :=
  match e with
  | EvFree (Some _) => true
  | _ => false
  end.

(** The number of elements that growth has moved, and the number of blocks
    it has allocated, once [k] insertions into a new vector have returned. *)
Definition moves_after (k : nat) : nat := Z.to_nat (capacity_after k - 1).

Definition allocations_after (k : nat) : nat :=
  match k with
  | O => 0
  | S _ => S (Z.to_nat (Z.log2_up (Z.of_nat k)))
  end.

(** Of the blocks from index [base] on, the only one that may not have been
    released is the storage of the vector [this], which is one of them. *)
Definition only_storage_live (base : nat) (m : mem T) (this : nat) : Prop :=
  exists v,
    objs m !! this = Some v
    /\ (forall b, m_data_ptr v = Some b -> (base <= b)%nat)
    /\ (forall q blk, (base <= q)%nat -> heap m !! q = Some blk ->
                      m_data_ptr v <> Some q -> blk_freed blk = true).

(** The bytes that copy construction and copy assignment request for [n]
    elements, and the number of slots of the block they obtain. *)
Definition copy_bytes (n : Z) : Z := to_size_t (n * sizeof).

Definition copy_slots (n : Z) : nat := Z.to_nat (copy_bytes n / sizeof).

End Observations.

(** * Properties *)

Section Properties.

Context `{Platform} {T : Type} `{Element T}.
Variable malloc_grants : mem T -> Z -> bool.
Context {Args : Type}.
Variable construct : Args -> T.

(** ** Arithmetic of [std::size_t] and [int] *)

Lemma pow2_size_pos : 0 < 2 ^ size_bits.
Proof.
  pose proof int_bits_pos. pose proof int_bits_le.
  apply Z.pow_pos_nonneg; lia.
Qed.

Lemma pow2_int_double : 2 ^ int_bits = 2 * 2 ^ (int_bits - 1).
Proof.
  pose proof int_bits_pos.
  rewrite <- Z.pow_succ_r by lia. f_equal. lia.
Qed.

Lemma pow2_int_half_pos : 0 < 2 ^ (int_bits - 1).
Proof. pose proof int_bits_pos. apply Z.pow_pos_nonneg; lia. Qed.

Lemma pow2_int_le_size : 2 ^ int_bits <= 2 ^ size_bits.
Proof.
  pose proof int_bits_pos. pose proof int_bits_le.
  apply Z.pow_le_mono_r; lia.
Qed.

Lemma to_size_t_range x : 0 <= to_size_t x < 2 ^ size_bits.
Proof. unfold to_size_t. apply Z.mod_pos_bound, pow2_size_pos. Qed.

Lemma to_size_t_small x : 0 <= x < 2 ^ size_bits -> to_size_t x = x.
Proof. intros Hx. unfold to_size_t. now apply Z.mod_small. Qed.

Lemma to_size_t_le x : 0 <= x -> to_size_t x <= x.
Proof.
  intros Hx. unfold to_size_t. apply Z.mod_le; [lia | apply pow2_size_pos].
Qed.

Lemma to_int_small x : 0 <= x <= INT_MAX -> to_int x = x.
Proof.
  unfold to_int, INT_MAX. intros Hx.
  rewrite pow2_int_double. pose proof pow2_int_half_pos.
  rewrite Z.mod_small; lia.
Qed.

(** A count that fits an [int] makes the helpers' loop run that many times. *)
Lemma loop_count_small x : 0 <= x <= INT_MAX -> to_size_t (to_int x) = x.
Proof.
  intros Hx. rewrite to_int_small by exact Hx.
  apply to_size_t_small. unfold INT_MAX in Hx.
  pose proof pow2_int_le_size. pose proof pow2_int_double.
  pose proof pow2_int_half_pos. lia.
Qed.

(** ** Sequencing *)

Lemma bind_Normal {A B} (c : M T A) (k : A -> M T B) m b m'' :
  bind c k m = Normal b m'' ->
  exists a m', c m = Normal a m' /\ k a m' = Normal b m''.
Proof.
  unfold bind. destruct (c m) as [a m'| |]; intros Hk; try discriminate.
  now exists a, m'.
Qed.

Lemma bind_eval {A B} (c : M T A) (k : A -> M T B) m a m' :
  c m = Normal a m' -> bind c k m = k a m'.
Proof. unfold bind. now intros ->. Qed.

(** ** The data members *)

Lemma get_eval this v (hp : list (block T)) (os : list vector) (tr : list event) :
  os !! this = Some v ->
  get this {| heap := hp; objs := os; trace := tr |}
  = Normal v {| heap := hp; objs := os; trace := tr |}.
Proof. unfold get. simpl. now intros ->. Qed.

Lemma get_count_eval this v (hp : list (block T)) (os : list vector) (tr : list event) :
  os !! this = Some v ->
  get_count this {| heap := hp; objs := os; trace := tr |}
  = Normal (m_count v) {| heap := hp; objs := os; trace := tr |}.
Proof. intros Hv. unfold get_count. now rewrite (bind_eval _ _ _ _ _ (get_eval _ _ _ _ _ Hv)). Qed.

Lemma get_capacity_eval this v (hp : list (block T)) (os : list vector) (tr : list event) :
  os !! this = Some v ->
  get_capacity this {| heap := hp; objs := os; trace := tr |}
  = Normal (m_capacity v) {| heap := hp; objs := os; trace := tr |}.
Proof. intros Hv. unfold get_capacity. now rewrite (bind_eval _ _ _ _ _ (get_eval _ _ _ _ _ Hv)). Qed.

Lemma get_data_ptr_eval this v (hp : list (block T)) (os : list vector) (tr : list event) :
  os !! this = Some v ->
  get_data_ptr this {| heap := hp; objs := os; trace := tr |}
  = Normal (m_data_ptr v) {| heap := hp; objs := os; trace := tr |}.
Proof. intros Hv. unfold get_data_ptr. now rewrite (bind_eval _ _ _ _ _ (get_eval _ _ _ _ _ Hv)). Qed.

Lemma set_count_eval this v c (hp : list (block T)) (os : list vector) (tr : list event) :
  os !! this = Some v ->
  set_count this c {| heap := hp; objs := os; trace := tr |}
  = Normal tt
      {| heap := hp;
         objs := <[this := {| m_count := c; m_capacity := m_capacity v;
                              m_data_ptr := m_data_ptr v |}]> os;
         trace := tr |}.
Proof. intros Hv. unfold set_count. now rewrite (bind_eval _ _ _ _ _ (get_eval _ _ _ _ _ Hv)). Qed.

Lemma set_capacity_eval this v c (hp : list (block T)) (os : list vector) (tr : list event) :
  os !! this = Some v ->
  set_capacity this c {| heap := hp; objs := os; trace := tr |}
  = Normal tt
      {| heap := hp;
         objs := <[this := {| m_count := m_count v; m_capacity := c;
                              m_data_ptr := m_data_ptr v |}]> os;
         trace := tr |}.
Proof. intros Hv. unfold set_capacity. now rewrite (bind_eval _ _ _ _ _ (get_eval _ _ _ _ _ Hv)). Qed.

Lemma set_data_ptr_eval this v p (hp : list (block T)) (os : list vector) (tr : list event) :
  os !! this = Some v ->
  set_data_ptr this p {| heap := hp; objs := os; trace := tr |}
  = Normal tt
      {| heap := hp;
         objs := <[this := {| m_count := m_count v; m_capacity := m_capacity v;
                              m_data_ptr := p |}]> os;
         trace := tr |}.
Proof. intros Hv. unfold set_data_ptr. now rewrite (bind_eval _ _ _ _ _ (get_eval _ _ _ _ _ Hv)). Qed.

Lemma lookup_insert_same (os : list vector) this v w :
  os !! this = Some v -> <[this := w]> os !! this = Some w.
Proof. intros Hv. apply list_lookup_insert_eq. now apply lookup_lt_Some in Hv. Qed.

Lemma init_eval this v cap n p (hp : list (block T)) (os : list vector) (tr : list event) :
  os !! this = Some v ->
  init this cap n p {| heap := hp; objs := os; trace := tr |}
  = Normal tt
      {| heap := hp;
         objs := <[this := {| m_count := n; m_capacity := cap; m_data_ptr := p |}]> os;
         trace := tr |}.
Proof.
  intros Hv. unfold init.
  rewrite (bind_eval _ _ _ _ _ (set_count_eval _ _ n _ _ _ Hv)).
  rewrite (bind_eval _ _ _ _ _
             (set_capacity_eval _ _ cap _ _ _ (lookup_insert_same _ _ _ _ Hv))).
  rewrite (set_data_ptr_eval _ _ p _ _ _
             (lookup_insert_same _ _ _ _ (lookup_insert_same _ _ _ _ Hv))).
  simpl. now rewrite !list_insert_insert_eq.
Qed.

Lemma reset_eval this v (hp : list (block T)) (os : list vector) (tr : list event) :
  os !! this = Some v ->
  reset this {| heap := hp; objs := os; trace := tr |}
  = Normal tt
      {| heap := hp;
         objs := <[this := {| m_count := 0; m_capacity := 0; m_data_ptr := None |}]> os;
         trace := tr |}.
Proof. intros Hv. now apply (init_eval this v 0 0 None). Qed.

(** ** The heap *)

Lemma malloc_eval bytes (hp : list (block T)) (os : list vector) (tr : list event) :
  malloc malloc_grants bytes {| heap := hp; objs := os; trace := tr |}
  = if malloc_grants {| heap := hp; objs := os; trace := tr |} bytes
    then Normal (Some (length hp))
           {| heap := hp ++ [fresh_block bytes]; objs := os;
              trace := tr ++ [EvMalloc (length hp) bytes] |}
    else Normal None {| heap := hp; objs := os; trace := tr |}.
Proof. reflexivity. Qed.

Lemma allocate_eval n (hp : list (block T)) (os : list vector) (tr : list event) :
  allocate malloc_grants n {| heap := hp; objs := os; trace := tr |}
  = if malloc_grants {| heap := hp; objs := os; trace := tr |} (to_size_t (n * sizeof))
    then Normal (Some (length hp))
           {| heap := hp ++ [fresh_block (to_size_t (n * sizeof))]; objs := os;
              trace := tr ++ [EvMalloc (length hp) (to_size_t (n * sizeof))] |}
    else BadAlloc {| heap := hp; objs := os; trace := tr |}.
Proof.
  unfold allocate, bind. rewrite malloc_eval.
  now destruct (malloc_grants _ _).
Qed.

Lemma live_block_eval b blk (hp : list (block T)) (os : list vector) (tr : list event) :
  hp !! b = Some blk -> blk_freed blk = false ->
  live_block (Some b) {| heap := hp; objs := os; trace := tr |} = Some (b, blk).
Proof. unfold live_block. simpl. now intros -> ->. Qed.

Lemma cell_at_eval b blk i (hp : list (block T)) (os : list vector) (tr : list event) :
  hp !! b = Some blk -> blk_freed blk = false -> 0 <= i ->
  cell_at (Some b) i {| heap := hp; objs := os; trace := tr |}
  = blk_cells blk !! Z.to_nat i.
Proof.
  intros Hb Hf Hi. unfold cell_at. rewrite (live_block_eval _ _ _ _ _ Hb Hf).
  destruct (Z.leb_spec 0 i); [reflexivity | lia].
Qed.

Lemma set_cell_eval b blk i s (hp : list (block T)) (os : list vector) (tr : list event) :
  hp !! b = Some blk ->
  set_cell b i s {| heap := hp; objs := os; trace := tr |}
  = {| heap := <[b := {| blk_bytes := blk_bytes blk;
                         blk_cells := <[Z.to_nat i := s]> (blk_cells blk);
                         blk_freed := blk_freed blk |}]> hp;
       objs := os; trace := tr |}.
Proof. unfold set_cell. simpl. now intros ->. Qed.

Lemma free_eval b blk (hp : list (block T)) (os : list vector) (tr : list event) :
  hp !! b = Some blk -> blk_freed blk = false ->
  free (Some b) {| heap := hp; objs := os; trace := tr |}
  = Normal tt
      {| heap := <[b := {| blk_bytes := blk_bytes blk; blk_cells := blk_cells blk;
                           blk_freed := true |}]> hp;
         objs := os; trace := tr ++ [EvFree (Some b)] |}.
Proof.
  intros Hb Hf. unfold free. now rewrite (live_block_eval _ _ _ _ _ Hb Hf).
Qed.

Lemma placement_new_eval b blk i s x
    (hp : list (block T)) (os : list vector) (tr : list event) :
  hp !! b = Some blk -> blk_freed blk = false -> 0 <= i ->
  blk_cells blk !! Z.to_nat i = Some s ->
  placement_new (Some b) i x {| heap := hp; objs := os; trace := tr |}
  = Normal tt
      {| heap := <[b := {| blk_bytes := blk_bytes blk;
                           blk_cells := <[Z.to_nat i := Obj x]> (blk_cells blk);
                           blk_freed := blk_freed blk |}]> hp;
         objs := os; trace := tr ++ [EvConstruct b i] |}.
Proof.
  intros Hb Hf Hi Hs. unfold placement_new.
  rewrite (live_block_eval _ _ _ _ _ Hb Hf), (cell_at_eval _ _ _ _ _ _ Hb Hf Hi), Hs.
  now rewrite (set_cell_eval _ _ _ _ _ _ _ Hb).
Qed.

(** A slot outside the block, or a null or dangling pointer: undefined. *)
Lemma placement_new_outside p i (x : T) (m : mem T) :
  cell_at p i m = None -> placement_new p i x m = Undefined.
Proof.
  intros Hc. unfold placement_new. rewrite Hc.
  now destruct (live_block p m) as [[b blk]|].
Qed.

(** ** asd::allocator::allocate *)

(** C8.  For every [n] of type [std::size_t], [allocate(n)] either throws
    [std::bad_alloc], leaving the whole state as it was, or returns a new
    block of [n * sizeof(T)] bytes modulo [2 ^ size_bits], every slot of which
    is raw, and changes nothing else.  When [n * sizeof(T)] does not wrap the
    block has room for [n] elements; when it wraps the block is smaller than
    [n] elements. *)
Theorem allocate_spec (n : Z) (m : mem T) :
  0 <= n < 2 ^ size_bits ->
  let bytes := to_size_t (n * sizeof) in
  let blk := {| blk_bytes := bytes;
                blk_cells := replicate (Z.to_nat (bytes / sizeof)) (@Raw T);
                blk_freed := false |} in
  (allocate malloc_grants n m = BadAlloc m
   \/ exists m',
        allocate malloc_grants n m = Normal (Some (length (heap m))) m'
        /\ heap m' = heap m ++ [blk]
        /\ objs m' = objs m)
  /\ (n * sizeof < 2 ^ size_bits ->
      bytes = n * sizeof /\ Z.of_nat (length (blk_cells blk)) = n)
  /\ (2 ^ size_bits <= n * sizeof ->
      bytes < n * sizeof /\ Z.of_nat (length (blk_cells blk)) < n).
Proof.
  intros Hn bytes blk. pose proof sizeof_pos as Hs. pose proof pow2_size_pos as Hp.
  assert (Hb : 0 <= bytes < 2 ^ size_bits) by apply to_size_t_range.
  assert (Hlen : Z.of_nat (length (blk_cells blk)) = bytes / sizeof).
  { simpl. rewrite length_replicate, Z2Nat.id; [reflexivity |].
    apply Z.div_pos; lia. }
  split; [| split].
  - destruct m as [hp os tr]. rewrite allocate_eval.
    destruct (malloc_grants _ _); [right | now left].
    eexists. split; [reflexivity |]. now simpl.
  - intros Hsmall.
    assert (Hbytes : bytes = n * sizeof).
    { subst bytes. apply to_size_t_small. nia. }
    split; [exact Hbytes |].
    rewrite Hlen, Hbytes. apply Z.div_mul. lia.
  - intros Hbig.
    assert (Hbytes : bytes < n * sizeof) by lia.
    split; [exact Hbytes |].
    rewrite Hlen. apply Z.div_lt_upper_bound; lia.
Qed.

(** ** Growth that cannot allocate *)

(** C4.  When an insertion finds [m_count == m_capacity] and the allocation of
    the larger storage is refused, [push_back] and [emplace_back] throw
    [std::bad_alloc] and the whole state (the vector's data members, its
    storage and every element in it) is what it was before the call. *)
Theorem growth_failure_leaves_vector_unchanged
    (this : nat) (v : vector) (item : T) (args : Args) (m : mem T) :
  objs m !! this = Some v ->
  m_count v = m_capacity v ->
  malloc_grants m
    (to_size_t ((if m_capacity v =? 0 then 1 else to_size_t (m_capacity v * 2)) * sizeof))
  = false ->
  push_back malloc_grants this item m = BadAlloc m
  /\ emplace_back malloc_grants construct this args m = BadAlloc m.
Proof.
  destruct m as [hp os tr]. simpl. intros Hv Heq Hrefuse.
  assert (Hgrow : reallocate malloc_grants this {| heap := hp; objs := os; trace := tr |}
                  = BadAlloc {| heap := hp; objs := os; trace := tr |}).
  { unfold reallocate.
    rewrite (bind_eval _ _ _ _ _ (get_capacity_eval _ _ _ _ _ Hv)).
    unfold bind at 1. rewrite allocate_eval, Hrefuse. reflexivity. }
  split.
  - unfold push_back.
    rewrite (bind_eval _ _ _ _ _ (get_count_eval _ _ _ _ _ Hv)).
    rewrite (bind_eval _ _ _ _ _ (get_capacity_eval _ _ _ _ _ Hv)).
    rewrite Heq, Z.eqb_refl. unfold bind at 1. now rewrite Hgrow.
  - unfold emplace_back.
    rewrite (bind_eval _ _ _ _ _ (get_count_eval _ _ _ _ _ Hv)).
    rewrite (bind_eval _ _ _ _ _ (get_capacity_eval _ _ _ _ _ Hv)).
    rewrite Heq, Z.eqb_refl. unfold bind at 1. now rewrite Hgrow.
Qed.

(** ** The construction helpers *)

Lemma move_construct_eval ob nb bo bn i x s
    (hp : list (block T)) (os : list vector) (tr : list event) :
  ob <> nb ->
  hp !! ob = Some bo -> blk_freed bo = false ->
  hp !! nb = Some bn -> blk_freed bn = false ->
  0 <= i ->
  blk_cells bo !! Z.to_nat i = Some (Obj x) ->
  blk_cells bn !! Z.to_nat i = Some s ->
  move_construct (Some ob) i (Some nb) {| heap := hp; objs := os; trace := tr |}
  = Normal tt
      {| heap :=
           <[nb := {| blk_bytes := blk_bytes bn;
                      blk_cells := <[Z.to_nat i := Obj x]> (blk_cells bn);
                      blk_freed := blk_freed bn |}]>
             (<[ob := {| blk_bytes := blk_bytes bo;
                         blk_cells := <[Z.to_nat i := Obj (moved_from x)]> (blk_cells bo);
                         blk_freed := blk_freed bo |}]> hp);
         objs := os;
         trace := tr ++ [EvMoveConstruct ob nb i] |}.
Proof.
  intros Hne Hob Hfo Hnb Hfn Hi Hx Hs. unfold move_construct.
  rewrite (live_block_eval _ _ _ _ _ Hob Hfo), (cell_at_eval _ _ _ _ _ _ Hob Hfo Hi), Hx.
  rewrite (live_block_eval _ _ _ _ _ Hnb Hfn), (cell_at_eval _ _ _ _ _ _ Hnb Hfn Hi), Hs.
  rewrite (set_cell_eval _ _ _ _ _ _ _ Hob).
  erewrite set_cell_eval; [reflexivity |].
  now rewrite list_lookup_insert_ne.
Qed.

Lemma copy_construct_eval sb nb bs bn i x s
    (hp : list (block T)) (os : list vector) (tr : list event) :
  hp !! sb = Some bs -> blk_freed bs = false ->
  hp !! nb = Some bn -> blk_freed bn = false ->
  0 <= i ->
  blk_cells bs !! Z.to_nat i = Some (Obj x) ->
  blk_cells bn !! Z.to_nat i = Some s ->
  copy_construct (Some sb) i (Some nb) {| heap := hp; objs := os; trace := tr |}
  = Normal tt
      {| heap :=
           <[nb := {| blk_bytes := blk_bytes bn;
                      blk_cells := <[Z.to_nat i := Obj x]> (blk_cells bn);
                      blk_freed := blk_freed bn |}]> hp;
         objs := os;
         trace := tr ++ [EvCopyConstruct sb nb i] |}.
Proof.
  intros Hsb Hfs Hnb Hfn Hi Hx Hs. unfold copy_construct.
  rewrite (live_block_eval _ _ _ _ _ Hsb Hfs), (cell_at_eval _ _ _ _ _ _ Hsb Hfs Hi), Hx.
  rewrite (live_block_eval _ _ _ _ _ Hnb Hfn), (cell_at_eval _ _ _ _ _ _ Hnb Hfn Hi), Hs.
  now rewrite (set_cell_eval _ _ _ _ _ _ _ Hnb).
Qed.

Lemma insert_after_prefix {A} (l1 l2 : list A) x y :
  <[length l1 := y]> (l1 ++ x :: l2) = l1 ++ y :: l2.
Proof.
  rewrite insert_app_r_alt by lia. now rewrite Nat.sub_diag.
Qed.

Lemma seqZ_first (i : Z) (n : nat) :
  seqZ i (Z.of_nat (S n)) = i :: seqZ (i + 1) (Z.of_nat n).
Proof.
  rewrite seqZ_cons by lia. f_equal. f_equal; lia.
Qed.

(** [asd::move] on a source whose first [length prev] elements were already
    moved to the destination. *)
Lemma move_from_eval ob nb bytes_o bytes_n (todo : list T) :
  forall (prev : list T) (rest : list (slot T)) (r : nat)
         (hp : list (block T)) (os : list vector) (tr : list event),
  ob <> nb ->
  hp !! ob = Some {| blk_bytes := bytes_o;
                     blk_cells := (Obj <$> (moved_from <$> prev)) ++ (Obj <$> todo) ++ rest;
                     blk_freed := false |} ->
  hp !! nb = Some {| blk_bytes := bytes_n;
                     blk_cells := (Obj <$> prev) ++ replicate r Raw;
                     blk_freed := false |} ->
  (length todo <= r)%nat ->
  move_from (Some ob) (Some nb) (Z.of_nat (length prev)) (length todo)
    {| heap := hp; objs := os; trace := tr |}
  = Normal tt
      {| heap :=
           <[nb := {| blk_bytes := bytes_n;
                      blk_cells := (Obj <$> (prev ++ todo)) ++ replicate (r - length todo) Raw;
                      blk_freed := false |}]>
             (<[ob := {| blk_bytes := bytes_o;
                         blk_cells := (Obj <$> (moved_from <$> (prev ++ todo))) ++ rest;
                         blk_freed := false |}]> hp);
         objs := os;
         trace := tr ++ (EvMoveConstruct ob nb
                           <$> seqZ (Z.of_nat (length prev)) (Z.of_nat (length todo))) |}.
Proof.
  induction todo as [|x todo IH]; intros prev rest r hp os tr Hne Hob Hnb Hr.
  - simpl. unfold ret. rewrite !app_nil_r, Nat.sub_0_r.
    simpl in Hob. rewrite (list_insert_id _ _ _ Hob), (list_insert_id _ _ _ Hnb).
    reflexivity.
  - simpl length in *. destruct r as [|r]; [lia |].
    cbn [move_from].
    erewrite bind_eval; cycle 1.
    { eapply (move_construct_eval ob nb _ _ _ x Raw); eauto; try lia; cbn [blk_cells].
      - rewrite Nat2Z.id. apply list_lookup_middle. now rewrite !length_fmap.
      - rewrite Nat2Z.id. apply list_lookup_middle. now rewrite !length_fmap. }
    cbn [blk_bytes blk_cells blk_freed].
    replace (Z.of_nat (length prev) + 1) with (Z.of_nat (length (prev ++ [x])))
      by (rewrite length_app; simpl; lia).
    rewrite (IH (prev ++ [x]) rest r); try assumption; try lia.
    + f_equal. f_equal.
      * rewrite list_insert_insert_ne by congruence.
        rewrite list_insert_insert_eq.
        rewrite list_insert_insert_ne by congruence.
        rewrite list_insert_insert_eq.
        rewrite <- !app_assoc. simpl. reflexivity.
      * rewrite <- app_assoc. f_equal. rewrite seqZ_first. simpl.
        rewrite length_app. simpl.
        replace (Z.of_nat (length prev + 1)) with (Z.of_nat (length prev) + 1) by lia.
        reflexivity.
    + rewrite list_lookup_insert_ne by congruence.
      rewrite list_lookup_insert_eq by (now apply lookup_lt_Some in Hob).
      f_equal. f_equal.
      rewrite Nat2Z.id.
      replace (length prev) with (length (Obj <$> (moved_from <$> prev)))
        by now rewrite !length_fmap.
      simpl. rewrite insert_after_prefix.
      rewrite !fmap_app, <- app_assoc. reflexivity.
    + rewrite list_lookup_insert_eq
        by (rewrite length_insert; now apply lookup_lt_Some in Hnb).
      f_equal. f_equal.
      rewrite Nat2Z.id.
      replace (length prev) with (length (Obj <$> prev)) by now rewrite !length_fmap.
      simpl. rewrite insert_after_prefix.
      rewrite !fmap_app, <- app_assoc. reflexivity.
Qed.

(** A destination with fewer raw slots than the loop runs times, or a loop
    that runs more often than the source has elements: the loop constructs
    outside the destination, or reads a slot that holds no object. *)
Lemma move_from_undefined ob nb bytes_o bytes_n (todo : list T) :
  forall (n : nat) (prev : list T) (rest : list (slot T)) (r : nat)
         (hp : list (block T)) (os : list vector) (tr : list event),
  ob <> nb ->
  hp !! ob = Some {| blk_bytes := bytes_o;
                     blk_cells := (Obj <$> (moved_from <$> prev)) ++ (Obj <$> todo) ++ rest;
                     blk_freed := false |} ->
  hp !! nb = Some {| blk_bytes := bytes_n;
                     blk_cells := (Obj <$> prev) ++ replicate r Raw;
                     blk_freed := false |} ->
  (forall y, rest !! 0%nat <> Some (Obj y)) ->
  (length todo <= n)%nat ->
  (r < n \/ length todo < n)%nat ->
  move_from (Some ob) (Some nb) (Z.of_nat (length prev)) n
    {| heap := hp; objs := os; trace := tr |}
  = Undefined.
Proof.
  induction todo as [|x todo IH]; intros n prev rest r hp os tr Hne Hob Hnb Hrest Hle Hn.
  - destruct n as [|n]; [simpl in Hn; lia |].
    cbn [move_from]. unfold bind, move_construct.
    rewrite (live_block_eval _ _ _ _ _ Hob eq_refl).
    rewrite (cell_at_eval _ _ _ _ _ _ Hob eq_refl) by lia.
    cbn [blk_cells]. rewrite Nat2Z.id. simpl app.
    rewrite lookup_app_r by now rewrite !length_fmap.
    rewrite !length_fmap, Nat.sub_diag.
    destruct (rest !! 0%nat) as [[|y]|] eqn:Hhead; try reflexivity.
    now destruct (Hrest y).
  - simpl length in *. destruct n as [|n]; [lia |].
    cbn [move_from]. destruct r as [|r].
    + unfold bind, move_construct.
      rewrite (live_block_eval _ _ _ _ _ Hob eq_refl).
      rewrite (cell_at_eval _ _ _ _ _ _ Hob eq_refl) by lia.
      rewrite (live_block_eval _ _ _ _ _ Hnb eq_refl).
      rewrite (cell_at_eval _ _ _ _ _ _ Hnb eq_refl) by lia.
      cbn [blk_cells]. rewrite Nat2Z.id.
      change ((Obj <$> x :: todo) ++ rest) with (Obj x :: (Obj <$> todo) ++ rest).
      rewrite list_lookup_middle by now rewrite !length_fmap.
      simpl replicate.
      rewrite app_nil_r, lookup_ge_None_2 by now rewrite length_fmap.
      reflexivity.
    + erewrite bind_eval; cycle 1.
      { eapply (move_construct_eval ob nb _ _ _ x Raw); eauto; try lia; cbn [blk_cells].
        - rewrite Nat2Z.id. apply list_lookup_middle. now rewrite !length_fmap.
        - rewrite Nat2Z.id. apply list_lookup_middle. now rewrite !length_fmap. }
      cbn [blk_bytes blk_cells blk_freed].
      replace (Z.of_nat (length prev) + 1) with (Z.of_nat (length (prev ++ [x])))
        by (rewrite length_app; simpl; lia).
      apply (IH n (prev ++ [x]) rest r); try assumption; try lia.
      * rewrite list_lookup_insert_ne by congruence.
        rewrite list_lookup_insert_eq by (now apply lookup_lt_Some in Hob).
        f_equal. f_equal.
        rewrite Nat2Z.id.
        replace (length prev) with (length (Obj <$> (moved_from <$> prev)))
          by now rewrite !length_fmap.
        simpl. rewrite insert_after_prefix.
        rewrite !fmap_app, <- app_assoc. reflexivity.
      * rewrite list_lookup_insert_eq
          by (rewrite length_insert; now apply lookup_lt_Some in Hnb).
        f_equal. f_equal.
        rewrite Nat2Z.id.
        replace (length prev) with (length (Obj <$> prev)) by now rewrite !length_fmap.
        simpl. rewrite insert_after_prefix.
        rewrite !fmap_app, <- app_assoc. reflexivity.
Qed.

Lemma raw_head_not_obj (r : nat) (y : T) : replicate r (@Raw T) !! 0%nat <> Some (Obj y).
Proof. destruct r; simpl; congruence. Qed.

(** ** Growth *)

Lemma reallocate_refused this v (m : mem T) :
  objs m !! this = Some v ->
  malloc_grants m (grown_bytes (m_capacity v)) = false ->
  reallocate malloc_grants this m = BadAlloc m.
Proof.
  destruct m as [hp os tr]. simpl. intros Hv Hrefuse. unfold reallocate.
  rewrite (bind_eval _ _ _ _ _ (get_capacity_eval _ _ _ _ _ Hv)).
  unfold bind at 1. rewrite allocate_eval.
  unfold grown_bytes, grown_capacity in Hrefuse. now rewrite Hrefuse.
Qed.

(** Growth of a vector that has storage, when the loop of [asd::move] runs
    once per element. *)
Lemma reallocate_eval this v ob bytes_o xs r
    (hp : list (block T)) (os : list vector) (tr : list event) :
  os !! this = Some v ->
  m_count v = Z.of_nat (length xs) ->
  loop_count (m_count v) = length xs ->
  m_data_ptr v = Some ob ->
  hp !! ob = Some {| blk_bytes := bytes_o;
                     blk_cells := (Obj <$> xs) ++ replicate r Raw;
                     blk_freed := false |} ->
  malloc_grants {| heap := hp; objs := os; trace := tr |} (grown_bytes (m_capacity v)) = true ->
  reallocate malloc_grants this {| heap := hp; objs := os; trace := tr |}
  = if decide (length xs <= grown_slots (m_capacity v))%nat then
      Normal tt
        {| heap :=
             <[ob := {| blk_bytes := bytes_o;
                        blk_cells := (Obj <$> (moved_from <$> xs)) ++ replicate r Raw;
                        blk_freed := true |}]> hp
             ++ [{| blk_bytes := grown_bytes (m_capacity v);
                    blk_cells :=
                      (Obj <$> xs)
                      ++ replicate (grown_slots (m_capacity v) - length xs) Raw;
                    blk_freed := false |}];
           objs := <[this := {| m_count := m_count v;
                                m_capacity := grown_capacity (m_capacity v);
                                m_data_ptr := Some (length hp) |}]> os;
           trace := tr ++ growth_events (Some ob) (length hp)
                            (grown_bytes (m_capacity v)) (m_count v) |}
    else Undefined.
Proof.
  intros Hv Hn Hloop Hp Hob Hgrant.
  assert (Hlt : (ob < length hp)%nat) by now apply lookup_lt_Some in Hob.
  unfold reallocate.
  rewrite (bind_eval _ _ _ _ _ (get_capacity_eval _ _ _ _ _ Hv)).
  fold (grown_capacity (m_capacity v)).
  erewrite bind_eval; cycle 1.
  { rewrite allocate_eval. fold (grown_bytes (m_capacity v)). now rewrite Hgrant. }
  rewrite (bind_eval _ _ _ _ _ (get_data_ptr_eval _ _ _ _ _ Hv)).
  rewrite (bind_eval _ _ _ _ _ (get_count_eval _ _ _ _ _ Hv)).
  rewrite Hp. unfold move. fold (loop_count (m_count v)). rewrite Hloop.
  assert (Hob' : (hp ++ [fresh_block (grown_bytes (m_capacity v))]) !! ob
                 = Some {| blk_bytes := bytes_o;
                           blk_cells := (Obj <$> (moved_from <$> [])) ++ (Obj <$> xs)
                                        ++ replicate r Raw;
                           blk_freed := false |}).
  { rewrite lookup_app_l by exact Hlt. exact Hob. }
  assert (Hnb' : (hp ++ [fresh_block (grown_bytes (m_capacity v))]) !! length hp
                 = Some {| blk_bytes := grown_bytes (m_capacity v);
                           blk_cells := (Obj <$> []) ++ replicate (grown_slots (m_capacity v)) Raw;
                           blk_freed := false |}).
  { now rewrite list_lookup_middle. }
  assert (Hne : ob <> length hp) by lia.
  destruct (decide (length xs <= grown_slots (m_capacity v))%nat) as [Hroom|Hshort].
  - erewrite bind_eval; cycle 1.
    { apply (move_from_eval ob (length hp) _ _ xs [] _ _ _ _ _ Hne Hob' Hnb' Hroom). }
    rewrite (bind_eval _ _ _ _ _ (get_data_ptr_eval _ _ _ _ _ Hv)).
    rewrite Hp. unfold deallocate.
    erewrite bind_eval; cycle 1.
    { eapply free_eval.
      - rewrite list_lookup_insert_ne by congruence.
        apply list_lookup_insert_eq. rewrite length_app. lia.
      - reflexivity. }
    rewrite (bind_eval _ _ _ _ _ (get_count_eval _ _ _ _ _ Hv)).
    rewrite (init_eval _ _ _ _ _ _ _ _ Hv).
    cbn [blk_bytes blk_cells blk_freed app fmap list_fmap length].
    unfold growth_events. rewrite Hn.
    f_equal. f_equal.
    + rewrite list_insert_insert_ne by congruence.
      rewrite list_insert_insert_eq.
      rewrite (insert_app_l _ _ ob) by exact Hlt.
      replace (length hp) with (length (<[ob := {| blk_bytes := bytes_o;
                           blk_cells := (Obj <$> (moved_from <$> xs)) ++ replicate r Raw;
                           blk_freed := true |}]> hp)) at 1 by apply length_insert.
      change [fresh_block (grown_bytes (m_capacity v))]
        with ([] ++ fresh_block (grown_bytes (m_capacity v)) :: []).
      rewrite app_nil_l.
      rewrite insert_after_prefix. reflexivity.
    + rewrite <- !app_assoc. reflexivity.
  - apply Nat.nle_gt in Hshort. unfold bind at 1.
    rewrite (move_from_undefined ob (length hp) _ _ xs (length xs) [] _ _ _ _ _
               Hne Hob' Hnb'); auto using raw_head_not_obj.
Qed.

(** Growth of a vector that has storage, when the loop of [asd::move] runs
    more often than the vector has elements: it reads past the last one. *)
Lemma reallocate_overrun this v ob bytes_o xs r
    (hp : list (block T)) (os : list vector) (tr : list event) :
  os !! this = Some v ->
  m_count v = Z.of_nat (length xs) ->
  (length xs < loop_count (m_count v))%nat ->
  m_data_ptr v = Some ob ->
  hp !! ob = Some {| blk_bytes := bytes_o;
                     blk_cells := (Obj <$> xs) ++ replicate r Raw;
                     blk_freed := false |} ->
  malloc_grants {| heap := hp; objs := os; trace := tr |} (grown_bytes (m_capacity v)) = true ->
  reallocate malloc_grants this {| heap := hp; objs := os; trace := tr |} = Undefined.
Proof.
  intros Hv Hn Hloop Hp Hob Hgrant.
  assert (Hlt : (ob < length hp)%nat) by now apply lookup_lt_Some in Hob.
  unfold reallocate.
  rewrite (bind_eval _ _ _ _ _ (get_capacity_eval _ _ _ _ _ Hv)).
  fold (grown_capacity (m_capacity v)).
  erewrite bind_eval; cycle 1.
  { rewrite allocate_eval. fold (grown_bytes (m_capacity v)). now rewrite Hgrant. }
  rewrite (bind_eval _ _ _ _ _ (get_data_ptr_eval _ _ _ _ _ Hv)).
  rewrite (bind_eval _ _ _ _ _ (get_count_eval _ _ _ _ _ Hv)).
  rewrite Hp. unfold move. fold (loop_count (m_count v)).
  unfold bind at 1.
  rewrite (move_from_undefined ob (length hp) bytes_o (grown_bytes (m_capacity v)) xs
             (loop_count (m_count v)) [] (replicate r Raw) (grown_slots (m_capacity v)));
    auto using raw_head_not_obj; try lia.
  - rewrite lookup_app_l by exact Hlt. exact Hob.
  - now rewrite list_lookup_middle.
Qed.

(** Growth of a vector that has no storage and no elements. *)
Lemma reallocate_eval_null this v
    (hp : list (block T)) (os : list vector) (tr : list event) :
  os !! this = Some v ->
  m_count v = 0 ->
  m_data_ptr v = None ->
  malloc_grants {| heap := hp; objs := os; trace := tr |} (grown_bytes (m_capacity v)) = true ->
  reallocate malloc_grants this {| heap := hp; objs := os; trace := tr |}
  = Normal tt
      {| heap := hp ++ [{| blk_bytes := grown_bytes (m_capacity v);
                           blk_cells := replicate (grown_slots (m_capacity v)) Raw;
                           blk_freed := false |}];
         objs := <[this := {| m_count := 0;
                              m_capacity := grown_capacity (m_capacity v);
                              m_data_ptr := Some (length hp) |}]> os;
         trace := tr ++ growth_events None (length hp) (grown_bytes (m_capacity v)) 0 |}.
Proof.
  intros Hv Hn Hp Hgrant. unfold reallocate.
  rewrite (bind_eval _ _ _ _ _ (get_capacity_eval _ _ _ _ _ Hv)).
  fold (grown_capacity (m_capacity v)).
  erewrite bind_eval; cycle 1.
  { rewrite allocate_eval. fold (grown_bytes (m_capacity v)). now rewrite Hgrant. }
  rewrite (bind_eval _ _ _ _ _ (get_data_ptr_eval _ _ _ _ _ Hv)).
  rewrite (bind_eval _ _ _ _ _ (get_count_eval _ _ _ _ _ Hv)).
  rewrite Hp, Hn. unfold move.
  replace (Z.to_nat (to_size_t (to_int 0))) with 0%nat; cycle 1.
  { rewrite loop_count_small; [reflexivity |].
    unfold INT_MAX. pose proof pow2_int_half_pos. lia. }
  cbn [move_from]. unfold ret at 1. unfold bind at 1.
  rewrite (bind_eval _ _ _ _ _ (get_data_ptr_eval _ _ _ _ _ Hv)).
  rewrite Hp. unfold deallocate, free, log. cbn [heap objs trace]. unfold bind at 1.
  rewrite (bind_eval _ _ _ _ _ (get_count_eval _ _ _ _ _ Hv)).
  rewrite (init_eval _ _ _ _ _ _ _ _ Hv).
  cbn [heap objs trace]. rewrite Hn, <- app_assoc. reflexivity.
Qed.

(** ** Insertion *)

Lemma push_back_unfold this (x : T) (v : vector)
    (hp : list (block T)) (os : list vector) (tr : list event) :
  os !! this = Some v ->
  push_back malloc_grants this x {| heap := hp; objs := os; trace := tr |}
  = ((if m_count v =? m_capacity v then reallocate malloc_grants this else ret tt) ;;
     construct_at_end this x) {| heap := hp; objs := os; trace := tr |}.
Proof.
  intros Hv. unfold push_back.
  rewrite (bind_eval _ _ _ _ _ (get_count_eval _ _ _ _ _ Hv)).
  rewrite (bind_eval _ _ _ _ _ (get_capacity_eval _ _ _ _ _ Hv)).
  reflexivity.
Qed.

Lemma emplace_back_push_back this (args : Args) :
  emplace_back malloc_grants construct this args
  = push_back malloc_grants this (construct args).
Proof. reflexivity. Qed.

Lemma insert_push_back this (op : insertion) :
  insert malloc_grants construct this op
  = push_back malloc_grants this (inserted construct op).
Proof. now destruct op. Qed.

Lemma construct_at_end_eval this v b bytes xs r (x : T)
    (hp : list (block T)) (os : list vector) (tr : list event) :
  os !! this = Some v ->
  m_count v = Z.of_nat (length xs) ->
  m_data_ptr v = Some b ->
  hp !! b = Some {| blk_bytes := bytes;
                    blk_cells := (Obj <$> xs) ++ replicate (S r) Raw;
                    blk_freed := false |} ->
  construct_at_end this x {| heap := hp; objs := os; trace := tr |}
  = Normal tt
      {| heap := <[b := {| blk_bytes := bytes;
                           blk_cells := (Obj <$> (xs ++ [x])) ++ replicate r Raw;
                           blk_freed := false |}]> hp;
         objs := <[this := {| m_count := to_size_t (m_count v + 1);
                              m_capacity := m_capacity v;
                              m_data_ptr := Some b |}]> os;
         trace := tr ++ [EvConstruct b (m_count v)] |}.
Proof.
  intros Hv Hn Hp Hb. unfold construct_at_end.
  rewrite (bind_eval _ _ _ _ _ (get_data_ptr_eval _ _ _ _ _ Hv)).
  rewrite (bind_eval _ _ _ _ _ (get_count_eval _ _ _ _ _ Hv)).
  rewrite Hp.
  erewrite bind_eval; cycle 1.
  { eapply (placement_new_eval b _ _ Raw); [exact Hb | reflexivity | lia |].
    cbn [blk_cells]. rewrite Hn, Nat2Z.id.
    apply list_lookup_middle. now rewrite length_fmap. }
  cbn [blk_bytes blk_cells blk_freed].
  rewrite (bind_eval _ _ _ _ _ (get_count_eval _ _ _ _ _ Hv)).
  rewrite (set_count_eval _ _ _ _ _ _ Hv).
  rewrite Hp. f_equal. f_equal. f_equal. f_equal.
  rewrite Hn, Nat2Z.id.
  replace (length xs) with (length (Obj <$> xs)) at 1 by now rewrite length_fmap.
  simpl replicate. rewrite insert_after_prefix.
  rewrite fmap_app, <- app_assoc. reflexivity.
Qed.

(** No raw slot is left after the elements: the new element would be
    constructed outside the block. *)
Lemma construct_at_end_full this v b bytes xs (x : T)
    (hp : list (block T)) (os : list vector) (tr : list event) :
  os !! this = Some v ->
  m_count v = Z.of_nat (length xs) ->
  m_data_ptr v = Some b ->
  hp !! b = Some {| blk_bytes := bytes;
                    blk_cells := (Obj <$> xs) ++ replicate 0 Raw;
                    blk_freed := false |} ->
  construct_at_end this x {| heap := hp; objs := os; trace := tr |} = Undefined.
Proof.
  intros Hv Hn Hp Hb. unfold construct_at_end.
  rewrite (bind_eval _ _ _ _ _ (get_data_ptr_eval _ _ _ _ _ Hv)).
  rewrite (bind_eval _ _ _ _ _ (get_count_eval _ _ _ _ _ Hv)).
  rewrite Hp. unfold bind at 1. rewrite placement_new_outside; [reflexivity |].
  rewrite (cell_at_eval _ _ _ _ _ _ Hb eq_refl) by lia.
  cbn [blk_cells]. simpl replicate. rewrite app_nil_r.
  apply lookup_ge_None_2. rewrite length_fmap. lia.
Qed.

Lemma construct_at_end_null this v (x : T)
    (hp : list (block T)) (os : list vector) (tr : list event) :
  os !! this = Some v ->
  m_data_ptr v = None ->
  construct_at_end this x {| heap := hp; objs := os; trace := tr |} = Undefined.
Proof.
  intros Hv Hp. unfold construct_at_end.
  rewrite (bind_eval _ _ _ _ _ (get_data_ptr_eval _ _ _ _ _ Hv)).
  rewrite (bind_eval _ _ _ _ _ (get_count_eval _ _ _ _ _ Hv)).
  rewrite Hp. reflexivity.
Qed.

(** ** The capacities of a vector that started empty *)

Lemma capacity_after_ge (k : nat) : Z.of_nat k <= capacity_after k.
Proof.
  destruct k as [|k]; [reflexivity |]. unfold capacity_after.
  destruct (Z.eq_dec (Z.of_nat (S k)) 1) as [-> | Hk]; [reflexivity |].
  apply Z.log2_up_spec. lia.
Qed.

Lemma capacity_after_one : capacity_after 1 = 1.
Proof. reflexivity. Qed.

Lemma capacity_after_keep (k : nat) :
  Z.of_nat k < capacity_after k -> capacity_after (S k) = capacity_after k.
Proof.
  destruct k as [|k]; [simpl; lia |]. unfold capacity_after. intros Hlt.
  f_equal.
  assert (Hk : 1 < Z.of_nat (S k)).
  { destruct (Z.eq_dec (Z.of_nat (S k)) 1) as [E | E]; [| lia].
    rewrite E in Hlt. vm_compute in Hlt. discriminate. }
  pose proof (Z.log2_up_spec _ Hk) as [Hlo Hhi].
  apply Z.log2_up_unique.
  - apply Z.log2_up_pos. lia.
  - lia.
Qed.

Lemma capacity_after_double (k : nat) :
  (0 < k)%nat -> Z.of_nat k = capacity_after k ->
  capacity_after (S k) = 2 * capacity_after k.
Proof.
  destruct k as [|k]; [lia |]. unfold capacity_after. intros _ Heq.
  pose proof (Z.log2_up_nonneg (Z.of_nat (S k))) as Hj.
  rewrite <- Z.pow_succ_r by exact Hj. f_equal.
  apply Z.log2_up_unique; [lia |].
  rewrite Z.pred_succ, Z.pow_succ_r by exact Hj.
  assert (0 < 2 ^ Z.log2_up (Z.of_nat (S k))) by (apply Z.pow_pos_nonneg; lia).
  lia.
Qed.

Lemma capacity_after_mono (k : nat) : capacity_after k <= capacity_after (S k).
Proof.
  destruct k as [|k]; [rewrite capacity_after_one; simpl; lia |].
  pose proof (capacity_after_ge (S k)) as Hge.
  destruct (Z.eq_dec (Z.of_nat (S k)) (capacity_after (S k))) as [E | E].
  - rewrite (capacity_after_double (S k)) by (try exact E; lia). lia.
  - rewrite (capacity_after_keep (S k)) by lia. lia.
Qed.

Lemma capacity_after_le (j k : nat) : (j <= k)%nat -> capacity_after j <= capacity_after k.
Proof.
  induction 1 as [|k Hle IH]; [lia |].
  pose proof (capacity_after_mono k). lia.
Qed.

Lemma capacity_after_limit (k : nat) :
  (0 < k)%nat ->
  capacity_after k <= 2 ^ (int_bits - 1) ->
  capacity_after k = 2 ^ (int_bits - 1) \/ 2 * capacity_after k <= 2 ^ (int_bits - 1).
Proof.
  destruct k as [|k]; [lia |]. unfold capacity_after. intros _ Hle.
  pose proof (Z.log2_up_nonneg (Z.of_nat (S k))) as Hj.
  pose proof int_bits_pos as Hi.
  apply Z.pow_le_mono_r_iff in Hle; [| lia | lia].
  destruct (Z.eq_dec (Z.log2_up (Z.of_nat (S k))) (int_bits - 1)) as [-> | Hne].
  - now left.
  - right. rewrite <- Z.pow_succ_r by exact Hj.
    apply Z.pow_le_mono_r; lia.
Qed.

Lemma grown_capacity_zero : grown_capacity 0 = 1.
Proof. reflexivity. Qed.

Lemma grown_capacity_double cap :
  0 < cap -> 2 * cap < 2 ^ size_bits -> grown_capacity cap = 2 * cap.
Proof.
  intros Hpos Hlt. unfold grown_capacity.
  destruct (Z.eqb_spec cap 0); [lia |].
  rewrite to_size_t_small; lia.
Qed.

Lemma grown_slots_exact cap :
  0 <= grown_capacity cap ->
  grown_capacity cap * sizeof < 2 ^ size_bits ->
  grown_slots cap = Z.to_nat (grown_capacity cap).
Proof.
  intros Hpos Hlt. pose proof sizeof_pos as Hs. unfold grown_slots, grown_bytes.
  rewrite to_size_t_small by nia.
  now rewrite Z.div_mul by lia.
Qed.

Lemma loop_count_exact n : 0 <= n <= INT_MAX -> loop_count n = Z.to_nat n.
Proof. intros Hn. unfold loop_count. now rewrite loop_count_small. Qed.

(** At [2 ^ (int_bits - 1)] elements the count no longer fits an [int]: it
    becomes [INT_MIN], which the loop condition converts to
    [2 ^ size_bits - 2 ^ (int_bits - 1)]. *)
Lemma loop_count_limit :
  loop_count (2 ^ (int_bits - 1)) = Z.to_nat (2 ^ size_bits - 2 ^ (int_bits - 1)).
Proof.
  unfold loop_count, to_int, to_size_t. f_equal.
  pose proof pow2_int_double as Hd. pose proof pow2_int_half_pos as Hh.
  pose proof pow2_int_le_size as Hle.
  replace (2 ^ (int_bits - 1) + 2 ^ (int_bits - 1)) with (1 * 2 ^ int_bits) by lia.
  rewrite Z.mod_mul by lia.
  replace (0 - 2 ^ (int_bits - 1))
    with (2 ^ size_bits - 2 ^ (int_bits - 1) + (-1) * 2 ^ size_bits) by lia.
  rewrite Z.mod_add by lia.
  apply Z.mod_small. lia.
Qed.

(** A vector of [2 ^ (int_bits - 1)] elements that is full cannot grow. *)
Lemma reallocate_at_int_limit this v ob bytes_o xs r
    (hp : list (block T)) (os : list vector) (tr : list event) m' :
  os !! this = Some v ->
  m_count v = Z.of_nat (length xs) ->
  m_count v = 2 ^ (int_bits - 1) ->
  m_capacity v = 2 ^ (int_bits - 1) ->
  m_data_ptr v = Some ob ->
  hp !! ob = Some {| blk_bytes := bytes_o;
                     blk_cells := (Obj <$> xs) ++ replicate r Raw;
                     blk_freed := false |} ->
  reallocate malloc_grants this {| heap := hp; objs := os; trace := tr |} <> Normal tt m'.
Proof.
  intros Hv Hn Hcount Hcap Hp Hob.
  pose proof pow2_int_double as Hd. pose proof pow2_int_half_pos as Hh.
  pose proof pow2_int_le_size as Hle. pose proof int_bits_le as Hbits.
  pose proof int_bits_pos as Hipos.
  destruct (malloc_grants {| heap := hp; objs := os; trace := tr |}
              (grown_bytes (m_capacity v))) eqn:Hgrant; cycle 1.
  { rewrite (reallocate_refused this v); [discriminate | exact Hv | exact Hgrant]. }
  destruct (Z.eq_dec int_bits size_bits) as [Hsame | Hdiff].
  - rewrite (reallocate_eval this v ob bytes_o xs r); try assumption.
    + destruct (decide _) as [Hroom | _]; [| discriminate].
      exfalso. revert Hroom. unfold grown_slots, grown_bytes, grown_capacity.
      rewrite Hcap. destruct (Z.eqb_spec (2 ^ (int_bits - 1)) 0); [lia |].
      replace (2 ^ (int_bits - 1) * 2) with (1 * 2 ^ size_bits)
        by (rewrite <- Hsame; lia).
      unfold to_size_t at 2. rewrite Z.mod_mul by lia.
      rewrite Z.mul_0_l. unfold to_size_t. rewrite Z.mod_0_l by lia.
      rewrite Z.div_0_l by (pose proof sizeof_pos; lia).
      simpl. lia.
    + rewrite Hcount, loop_count_limit, <- Hsame.
      replace (2 ^ int_bits - 2 ^ (int_bits - 1)) with (2 ^ (int_bits - 1)) by lia.
      rewrite <- Hcount, Hn. apply Nat2Z.id.
  - rewrite (reallocate_overrun this v ob bytes_o xs r); try assumption; [discriminate |].
    rewrite Hcount, loop_count_limit.
    assert (2 * 2 ^ int_bits <= 2 ^ size_bits).
    { rewrite <- Z.pow_succ_r by lia. apply Z.pow_le_mono_r; lia. }
    lia.
Qed.

(** ** Insertions into a vector that started empty *)

Lemma from_empty_intro this b bytes (xs : list T) r v'
    (hp : list (block T)) (os : list vector) (tr : list event) :
  (this < length os)%nat ->
  (b < length hp)%nat ->
  m_count v' = Z.of_nat (length xs) ->
  m_data_ptr v' = Some b ->
  m_capacity v' = capacity_after (length xs) ->
  xs <> [] ->
  capacity_after (length xs) <= 2 ^ (int_bits - 1) ->
  (capacity_after (length xs) * sizeof < 2 ^ size_bits ->
   Z.of_nat (length xs + r) = capacity_after (length xs)) ->
  from_empty
    {| heap := <[b := {| blk_bytes := bytes;
                         blk_cells := (Obj <$> xs) ++ replicate r Raw;
                         blk_freed := false |}]> hp;
       objs := <[this := v']> os;
       trace := tr |}
    this xs.
Proof.
  intros Hthis Hb Hn Hp Hcap Hne Hlim Hslots.
  exists v', r. repeat split; try assumption.
  - simpl. now apply list_lookup_insert_eq.
  - unfold stores. rewrite Hp. exists bytes. simpl. now apply list_lookup_insert_eq.
  - intros ->. congruence.
Qed.

Lemma push_back_from_empty this (xs : list T) (x : T) (m : mem T) :
  from_empty m this xs ->
  (forall m', push_back malloc_grants this x m = Normal tt m' ->
              from_empty m' this (xs ++ [x]))
  /\ ((forall m0 bytes, malloc_grants m0 bytes = true) ->
      capacity_after (S (length xs)) * sizeof < 2 ^ size_bits ->
      capacity_after (S (length xs)) <= 2 ^ (int_bits - 1) ->
      exists m', push_back malloc_grants this x m = Normal tt m').
Proof.
  destruct m as [hp os tr].
  intros (v & r & (Hv & Hn & Hst) & Hcap & Hnull & Hbound & Hslots). simpl in Hv.
  pose proof pow2_int_double as Hd. pose proof pow2_int_half_pos as Hh.
  pose proof pow2_int_le_size as Hle. pose proof sizeof_pos as Hs.
  pose proof (capacity_after_ge (length xs)) as Hge.
  pose proof (capacity_after_mono (length xs)) as Hmono.
  assert (Hthis : (this < length os)%nat) by now apply lookup_lt_Some in Hv.
  assert (Hlen : length (xs ++ [x]) = S (length xs))
    by (rewrite length_app; simpl; lia).
  assert (Hne : xs ++ [x] <> []) by now destruct xs.
  rewrite (push_back_unfold this x v _ _ _ Hv).
  destruct (Z.eqb_spec (m_count v) (m_capacity v)) as [Hfull | Hroom].
  - (* the vector is full and grows *)
    destruct (m_data_ptr v) as [ob|] eqn:Hp; simpl in Hst.
    + destruct Hst as [bytes_o Hob].
      assert (Hk : (0 < length xs)%nat).
      { destruct xs; [specialize (Hnull eq_refl); congruence | simpl; lia]. }
      pose proof (capacity_after_double _ Hk ltac:(lia)) as Hdouble.
      destruct (capacity_after_limit _ Hk Hbound) as [Hlim | Hsmall].
      * split.
        -- intros m' Hrun. apply bind_Normal in Hrun as ([] & m1 & Hre & _).
           exfalso. revert Hre.
           apply (reallocate_at_int_limit this v ob bytes_o xs r); try assumption; lia.
        -- intros _ _ Hb2. lia.
      * assert (Hloop : loop_count (m_count v) = length xs).
        { rewrite loop_count_exact by (unfold INT_MAX; lia).
          rewrite Hn. apply Nat2Z.id. }
        assert (Hgc : grown_capacity (m_capacity v) = capacity_after (S (length xs))).
        { rewrite grown_capacity_double; lia. }
        destruct (malloc_grants {| heap := hp; objs := os; trace := tr |}
                    (grown_bytes (m_capacity v))) eqn:Hgrant; cycle 1.
        { unfold bind.
          rewrite (reallocate_refused this v) by assumption.
          split; [discriminate |]. intros Hall. now rewrite Hall in Hgrant. }
        unfold bind.
        rewrite (reallocate_eval this v ob bytes_o xs r) by assumption.
        cbv beta iota.
        assert (Hexact : capacity_after (S (length xs)) * sizeof < 2 ^ size_bits ->
                         grown_slots (m_capacity v)
                         = Z.to_nat (capacity_after (S (length xs)))).
        { intros Hfit. rewrite grown_slots_exact; rewrite Hgc; [reflexivity | lia | lia]. }
        destruct (decide (length xs <= grown_slots (m_capacity v))%nat) as [Hfit | Hnofit];
          cycle 1.
        { split; [discriminate |]. intros _ Hb1 _. specialize (Hexact Hb1). lia. }
        cbv beta iota.
        destruct (grown_slots (m_capacity v) - length xs)%nat as [|r'] eqn:Hr'.
        { erewrite construct_at_end_full; cycle 1.
          - apply (lookup_insert_same _ _ _ _ Hv).
          - exact Hn.
          - reflexivity.
          - now rewrite list_lookup_middle by (rewrite length_insert; reflexivity).
          - split; [discriminate |]. intros _ Hb1 _. specialize (Hexact Hb1). lia. }
        erewrite construct_at_end_eval; cycle 1.
        { apply (lookup_insert_same _ _ _ _ Hv). }
        { exact Hn. }
        { reflexivity. }
        { now rewrite list_lookup_middle by (rewrite length_insert; reflexivity). }
        split; [| intros; eexists; reflexivity].
        intros m' Hrun. injection Hrun as <-.
        apply (from_empty_intro this _ _ (xs ++ [x]) r'); try assumption.
        -- now rewrite length_insert.
        -- rewrite length_app, length_insert. simpl. lia.
        -- cbn [m_count]. rewrite Hlen, to_size_t_small; lia.
        -- reflexivity.
        -- cbn [m_capacity]. now rewrite Hlen.
        -- rewrite Hlen. lia.
        -- rewrite Hlen. intros Hb1. specialize (Hexact Hb1). lia.
    + destruct Hst as [-> ->]. simpl in Hn, Hcap, Hlen. simpl length in *.
      destruct (malloc_grants {| heap := hp; objs := os; trace := tr |}
                  (grown_bytes (m_capacity v))) eqn:Hgrant; cycle 1.
      { unfold bind.
        rewrite (reallocate_refused this v) by assumption.
        split; [discriminate |]. intros Hall. now rewrite Hall in Hgrant. }
      unfold bind.
      rewrite (reallocate_eval_null this v) by assumption.
      cbv beta iota.
      assert (Hexact : capacity_after 1 * sizeof < 2 ^ size_bits ->
                       grown_slots (m_capacity v) = 1%nat).
      { intros Hfit. rewrite Hcap.
        rewrite grown_slots_exact; rewrite grown_capacity_zero; [reflexivity | lia |].
        now rewrite capacity_after_one in Hfit. }
      destruct (grown_slots (m_capacity v)) as [|r'] eqn:Hr'.
      { erewrite (construct_at_end_full this _ (length hp) _ []); cycle 1.
        - apply (lookup_insert_same _ _ _ _ Hv).
        - reflexivity.
        - reflexivity.
        - now rewrite list_lookup_middle.
        - split; [discriminate |]. intros _ Hb1 _. specialize (Hexact Hb1). lia. }
      erewrite (construct_at_end_eval this _ (length hp) _ [] r'); cycle 1.
      { apply (lookup_insert_same _ _ _ _ Hv). }
      { reflexivity. }
      { reflexivity. }
      { now rewrite list_lookup_middle. }
      split; [| intros; eexists; reflexivity].
      intros m' Hrun. injection Hrun as <-.
      apply (from_empty_intro this (length hp) _ ([] ++ [x]) r'); try assumption.
      -- now rewrite length_insert.
      -- rewrite length_app. simpl. lia.
      -- cbn [m_count]. simpl. rewrite to_size_t_small; lia.
      -- reflexivity.
      -- cbn [m_capacity]. rewrite Hcap. reflexivity.
      -- simpl length. rewrite capacity_after_one. lia.
      -- simpl length. intros Hb1. specialize (Hexact Hb1).
         rewrite capacity_after_one. lia.
  - (* the vector has room *)
    unfold bind, ret. cbv beta iota.
    destruct (m_data_ptr v) as [b|] eqn:Hp; simpl in Hst.
    + destruct Hst as [bytes Hb].
      assert (Hblen : (b < length hp)%nat) by now apply lookup_lt_Some in Hb.
      assert (Hkeep : capacity_after (S (length xs)) = capacity_after (length xs))
        by (apply capacity_after_keep; lia).
      destruct r as [|r'].
      { rewrite (construct_at_end_full this v b bytes xs) by assumption.
        split; [discriminate |]. intros _ Hb1 _.
        rewrite Hkeep in Hb1. specialize (Hslots Hb1). lia. }
      rewrite (construct_at_end_eval this v b bytes xs r') by assumption.
      split; [| intros; eexists; reflexivity].
      intros m' Hrun. injection Hrun as <-.
      apply (from_empty_intro this _ _ (xs ++ [x]) r'); try assumption.
      -- cbn [m_count]. rewrite Hlen, to_size_t_small; lia.
      -- reflexivity.
      -- cbn [m_capacity]. rewrite Hlen. lia.
      -- rewrite Hlen. lia.
      -- rewrite Hlen, Hkeep. intros Hb1. specialize (Hslots Hb1). lia.
    + destruct Hst as [-> ->]. simpl in Hn, Hcap. lia.
Qed.

Lemma bind_assoc {A B C} (c : M T A) (k : A -> M T B) (k' : B -> M T C) m :
  bind (bind c k) k' m = bind c (fun a => bind (k a) k') m.
Proof. unfold bind. now destruct (c m). Qed.

Lemma bind_ext {A B} (c : M T A) (k k' : A -> M T B) m :
  (forall a m', k a m' = k' a m') -> bind c k m = bind c k' m.
Proof. intros Hk. unfold bind. destruct (c m); [apply Hk | reflexivity ..]. Qed.

Lemma insert_all_app this (ops1 ops2 : list (@insertion T Args)) m :
  insert_all malloc_grants construct this (ops1 ++ ops2) m
  = (insert_all malloc_grants construct this ops1 ;;
     insert_all malloc_grants construct this ops2) m.
Proof.
  revert m. induction ops1 as [|op ops1 IH]; intros m; [reflexivity |].
  simpl. rewrite bind_assoc. apply bind_ext. intros _ m'. apply IH.
Qed.

Lemma new_vector_eval (hp : list (block T)) (os : list vector) (tr : list event) :
  new_vector {| heap := hp; objs := os; trace := tr |}
  = Normal (length os)
      {| heap := hp;
         objs := os ++ [{| m_count := 0; m_capacity := 0; m_data_ptr := None |}];
         trace := tr |}.
Proof.
  unfold new_vector, declare, vector_default. unfold bind at 1. cbn [objs heap trace].
  erewrite bind_eval; cycle 1.
  { eapply reset_eval. now apply list_lookup_middle. }
  unfold ret. f_equal. f_equal.
  apply list_insert_id. now apply list_lookup_middle.
Qed.

Lemma from_empty_new (hp : list (block T)) (os : list vector) (tr : list event) :
  from_empty
    {| heap := hp;
       objs := os ++ [{| m_count := 0; m_capacity := 0; m_data_ptr := None |}];
       trace := tr |}
    (length os) [].
Proof.
  exists {| m_count := 0; m_capacity := 0; m_data_ptr := None |}, 0%nat.
  pose proof pow2_int_half_pos.
  repeat split; simpl; try lia.
  now apply list_lookup_middle.
Qed.

Lemma insert_all_from_empty this (ops : list (@insertion T Args)) :
  forall (xs : list T) (m : mem T),
  from_empty m this xs ->
  (forall m', insert_all malloc_grants construct this ops m = Normal tt m' ->
              from_empty m' this (xs ++ (inserted construct <$> ops)))
  /\ ((forall m0 bytes, malloc_grants m0 bytes = true) ->
      capacity_after (length xs + length ops) * sizeof < 2 ^ size_bits ->
      capacity_after (length xs + length ops) <= 2 ^ (int_bits - 1) ->
      exists m', insert_all malloc_grants construct this ops m = Normal tt m').
Proof.
  induction ops as [|op ops IH]; intros xs m Hinv.
  - split.
    + intros m' Hrun. injection Hrun as <-. now rewrite app_nil_r.
    + intros _ _ _. now exists m.
  - pose proof sizeof_pos as Hs.
    destruct (push_back_from_empty this xs (inserted construct op) m Hinv)
      as [Hstep Htotal].
    cbn [insert_all]. rewrite insert_push_back. split.
    + intros m' Hrun. apply bind_Normal in Hrun as ([] & m1 & Hop & Hrest).
      specialize (Hstep _ Hop).
      destruct (IH _ _ Hstep) as [Hafter _].
      specialize (Hafter _ Hrest).
      now rewrite <- app_assoc in Hafter.
    + intros Hall Hb1 Hb2. simpl length in Hb1, Hb2.
      assert (Hmono : capacity_after (S (length xs))
                      <= capacity_after (length xs + S (length ops)))
        by (apply capacity_after_le; lia).
      pose proof (capacity_after_ge (S (length xs))) as Hge.
      destruct (Htotal Hall) as [m1 Hop]; [nia | lia |].
      destruct (IH _ _ (Hstep _ Hop)) as [_ Hrest].
      rewrite length_app in Hrest. simpl length in Hrest.
      replace (length xs + 1 + length ops)%nat
        with (length xs + S (length ops))%nat in Hrest by lia.
      destruct (Hrest Hall Hb1 Hb2) as [m' Hm'].
      exists m'. now rewrite (bind_eval _ _ _ _ _ Hop).
Qed.

(** What [size()], [capacity()] and [operator[]] return on such a vector. *)
Lemma from_empty_size this (xs : list T) (m : mem T) :
  from_empty m this xs -> size this m = Normal (Z.of_nat (length xs)) m.
Proof.
  destruct m as [hp os tr]. intros (v & r & (Hv & Hn & _) & _).
  unfold size. simpl in Hv. now rewrite (get_count_eval _ _ _ _ _ Hv), Hn.
Qed.

Lemma from_empty_capacity this (xs : list T) (m : mem T) :
  from_empty m this xs -> capacity this m = Normal (capacity_after (length xs)) m.
Proof.
  destruct m as [hp os tr]. intros (v & r & (Hv & _ & _) & Hcap & _).
  unfold capacity. simpl in Hv. now rewrite (get_capacity_eval _ _ _ _ _ Hv), Hcap.
Qed.


Lemma run_from_empty (ops : list (@insertion T Args)) (m0 : mem T) :
  (forall this m,
     run malloc_grants construct ops m0 = Normal this m ->
     this = length (objs m0) /\ from_empty m this (inserted construct <$> ops))
  /\ ((forall m bytes, malloc_grants m bytes = true) ->
      capacity_after (length ops) * sizeof < 2 ^ size_bits ->
      capacity_after (length ops) <= 2 ^ (int_bits - 1) ->
      exists m, run malloc_grants construct ops m0 = Normal (length (objs m0)) m).
Proof.
  destruct m0 as [hp os tr]. unfold run.
  rewrite (bind_eval _ _ _ _ _ (new_vector_eval hp os tr)).
  destruct (insert_all_from_empty (length os) ops [] _ (from_empty_new hp os tr))
    as [Hafter Htotal].
  split.
  - intros this m Hrun. apply bind_Normal in Hrun as ([] & m1 & Hops & Hret).
    injection Hret as <- <-. split; [reflexivity |]. now apply Hafter.
  - intros Hall Hb1 Hb2. destruct (Htotal Hall Hb1 Hb2) as [m Hm].
    exists m. now rewrite (bind_eval _ _ _ _ _ Hm).
Qed.

(** A run that returns has returned after each of its insertions. *)
Lemma run_prefix (ops : list (@insertion T Args)) (m0 : mem T) this m (k : nat) :
  run malloc_grants construct ops m0 = Normal this m ->
  exists mk, run malloc_grants construct (take k ops) m0 = Normal this mk.
Proof.
  destruct m0 as [hp os tr]. unfold run.
  rewrite !(bind_eval _ _ _ _ _ (new_vector_eval hp os tr)).
  rewrite <- (take_drop k ops) at 1.
  intros Hrun. apply bind_Normal in Hrun as ([] & m1 & Hops & Hret).
  injection Hret as <- <-.
  rewrite insert_all_app in Hops.
  apply bind_Normal in Hops as ([] & mk & Hk & _).
  exists mk. now rewrite (bind_eval _ _ _ _ _ Hk).
Qed.

Lemma inserted_push_back (items : list T) :
  inserted construct <$> (PushBack <$> items) = items.
Proof.
  induction items as [|x items IH]; [reflexivity |].
  rewrite !fmap_cons. simpl inserted. now rewrite IH.
Qed.

(** ** Sequences of push_back *)


(** The helpers take the element count as an [int]: a vector that started
    empty cannot be pushed past [2 ^ (int_bits - 1)] elements, because the
    growth step that would make room for the next one does not return. *)
Lemma push_all_beyond_int_limit (items : list T) (m0 : mem T) :
  2 ^ (int_bits - 1) < Z.of_nat (length items) ->
  returns (push_all malloc_grants construct items m0) = false.
Proof.
  intros Hlong.
  destruct (push_all malloc_grants construct items m0) as [this m | |] eqn:Hrun;
    try reflexivity.
  exfalso.
  destruct (run_from_empty (PushBack <$> items) m0) as [Hinv _].
  destruct (Hinv this m Hrun) as [_ (v & r & _ & _ & _ & Hbound & _)].
  rewrite inserted_push_back in Hbound.
  pose proof (capacity_after_ge (length items)). lia.
Qed.

(** ** The capacities a growing vector goes through *)

(** C5.  Take any insertions ([push_back] or [emplace_back]) and any initial
    state, and apply them to a default-constructed vector.  If the calls
    return, then for every [k] below their number: before the [(k+1)]-th
    insertion [size()] is [k]; after it [capacity()] is the least power of two
    that is at least [k + 1], so that the capacities are 1, 2, 4, 8, 16, ...;
    the insertion leaves [capacity()] as it was unless it found [size()] equal
    to [capacity()], and then makes it [1] if it was [0] and twice what it was
    otherwise. *)
Theorem capacity_sequence (ops : list (@insertion T Args)) (m0 : mem T) this m :
  run malloc_grants construct ops m0 = Normal this m ->
  forall k : nat, (k < length ops)%nat ->
    exists mk mk' c c',
      run malloc_grants construct (take k ops) m0 = Normal this mk
      /\ run malloc_grants construct (take (S k) ops) m0 = Normal this mk'
      /\ size this mk = Normal (Z.of_nat k) mk
      /\ capacity this mk = Normal c mk
      /\ capacity this mk' = Normal c' mk'
      /\ c' = 2 ^ Z.log2_up (Z.of_nat (S k))
      /\ (Z.of_nat k <> c -> c' = c)
      /\ (Z.of_nat k = c -> c' = if c =? 0 then 1 else 2 * c).
Proof.
  intros Hrun k Hk.
  destruct (run_prefix _ _ _ _ k Hrun) as [mk Hmk].
  destruct (run_prefix _ _ _ _ (S k) Hrun) as [mk' Hmk'].
  destruct (run_from_empty (take k ops) m0) as [Hinv _].
  destruct (Hinv _ _ Hmk) as [_ Hfrom].
  destruct (run_from_empty (take (S k) ops) m0) as [Hinv' _].
  destruct (Hinv' _ _ Hmk') as [_ Hfrom'].
  assert (Hlen : length (inserted construct <$> take k ops) = k)
    by (rewrite length_fmap, length_take; lia).
  assert (Hlen' : length (inserted construct <$> take (S k) ops) = S k)
    by (rewrite length_fmap, length_take; lia).
  exists mk, mk', (capacity_after k), (capacity_after (S k)).
  pose proof (capacity_after_ge k) as Hge.
  repeat split; try assumption.
  - rewrite (from_empty_size _ _ _ Hfrom). now rewrite Hlen.
  - rewrite (from_empty_capacity _ _ _ Hfrom). now rewrite Hlen.
  - rewrite (from_empty_capacity _ _ _ Hfrom'). now rewrite Hlen'.
  - intros Hne. apply capacity_after_keep. lia.
  - intros Heq. destruct k as [|k]; [reflexivity |].
    rewrite capacity_after_double by (try exact Heq; lia).
    destruct (Z.eqb_spec (capacity_after (S k)) 0); [lia | reflexivity].
Qed.

(** ** What a growth step does to the old storage *)



(** ** What the heap operations leave alone *)

Lemma objs_set_cell b i (c : slot T) (m : mem T) : objs (set_cell b i c m) = objs m.
Proof. unfold set_cell. now destruct (heap m !! b). Qed.

Lemma shapes_set_cell b i (c : slot T) (m : mem T) : shapes (set_cell b i c m) = shapes m.
Proof.
  unfold set_cell, shapes. destruct (heap m !! b) as [blk|] eqn:Hb; [| reflexivity].
  simpl. rewrite list_fmap_insert. apply list_insert_id.
  rewrite list_lookup_fmap, Hb. simpl. now rewrite length_insert.
Qed.

Lemma keeps_objs_ret {A} (a : A) : keeps_objs (@ret T A a).
Proof. intros m a' m' [= _ <-]. reflexivity. Qed.

Lemma keeps_objs_bind {A B} (c : M T A) (k : A -> M T B) :
  keeps_objs c -> (forall a, keeps_objs (k a)) -> keeps_objs (bind c k).
Proof.
  intros Hc Hk m b m'' Hrun. apply bind_Normal in Hrun as (a & m' & Hc' & Hk').
  rewrite (Hk _ _ _ _ Hk'). now apply (Hc _ _ _ Hc').
Qed.

Lemma keeps_objs_get this : keeps_objs (@get T this).
Proof.
  intros m a m' Hrun. unfold get in Hrun.
  destruct (objs m !! this); [| discriminate]. now injection Hrun as _ <-.
Qed.

Lemma keeps_shapes_ret {A} (a : A) : keeps_shapes (@ret T A a).
Proof. intros m a' m' [= _ <-]. reflexivity. Qed.

Lemma keeps_shapes_bind {A B} (c : M T A) (k : A -> M T B) :
  keeps_shapes c -> (forall a, keeps_shapes (k a)) -> keeps_shapes (bind c k).
Proof.
  intros Hc Hk m b m'' Hrun. apply bind_Normal in Hrun as (a & m' & Hc' & Hk').
  rewrite (Hk _ _ _ _ Hk'). now apply (Hc _ _ _ Hc').
Qed.

Lemma keeps_objs_allocate n : keeps_objs (allocate malloc_grants n).
Proof.
  intros [hp os tr] a m' Hrun. rewrite allocate_eval in Hrun.
  destruct (malloc_grants _ _); [| discriminate]. now injection Hrun as _ <-.
Qed.

Lemma keeps_objs_free p : keeps_objs (@free T p).
Proof.
  intros m a m' Hrun. unfold free in Hrun. destruct p as [b|].
  - destruct (live_block (Some b) m) as [[b' blk]|]; [| discriminate].
    inversion Hrun. reflexivity.
  - inversion Hrun. reflexivity.
Qed.

Lemma keeps_objs_copy_construct input i output :
  keeps_objs (@copy_construct T input i output).
Proof.
  intros m a m' Hrun. unfold copy_construct in Hrun.
  destruct (live_block input m) as [[sb bs]|]; [| discriminate].
  destruct (cell_at input i m) as [[|x]|]; try discriminate.
  destruct (live_block output m) as [[b blk]|]; [| discriminate].
  destruct (cell_at output i m); [| discriminate].
  inversion Hrun. simpl. apply objs_set_cell.
Qed.

Lemma keeps_shapes_copy_construct input i output :
  keeps_shapes (@copy_construct T input i output).
Proof.
  intros m a m' Hrun. unfold copy_construct in Hrun.
  destruct (live_block input m) as [[sb bs]|]; [| discriminate].
  destruct (cell_at input i m) as [[|x]|]; try discriminate.
  destruct (live_block output m) as [[b blk]|]; [| discriminate].
  destruct (cell_at output i m); [| discriminate].
  inversion Hrun. unfold log. apply (shapes_set_cell b i (Obj x) m).
Qed.

Lemma keeps_objs_copy_from input output n :
  forall i, keeps_objs (@copy_from T input output i n).
Proof.
  induction n as [|n IH]; intros i; simpl.
  - apply keeps_objs_ret.
  - apply keeps_objs_bind; [apply keeps_objs_copy_construct | intros _; apply IH].
Qed.

Lemma keeps_shapes_copy_from input output n :
  forall i, keeps_shapes (@copy_from T input output i n).
Proof.
  induction n as [|n IH]; intros i; simpl.
  - apply keeps_shapes_ret.
  - apply keeps_shapes_bind; [apply keeps_shapes_copy_construct | intros _; apply IH].
Qed.

Lemma keeps_objs_destroy_at p i : keeps_objs (@destroy_at T p i).
Proof.
  intros m a m' Hrun. unfold destroy_at in Hrun.
  destruct (live_block p m) as [[b blk]|]; [| discriminate].
  destruct (cell_at p i m) as [[|x]|]; try discriminate.
  inversion Hrun. simpl. apply objs_set_cell.
Qed.

Lemma keeps_objs_destroy_range p n : forall i, keeps_objs (@destroy_range T p i n).
Proof.
  induction n as [|n IH]; intros i; simpl.
  - apply keeps_objs_ret.
  - apply keeps_objs_bind; [apply keeps_objs_destroy_at | intros _; apply IH].
Qed.

Lemma keeps_objs_destroy this : keeps_objs (destroy (T := T) this).
Proof.
  unfold destroy, get_data_ptr, get_count, deallocate.
  repeat (first [ apply keeps_objs_bind | apply keeps_objs_ret | apply keeps_objs_get
                | apply keeps_objs_free | apply keeps_objs_destroy_range
                | progress intros | destruct trivially_destructible ]).
Qed.

(** ** Copy assignment records the source's size as the capacity *)

(** C9.  Take any copy assignment [v = w] that returns ([this] is [v], [other]
    is [w], and they may be the same object).  It returns [*this], and
    afterwards [v.capacity()] is [w.size()].  When [v]'s capacity before the
    assignment was strictly larger than [w.size()], [v] keeps its storage
    pointer, no block of the heap was allocated, released or resized, and the
    recorded capacity is now smaller than the capacity that the same storage
    was recorded with before. *)
Theorem copy_assign_sets_capacity_to_size
    (this other : nat) (v w : vector) (m m' : mem T) (result : nat) :
  objs m !! this = Some v ->
  objs m !! other = Some w ->
  copy_assign malloc_grants this other m = Normal result m' ->
  result = this
  /\ capacity this m' = Normal (m_count w) m'
  /\ size other m' = Normal (m_count w) m'
  /\ (m_count w < m_capacity v ->
      exists v',
        objs m' !! this = Some v'
        /\ m_data_ptr v' = m_data_ptr v
        /\ shapes m' = shapes m
        /\ m_capacity v' < m_capacity v).
Proof.
  intros Hv Hw Hrun. destruct m as [hp os tr]. simpl in Hv, Hw.
  unfold copy_assign in Hrun.
  rewrite (bind_eval _ _ _ _ _ (get_capacity_eval _ _ _ _ _ Hv)) in Hrun.
  rewrite (bind_eval _ _ _ _ _ (get_count_eval _ _ _ _ _ Hw)) in Hrun.
  apply bind_Normal in Hrun as ([] & m1 & Hif & Hrun).
  assert (Hm1 : exists p1,
             objs m1 = <[this := {| m_count := m_count v; m_capacity := m_capacity v;
                                    m_data_ptr := p1 |}]> os
             /\ (m_count w < m_capacity v ->
                 m1 = {| heap := hp; objs := os; trace := tr |} /\ p1 = m_data_ptr v)).
  { destruct (Z.ltb_spec (m_capacity v) (m_count w)) as [Hlt | Hge].
    - rewrite (bind_eval _ _ _ _ _ (get_count_eval _ _ _ _ _ Hw)) in Hif.
      apply bind_Normal in Hif as (p & ma & Ha & Hif).
      apply bind_Normal in Hif as ([] & mb & Hd & Hset).
      pose proof (keeps_objs_allocate _ _ _ _ Ha) as Hoa.
      pose proof (keeps_objs_destroy _ _ _ _ Hd) as Hob.
      destruct mb as [hpb osb trb]. simpl in Hoa, Hob.
      assert (Hvb : osb !! this = Some v) by congruence.
      rewrite (set_data_ptr_eval _ _ p _ _ _ Hvb) in Hset.
      inversion Hset; subst. exists p. split; [simpl; congruence | lia].
    - inversion Hif; subst. exists (m_data_ptr v). split; [| tauto].
      simpl. symmetry. apply list_insert_id. now destruct v. }
  destruct Hm1 as (p1 & Hos1 & Hreuse).
  assert (Hv1 : objs m1 !! this
                = Some {| m_count := m_count v; m_capacity := m_capacity v;
                          m_data_ptr := p1 |}).
  { rewrite Hos1. apply (lookup_insert_same _ _ _ _ Hv). }
  assert (Hw1 : exists w1, objs m1 !! other = Some w1 /\ m_count w1 = m_count w).
  { rewrite Hos1. destruct (decide (this = other)) as [<- | Hne].
    - eexists. split; [apply (lookup_insert_same _ _ _ _ Hv) |]. simpl. congruence.
    - exists w. now rewrite list_lookup_insert_ne. }
  destruct Hw1 as (w1 & Hw1 & Hcw).
  destruct m1 as [hp1 os1 tr1]. simpl in Hos1, Hv1, Hw1.
  rewrite (bind_eval _ _ _ _ _ (get_data_ptr_eval _ _ _ _ _ Hw1)) in Hrun.
  rewrite (bind_eval _ _ _ _ _ (get_count_eval _ _ _ _ _ Hw1)) in Hrun.
  rewrite (bind_eval _ _ _ _ _ (get_data_ptr_eval _ _ _ _ _ Hv1)) in Hrun.
  apply bind_Normal in Hrun as ([] & mc & Hcopy & Hrun).
  unfold copy in Hcopy.
  pose proof (keeps_objs_copy_from _ _ _ _ _ _ _ Hcopy) as Hoc.
  pose proof (keeps_shapes_copy_from _ _ _ _ _ _ _ Hcopy) as Hsc.
  destruct mc as [hpc osc trc]. simpl in Hoc. subst osc.
  unfold size in Hrun.
  rewrite (bind_eval _ _ _ _ _ (get_count_eval _ _ _ _ _ Hw1)) in Hrun.
  rewrite (bind_eval _ _ _ _ _ (get_count_eval _ _ _ _ _ Hw1)) in Hrun.
  rewrite (bind_eval _ _ _ _ _ (get_data_ptr_eval _ _ _ _ _ Hv1)) in Hrun.
  rewrite (bind_eval _ _ _ _ _ (init_eval _ _ _ _ _ _ _ _ Hv1)) in Hrun.
  inversion Hrun; subst result m'. clear Hrun.
  split; [reflexivity |]. split; [| split].
  - unfold capacity.
    rewrite (get_capacity_eval _ _ _ _ _ (lookup_insert_same _ _ _ _ Hv1)).
    simpl. now rewrite Hcw.
  - unfold size. destruct (decide (this = other)) as [<- | Hne].
    + rewrite (get_count_eval _ _ _ _ _ (lookup_insert_same _ _ _ _ Hv1)).
      simpl. now rewrite Hcw.
    + erewrite get_count_eval by (rewrite list_lookup_insert_ne by exact Hne; exact Hw1).
      now rewrite Hcw.
  - intros Hlt. destruct (Hreuse Hlt) as [Hm1 ->]. inversion Hm1; subst.
    eexists. split; [simpl; eapply lookup_insert_same; eassumption |].
    split; [reflexivity |]. split; [exact Hsc |]. simpl. lia.
Qed.

(** ** Copy construction *)




(** ** The footprint of the operations *)

Lemma touches_only_refl P (m : mem T) : touches_only P m m.
Proof. split; [lia | reflexivity]. Qed.

Lemma touches_only_trans (P : nat -> Prop) (m1 m2 m3 : mem T) :
  touches_only P m1 m2 -> touches_only P m2 m3 -> touches_only P m1 m3.
Proof.
  intros [Hl12 H12] [Hl23 H23]. split; [lia |].
  intros p Hp HP. rewrite H23 by (try assumption; lia). now apply H12.
Qed.

Lemma touches_only_weaken (P Q : nat -> Prop) (m m' : mem T) :
  (forall p, (p < length (heap m))%nat -> P p -> Q p) ->
  touches_only P m m' -> touches_only Q m m'.
Proof.
  intros HPQ [Hl Hsame]. split; [exact Hl |].
  intros p Hp HQ. apply Hsame; [exact Hp |]. intros HP. apply HQ. now apply HPQ.
Qed.

Lemma touches_only_set_cell b i (c : slot T) (m : mem T) :
  touches_only (fun q => q = b) m (set_cell b i c m).
Proof.
  unfold set_cell. destruct (heap m !! b); [| apply touches_only_refl].
  split; simpl.
  - now rewrite length_insert.
  - intros p _ Hne. apply list_lookup_insert_ne. congruence.
Qed.

Lemma touches_only_log P e (m m' : mem T) :
  touches_only P m m' -> touches_only P m (log e m').
Proof. intros Ht. exact Ht. Qed.

Lemma live_block_Some p (m : mem T) b blk :
  live_block p m = Some (b, blk) -> p = Some b.
Proof.
  unfold live_block. destruct p as [b'|]; [| discriminate].
  destruct (heap m !! b') as [blk'|]; [| discriminate].
  destruct (blk_freed blk'); [discriminate |]. now intros [= -> _].
Qed.

Lemma placement_new_footprint p i (x : T) (m m' : mem T) :
  placement_new p i x m = Normal tt m' ->
  objs m' = objs m /\ touches_only (fun q => p = Some q) m m'.
Proof.
  unfold placement_new. destruct (live_block p m) as [[b blk]|] eqn:Hb; [| discriminate].
  destruct (cell_at p i m); [| discriminate].
  intros [= <-]. apply live_block_Some in Hb as ->. split.
  - apply objs_set_cell.
  - apply touches_only_log.
    eapply touches_only_weaken; [| apply (touches_only_set_cell b i (Obj x) m)].
    intros q _ ->. reflexivity.
Qed.

Lemma store_footprint p i (x : T) (m m' : mem T) :
  store (p, i) x m = Normal tt m' ->
  objs m' = objs m /\ touches_only (fun q => p = Some q) m m'.
Proof.
  unfold store. cbn [fst snd].
  destruct (live_block p m) as [[b blk]|] eqn:Hb; [| discriminate].
  destruct (cell_at p i m) as [[|y]|]; try discriminate.
  intros [= <-]. apply live_block_Some in Hb as ->. split.
  - apply objs_set_cell.
  - eapply touches_only_weaken; [| apply (touches_only_set_cell b i (Obj x) m)].
    intros q _ ->. reflexivity.
Qed.

Lemma free_footprint p (m m' : mem T) :
  free p m = Normal tt m' ->
  objs m' = objs m /\ touches_only (fun q => p = Some q) m m'.
Proof.
  unfold free. destruct p as [b|].
  - destruct (live_block (Some b) m) as [[b' blk]|] eqn:Hb; [| discriminate].
    intros [= <-]. apply live_block_Some in Hb as [= ->]. split; [reflexivity |].
    split; simpl.
    + now rewrite length_insert.
    + intros q _ Hne. apply list_lookup_insert_ne. congruence.
  - intros [= <-]. split; [reflexivity | apply touches_only_log, touches_only_refl].
Qed.

Lemma move_construct_footprint input i output (m m' : mem T) :
  move_construct input i output m = Normal tt m' ->
  objs m' = objs m
  /\ touches_only (fun q => input = Some q \/ output = Some q) m m'.
Proof.
  unfold move_construct.
  destruct (live_block input m) as [[sb bs]|] eqn:Hs; [| discriminate].
  destruct (cell_at input i m) as [[|x]|]; try discriminate.
  destruct (live_block output m) as [[b blk]|] eqn:Hb; [| discriminate].
  destruct (cell_at output i m); [| discriminate].
  intros [= <-]. apply live_block_Some in Hs as ->. apply live_block_Some in Hb as ->.
  split.
  - simpl. now rewrite !objs_set_cell.
  - apply touches_only_log.
    apply (touches_only_trans _ _ (set_cell sb i (Obj (moved_from x)) m)).
    + eapply touches_only_weaken; [| apply touches_only_set_cell].
      intros q _ ->. now left.
    + eapply touches_only_weaken;
        [| apply (touches_only_set_cell b i (Obj x) (set_cell sb i (Obj (moved_from x)) m))].
      intros q _ ->. now right.
Qed.

Lemma move_from_footprint input output n :
  forall i (m m' : mem T),
  move_from input output i n m = Normal tt m' ->
  objs m' = objs m
  /\ touches_only (fun q => input = Some q \/ output = Some q) m m'.
Proof.
  induction n as [|n IH]; intros i m m' Hrun; simpl in Hrun.
  - injection Hrun as <-. split; [reflexivity | apply touches_only_refl].
  - apply bind_Normal in Hrun as ([] & m1 & Hstep & Hrest).
    apply move_construct_footprint in Hstep as [Ho1 Ht1].
    apply IH in Hrest as [Ho2 Ht2].
    split; [congruence |]. now apply (touches_only_trans _ _ m1).
Qed.

(** A growth step changes the vector's data members, releases its old
    storage and adds a block. *)
Lemma reallocate_footprint this va (m m' : mem T) :
  objs m !! this = Some va ->
  reallocate malloc_grants this m = Normal tt m' ->
  objs m' = <[this := {| m_count := m_count va;
                         m_capacity := grown_capacity (m_capacity va);
                         m_data_ptr := Some (length (heap m)) |}]> (objs m)
  /\ touches_only (fun q => m_data_ptr va = Some q) m m'.
Proof.
  destruct m as [hp os tr]. simpl. intros Hv Hrun. unfold reallocate in Hrun.
  rewrite (bind_eval _ _ _ _ _ (get_capacity_eval _ _ _ _ _ Hv)) in Hrun.
  apply bind_Normal in Hrun as (p & ma & Ha & Hrun).
  rewrite allocate_eval in Ha. destruct (malloc_grants _ _); [| discriminate].
  injection Ha as <- <-.
  rewrite (bind_eval _ _ _ _ _ (get_data_ptr_eval _ _ _ _ _ Hv)) in Hrun.
  rewrite (bind_eval _ _ _ _ _ (get_count_eval _ _ _ _ _ Hv)) in Hrun.
  apply bind_Normal in Hrun as ([] & mb & Hmove & Hrun).
  apply move_from_footprint in Hmove as [Hob Htb].
  destruct mb as [hpb osb trb]. simpl in Hob. subst osb.
  rewrite (bind_eval _ _ _ _ _ (get_data_ptr_eval _ _ _ _ _ Hv)) in Hrun.
  apply bind_Normal in Hrun as ([] & mc & Hfree & Hrun).
  apply free_footprint in Hfree as [Hoc Htc].
  destruct mc as [hpc osc trc]. simpl in Hoc. subst osc.
  rewrite (bind_eval _ _ _ _ _ (get_count_eval _ _ _ _ _ Hv)) in Hrun.
  rewrite (init_eval _ _ _ _ _ _ _ _ Hv) in Hrun.
  injection Hrun as <-. split; [reflexivity |].
  destruct Htb as [Hlb Hb], Htc as [Hlc Hc]. simpl in *.
  rewrite length_app in Hlb. simpl in Hlb.
  split; simpl; [lia |].
  intros q Hq Hne.
  rewrite Hc by (try assumption; lia).
  rewrite Hb.
  - now apply lookup_app_l.
  - rewrite length_app. simpl. lia.
  - intros [Hold | [= Hnew]]; [contradiction | lia].
Qed.

Lemma construct_at_end_footprint this va (x : T) (m m' : mem T) :
  objs m !! this = Some va ->
  construct_at_end this x m = Normal tt m' ->
  objs m' = <[this := {| m_count := to_size_t (m_count va + 1);
                         m_capacity := m_capacity va;
                         m_data_ptr := m_data_ptr va |}]> (objs m)
  /\ touches_only (fun q => m_data_ptr va = Some q) m m'.
Proof.
  destruct m as [hp os tr]. simpl. intros Hv Hrun. unfold construct_at_end in Hrun.
  rewrite (bind_eval _ _ _ _ _ (get_data_ptr_eval _ _ _ _ _ Hv)) in Hrun.
  rewrite (bind_eval _ _ _ _ _ (get_count_eval _ _ _ _ _ Hv)) in Hrun.
  apply bind_Normal in Hrun as ([] & ma & Hnew & Hrun).
  apply placement_new_footprint in Hnew as [Hoa Hta].
  destruct ma as [hpa osa tra]. simpl in Hoa. subst osa.
  rewrite (bind_eval _ _ _ _ _ (get_count_eval _ _ _ _ _ Hv)) in Hrun.
  rewrite (set_count_eval _ _ _ _ _ _ Hv) in Hrun.
  injection Hrun as <-. split; [reflexivity | exact Hta].
Qed.

Lemma mutate_footprint this va (mu : @mutation T Args) (m m' : mem T) :
  objs m !! this = Some va ->
  mutate malloc_grants construct this mu m = Normal tt m' ->
  exists va',
    objs m' = <[this := va']> (objs m)
    /\ touches_only (fun q => m_data_ptr va = Some q) m m'
    /\ (m_data_ptr va' = m_data_ptr va
        \/ exists nb, m_data_ptr va' = Some nb /\ (length (heap m) <= nb)%nat).
Proof.
  intros Hv Hrun.
  assert (Hpush : forall x,
             push_back malloc_grants this x m = Normal tt m' ->
             exists va',
               objs m' = <[this := va']> (objs m)
               /\ touches_only (fun q => m_data_ptr va = Some q) m m'
               /\ (m_data_ptr va' = m_data_ptr va
                   \/ exists nb, m_data_ptr va' = Some nb /\ (length (heap m) <= nb)%nat)).
  { clear Hrun. intros x Hrun. destruct m as [hp os tr]. simpl in Hv.
    rewrite (push_back_unfold this x va _ _ _ Hv) in Hrun.
    apply bind_Normal in Hrun as ([] & m1 & Hif & Hend).
    destruct (m_count va =? m_capacity va).
    - destruct (reallocate_footprint this va {| heap := hp; objs := os; trace := tr |}
                  m1 Hv Hif) as [Ho1 Ht1].
      simpl in Ho1.
      assert (Hv1 : objs m1 !! this
                    = Some {| m_count := m_count va;
                              m_capacity := grown_capacity (m_capacity va);
                              m_data_ptr := Some (length hp) |})
        by (rewrite Ho1; apply (lookup_insert_same _ _ _ _ Hv)).
      destruct (construct_at_end_footprint this _ x _ _ Hv1 Hend) as [Ho2 Ht2].
      eexists. split; [| split].
      + rewrite Ho2, Ho1. simpl. apply list_insert_insert_eq.
      + apply (touches_only_weaken
                 (fun q => m_data_ptr va = Some q \/ (length hp <= q)%nat)).
        { simpl. intros q Hq [Hold | Hge]; [exact Hold | lia]. }
        apply (touches_only_trans _ _ m1).
        * eapply touches_only_weaken; [| exact Ht1]. intros q _ Hq. now left.
        * eapply touches_only_weaken; [| exact Ht2].
          simpl. intros q _ [= <-]. right. lia.
      + right. exists (length hp). simpl. split; [reflexivity | lia].
    - injection Hif as <-.
      destruct (construct_at_end_footprint this va x
                  {| heap := hp; objs := os; trace := tr |} m' Hv Hend) as [Ho2 Ht2].
      eexists. split; [exact Ho2 | split; [exact Ht2 |]]. now left. }
  destruct mu as [item | args | idx x]; simpl in Hrun.
  - exact (Hpush _ Hrun).
  - exact (Hpush (construct args) Hrun).
  - destruct m as [hp os tr]. simpl in Hv. unfold write_at, subscript in Hrun.
    rewrite bind_assoc in Hrun.
    rewrite (bind_eval _ _ _ _ _ (get_data_ptr_eval _ _ _ _ _ Hv)) in Hrun.
    unfold bind, ret in Hrun.
    apply store_footprint in Hrun as [Ho Ht].
    exists va. split; [| split; [exact Ht | now left]].
    rewrite Ho. simpl. symmetry. now apply list_insert_id.
Qed.

(** Mutations of one vector leave alone a vector that shares no storage with
    it. *)
Lemma mutate_all_frame (mus : list (@mutation T Args)) :
  forall (a b : nat) (va vb : vector) (ys : list T) (rb : nat) (m m' : mem T),
  a <> b ->
  objs m !! a = Some va ->
  rep m b vb ys rb ->
  (forall q, m_data_ptr va = Some q -> m_data_ptr vb <> Some q) ->
  mutate_all malloc_grants construct a mus m = Normal tt m' ->
  rep m' b vb ys rb.
Proof.
  induction mus as [|mu mus IH]; intros a b va vb ys rb m m' Hab Ha Hb Hdisj Hrun;
    simpl in Hrun.
  - now injection Hrun as <-.
  - apply bind_Normal in Hrun as ([] & m1 & Hstep & Hrest).
    destruct (mutate_footprint a va mu m m1 Ha Hstep) as (va' & Ho & [Hl Ht] & Hptr).
    destruct Hb as (Hvb & Hn & Hst).
    assert (Hlive : forall pb, m_data_ptr vb = Some pb -> (pb < length (heap m))%nat).
    { intros pb Hpb. unfold stores in Hst. rewrite Hpb in Hst.
      destruct Hst as [bytes Hblk]. now apply lookup_lt_Some in Hblk. }
    assert (Hrep1 : rep m1 b vb ys rb).
    { split; [| split].
      - rewrite Ho. now rewrite list_lookup_insert_ne.
      - exact Hn.
      - unfold stores in *. destruct (m_data_ptr vb) as [pb|] eqn:Hpb; [| exact Hst].
        destruct Hst as [bytes Hblk]. exists bytes.
        rewrite Ht; [exact Hblk | now apply Hlive |].
        intros Hq. now apply (Hdisj _ Hq). }
    apply (IH a b va' vb ys rb m1 m'); try assumption.
    + rewrite Ho. apply (lookup_insert_same _ _ _ _ Ha).
    + intros q Hq. destruct Hptr as [Hsame | (nb & Hnb & Hge)].
      * apply Hdisj. congruence.
      * rewrite Hnb in Hq. injection Hq as <-.
        intros Hpb. apply Hlive in Hpb. lia.
Qed.


End Properties.

(** * The code on concrete inputs *)

Section Concrete.

Local Existing Instance LP64.

Lemma bind_never_returns {T A B} (c : M T A) (k : A -> M T B) m :
  (forall a m', returns (k a m') = false) -> returns (bind c k m) = false.
Proof. intros Hk. unfold bind. destruct (c m); [apply Hk | reflexivity ..]. Qed.

(** C2.  [v] holds one element, in slot 0 of block 0, and [w] holds one
    element.  [v = w] reuses [v]'s storage and copy-constructs [w]'s element
    in slot 0 of block 0 while the element of [v] is still there: the history
    has no destructor call at all.  When [w] holds two elements, so that
    [v = w] allocates, the same operator does destroy [v]'s element, and no
    slot is constructed over a live object. *)
Theorem copy_assign_constructs_over_live_element :
  (exists m,
     assign_same_size empty_mem = Normal (0%nat, 1%nat) m
     /\ constructed_over_live [] (trace m) = [(0%nat, 0)]
     /\ existsb is_destroy (trace m) = false
     /\ heap m !! 0%nat
        = Some {| blk_bytes := 32; blk_cells := [Obj 2]; blk_freed := false |})
  /\ (exists m,
        assign_larger empty_mem = Normal (0%nat, 1%nat) m
        /\ constructed_over_live [] (trace m) = []
        /\ existsb is_destroy (trace m) = true).
Proof.
  split; eexists; (split; [vm_compute; reflexivity |]); repeat split.
Qed.

(** C3.  [v] holds one element and [w] is empty.  After [v = w] the capacity
    of [v] is 0 while its storage pointer is not null: it still points to the
    block, not released, that held the element. *)
Theorem copy_assign_from_empty_breaks_null_iff_no_capacity :
  exists m,
    assign_from_empty empty_mem = Normal (0%nat, 1%nat) m
    /\ capacity 0 m = Normal 0 m
    /\ objs m !! 0%nat
       = Some {| m_count := 0; m_capacity := 0; m_data_ptr := Some 0%nat |}
    /\ heap m !! 0%nat
       = Some {| blk_bytes := 4; blk_cells := [Obj 1]; blk_freed := false |}.
Proof.
  eexists. split; [vm_compute; reflexivity |]. repeat split.
Qed.

(** C10.  The move assignment operator never returns a value, whatever it is
    called on: control reaches the end of its body, which has no [return]
    statement.  On two vectors of one element each it is undefined, where the
    copy assignment operator returns its left operand. *)
Theorem move_assign_returns_nothing :
  (forall (T : Type) (E : Element T) (this other : nat) (m : mem T),
     returns (move_assign this other m) = false)
  /\ then_move_assign empty_mem = Undefined
  /\ exists m, then_copy_assign empty_mem = Normal 0%nat m.
Proof.
  split; [| split].
  - intros T E this other m. unfold move_assign.
    repeat (apply bind_never_returns; intros). reflexivity.
  - vm_compute. reflexivity.
  - eexists. vm_compute. reflexivity.
Qed.


(** Growth refused on a full vector of one [int]. *)
Lemma growth_failure_leaves_vector_unchanged_witness :
  let m := {| heap := [{| blk_bytes := 4; blk_cells := [Obj 5]; blk_freed := false |}];
              objs := [{| m_count := 1; m_capacity := 1; m_data_ptr := Some 0%nat |}];
              trace := [] |} in
  push_back (H0 := int_element) refuse_all 0 7 m = BadAlloc m
  /\ emplace_back (H0 := int_element) refuse_all (fun z : Z => z) 0 7 m = BadAlloc m.
Proof.
  intros m.
  apply (growth_failure_leaves_vector_unchanged (H := LP64) (H0 := int_element) refuse_all
           (fun z : Z => z) 0
           {| m_count := 1; m_capacity := 1; m_data_ptr := Some 0%nat |} 7 7 m);
    reflexivity.
Defined.

(** The capacity theorem on three insertions, at the third one. *)
Lemma capacity_sequence_witness :
  let ops := [PushBack 10; EmplaceBack 20; PushBack 30] in
  exists m,
    run (H0 := int_element) grant_all (fun z : Z => z) ops empty_mem = Normal 0%nat m
    /\ exists mk mk' c c',
         run (H0 := int_element) grant_all (fun z : Z => z) (take 2 ops) empty_mem
         = Normal 0%nat mk
         /\ run (H0 := int_element) grant_all (fun z : Z => z) (take 3 ops) empty_mem
            = Normal 0%nat mk'
         /\ size 0 mk = Normal 2 mk
         /\ capacity 0 mk = Normal c mk
         /\ capacity 0 mk' = Normal c' mk'
         /\ c' = 4
         /\ (2 <> c -> c' = c)
         /\ (2 = c -> c' = if c =? 0 then 1 else 2 * c).
Proof.
  intros ops. eexists. split; [vm_compute; reflexivity |].
  refine (capacity_sequence (H := LP64) (H0 := int_element) grant_all (fun z : Z => z) ops empty_mem
            0%nat _ _ 2%nat _).
  - vm_compute. reflexivity.
  - simpl. lia.
Defined.



(** [allocate(3)] for [T = int]: twelve bytes, three slots; and
    [allocate(2^62 + 1)], whose size in bytes wraps to 4: one slot. *)
Lemma allocate_spec_witness :
  (0 <= 3 < 2 ^ 64
   /\ (allocate (H0 := int_element) grant_all 3 empty_mem = BadAlloc empty_mem
       \/ exists m',
            allocate (H0 := int_element) grant_all 3 empty_mem = Normal (Some 0%nat) m'
            /\ heap m' = [{| blk_bytes := 12; blk_cells := [Raw; Raw; Raw];
                             blk_freed := false |}]
            /\ objs m' = [])
   /\ to_size_t (3 * 4) = 12)
  /\ (0 <= 2 ^ 62 + 1 < 2 ^ 64
      /\ (allocate (H0 := int_element) grant_all (2 ^ 62 + 1) empty_mem
          = BadAlloc empty_mem
          \/ exists m',
               allocate (H0 := int_element) grant_all (2 ^ 62 + 1) empty_mem
               = Normal (Some 0%nat) m'
               /\ heap m' = [{| blk_bytes := 4; blk_cells := [Raw]; blk_freed := false |}]
               /\ objs m' = [])
      /\ to_size_t ((2 ^ 62 + 1) * 4) < (2 ^ 62 + 1) * 4).
Proof.
  assert (Hn : 0 <= 3 < 2 ^ 64) by (split; [lia | reflexivity]).
  assert (Hbig : 0 <= 2 ^ 62 + 1 < 2 ^ 64)
    by (split; [vm_compute; intros X; discriminate X | reflexivity]).
  split.
  - split; [exact Hn |].
    destruct (allocate_spec (H := LP64) (H0 := int_element) grant_all 3 empty_mem Hn)
      as (Hcases & Hfits & _).
    split; [exact Hcases |].
    destruct (Hfits ltac:(vm_compute; reflexivity)) as [Hbytes _]. exact Hbytes.
  - split; [exact Hbig |].
    destruct (allocate_spec (H := LP64) (H0 := int_element) grant_all (2 ^ 62 + 1)
                empty_mem Hbig)
      as (Hcases & _ & Hwraps).
    split; [exact Hcases |].
    destruct (Hwraps ltac:(vm_compute; intros X; discriminate X)) as [Hbytes _].
    exact Hbytes.
Defined.

(** [v = w] for [v] of three elements with capacity 4 and [w] of one. *)
Lemma copy_assign_sets_capacity_to_size_witness :
  exists m' v',
    copy_assign (H0 := int_element) grant_all 0 1 three_and_one_mem = Normal 0%nat m'
    /\ capacity 0 m' = Normal 1 m'
    /\ size 1 m' = Normal 1 m'
    /\ objs m' !! 0%nat = Some v'
    /\ m_data_ptr v' = Some 0%nat
    /\ shapes m' = shapes three_and_one_mem
    /\ m_capacity v' < 4.
Proof.
  assert (Hrun : exists m', copy_assign (H0 := int_element) grant_all 0 1
                              three_and_one_mem = Normal 0%nat m')
    by (eexists; vm_compute; reflexivity).
  destruct Hrun as [m' Hrun]. exists m'.
  destruct (copy_assign_sets_capacity_to_size (H := LP64) (H0 := int_element)
              grant_all 0 1
              {| m_count := 3; m_capacity := 4; m_data_ptr := Some 0%nat |}
              {| m_count := 1; m_capacity := 1; m_data_ptr := Some 1%nat |}
              three_and_one_mem m' 0%nat eq_refl eq_refl Hrun)
    as (_ & Hcap & Hsize & Hreuse).
  destruct (Hreuse ltac:(simpl; lia)) as (v' & Hv' & Hp & Hshapes & Hlower).
  exists v'. repeat split; assumption.
Defined.

End Concrete.

(** * The members the sections above do not cover *)

Section Members.

Context `{Platform} {T : Type} `{Element T}.
Variable malloc_grants : mem T -> Z -> bool.
Context {Args : Type}.
Variable construct : Args -> T.

(** ** The move constructor *)

(** X1.  Move construction of [this] from another object [other] always
    returns.  It allocates nothing and constructs or destroys no element: the
    heap and the history are what they were.  [this] gets the data members
    that [other] had, [other] gets the empty state, no other object changes,
    and the elements that were [other]'s are now the elements of [this]. *)
Theorem move_construction (this other : nat) (v v0 : vector) (m : mem T) :
  objs m !! this = Some v0 ->
  objs m !! other = Some v ->
  this <> other ->
  exists m',
    vector_move this other m = Normal tt m'
    /\ heap m' = heap m
    /\ trace m' = trace m
    /\ objs m' !! this = Some v
    /\ objs m' !! other
       = Some {| m_count := 0; m_capacity := 0; m_data_ptr := None |}
    /\ (forall o, o <> this -> o <> other -> objs m' !! o = objs m !! o)
    /\ (forall xs r, rep m other v xs r -> rep m' this v xs r).
Proof.
  destruct m as [hp os tr]. simpl. intros Hv0 Hv Hne.
  assert (Hother : <[this := v]> os !! other = Some v)
    by now rewrite list_lookup_insert_ne.
  eexists. split.
  { unfold vector_move.
    rewrite (bind_eval _ _ _ _ _ (get_capacity_eval _ _ _ _ _ Hv)).
    rewrite (bind_eval _ _ _ _ _ (get_count_eval _ _ _ _ _ Hv)).
    rewrite (bind_eval _ _ _ _ _ (get_data_ptr_eval _ _ _ _ _ Hv)).
    rewrite (bind_eval _ _ _ _ _ (init_eval _ _ _ _ _ _ _ _ Hv0)).
    replace {| m_count := m_count v; m_capacity := m_capacity v;
               m_data_ptr := m_data_ptr v |} with v by now destruct v.
    apply (reset_eval other v _ _ _ Hother). }
  assert (Hthis : <[other := {| m_count := 0; m_capacity := 0; m_data_ptr := None |}]>
                    (<[this := v]> os) !! this = Some v).
  { rewrite list_lookup_insert_ne by congruence.
    apply (lookup_insert_same _ _ _ _ Hv0). }
  simpl. split; [reflexivity |]. split; [reflexivity |]. split; [exact Hthis |].
  split; [apply (lookup_insert_same _ _ _ _ Hother) |]. split.
  - intros o Ho1 Ho2. now rewrite !list_lookup_insert_ne by congruence.
  - intros xs r (_ & Hn & Hst). split; [exact Hthis | split; [exact Hn | exact Hst]].
Qed.

(** ** The destructor *)

Lemma destroy_range_eval b bytes (todo : list T) :
  forall (k : nat) (rest : list (slot T))
         (hp : list (block T)) (os : list vector) (tr : list event),
  hp !! b = Some {| blk_bytes := bytes;
                    blk_cells := replicate k Raw ++ (Obj <$> todo) ++ rest;
                    blk_freed := false |} ->
  destroy_range (Some b) (Z.of_nat k) (length todo)
    {| heap := hp; objs := os; trace := tr |}
  = Normal tt
      {| heap := <[b := {| blk_bytes := bytes;
                           blk_cells := replicate (k + length todo) Raw ++ rest;
                           blk_freed := false |}]> hp;
         objs := os;
         trace := tr ++ (EvDestroy b <$> seqZ (Z.of_nat k) (Z.of_nat (length todo))) |}.
Proof.
  induction todo as [|x todo IH]; intros k rest hp os tr Hb.
  - simpl. unfold ret. rewrite Nat.add_0_r, app_nil_r.
    simpl in Hb. now rewrite (list_insert_id _ _ _ Hb).
  - simpl length. cbn [destroy_range].
    assert (Hx : (replicate k Raw ++ (Obj <$> x :: todo) ++ rest) !! k = Some (Obj x)).
    { apply list_lookup_middle. now rewrite length_replicate. }
    unfold bind at 1, destroy_at.
    rewrite (live_block_eval _ _ _ _ _ Hb eq_refl).
    rewrite (cell_at_eval _ _ _ _ _ _ Hb eq_refl) by lia.
    cbn [blk_cells]. rewrite Nat2Z.id, Hx.
    rewrite (set_cell_eval _ _ _ _ _ _ _ Hb). unfold log.
    cbn [heap objs trace blk_bytes blk_cells blk_freed].
    replace (Z.of_nat k + 1) with (Z.of_nat (S k)) by lia.
    rewrite (IH (S k) rest).
    + f_equal. f_equal.
      * rewrite list_insert_insert_eq. do 3 f_equal. f_equal. lia.
      * rewrite <- app_assoc. f_equal. rewrite seqZ_first.
        replace (Z.of_nat (S k)) with (Z.of_nat k + 1) by lia. reflexivity.
    + rewrite list_lookup_insert_eq by now apply lookup_lt_Some in Hb.
      f_equal. f_equal. rewrite Nat2Z.id.
      replace k with (length (replicate k (@Raw T))) at 1 by apply length_replicate.
      change ((Obj <$> x :: todo) ++ rest) with (Obj x :: (Obj <$> todo) ++ rest).
      rewrite insert_after_prefix.
      rewrite replicate_S_end, <- app_assoc. reflexivity.
Qed.

(** [destroy()] on a vector that has storage. *)
Lemma destroy_eval this v b bytes (xs : list T) (rest : list (slot T))
    (hp : list (block T)) (os : list vector) (tr : list event) :
  os !! this = Some v ->
  m_count v = Z.of_nat (length xs) ->
  m_data_ptr v = Some b ->
  hp !! b = Some {| blk_bytes := bytes;
                    blk_cells := (Obj <$> xs) ++ rest;
                    blk_freed := false |} ->
  destroy this {| heap := hp; objs := os; trace := tr |}
  = Normal tt
      {| heap := <[b := {| blk_bytes := bytes;
                           blk_cells := (if trivially_destructible then Obj <$> xs
                                         else replicate (length xs) Raw) ++ rest;
                           blk_freed := true |}]> hp;
         objs := os;
         trace := tr ++ destructor_events (Some b) (m_count v) |}.
Proof.
  intros Hv Hn Hp Hb. unfold destroy, destructor_events, deallocate.
  destruct trivially_destructible.
  - unfold bind at 1, ret at 1.
    rewrite (bind_eval _ _ _ _ _ (get_data_ptr_eval _ _ _ _ _ Hv)).
    rewrite Hp. now rewrite (free_eval _ _ _ _ _ Hb eq_refl).
  - rewrite bind_assoc.
    rewrite (bind_eval _ _ _ _ _ (get_data_ptr_eval _ _ _ _ _ Hv)).
    rewrite bind_assoc.
    rewrite (bind_eval _ _ _ _ _ (get_count_eval _ _ _ _ _ Hv)).
    rewrite Hp, Hn, Nat2Z.id.
    erewrite bind_eval; cycle 1.
    { apply (destroy_range_eval b bytes xs 0 rest). exact Hb. }
    rewrite (bind_eval _ _ _ _ _ (get_data_ptr_eval _ _ _ _ _ Hv)).
    rewrite Hp.
    erewrite free_eval; cycle 1.
    { apply list_lookup_insert_eq. now apply lookup_lt_Some in Hb. }
    { reflexivity. }
    cbn [blk_bytes blk_cells blk_freed]. simpl replicate.
    rewrite list_insert_insert_eq, <- app_assoc. reflexivity.
Qed.

(** [destroy()] on a vector in the empty state. *)
Lemma destroy_eval_null this v
    (hp : list (block T)) (os : list vector) (tr : list event) :
  os !! this = Some v ->
  m_count v = 0 ->
  m_data_ptr v = None ->
  destroy (T := T) this {| heap := hp; objs := os; trace := tr |}
  = Normal tt {| heap := hp; objs := os; trace := tr ++ [EvFree None] |}.
Proof.
  intros Hv Hn Hp. unfold destroy, deallocate.
  destruct trivially_destructible.
  - unfold bind at 1, ret at 1.
    rewrite (bind_eval _ _ _ _ _ (get_data_ptr_eval _ _ _ _ _ Hv)).
    now rewrite Hp.
  - rewrite bind_assoc.
    rewrite (bind_eval _ _ _ _ _ (get_data_ptr_eval _ _ _ _ _ Hv)).
    rewrite bind_assoc.
    rewrite (bind_eval _ _ _ _ _ (get_count_eval _ _ _ _ _ Hv)).
    rewrite Hp, Hn. simpl. unfold bind at 1, ret at 1.
    rewrite (bind_eval _ _ _ _ _ (get_data_ptr_eval _ _ _ _ _ Hv)).
    now rewrite Hp.
Qed.

(** X2.  The destructor of a vector of the elements [xs] always returns.  It
    leaves every [vector] object as it is (the pointer of the destroyed one now
    dangles), adds to the history one destructor call per element, in index
    order, unless [T] is trivially destructible, followed by the release of
    the storage, and changes no block but the vector's own, which is released
    with every element destroyed. *)
Theorem destructor_destroys_then_releases
    (this : nat) (v : vector) (xs : list T) (r : nat) (m : mem T) :
  rep m this v xs r ->
  exists m',
    vector_destructor this m = Normal tt m'
    /\ objs m' = objs m
    /\ trace m' = trace m ++ destructor_events (m_data_ptr v) (Z.of_nat (length xs))
    /\ (forall b, m_data_ptr v = Some b ->
          exists bytes,
            heap m' !! b
            = Some {| blk_bytes := bytes;
                      blk_cells := (if trivially_destructible then Obj <$> xs
                                    else replicate (length xs) Raw)
                                   ++ replicate r Raw;
                      blk_freed := true |})
    /\ (forall b, m_data_ptr v <> Some b -> heap m' !! b = heap m !! b).
Proof.
  destruct m as [hp os tr]. intros (Hv & Hn & Hst). simpl in Hv.
  unfold vector_destructor.
  destruct (m_data_ptr v) as [b|] eqn:Hp; simpl in Hst.
  - destruct Hst as [bytes Hb].
    rewrite (destroy_eval this v b bytes xs (replicate r Raw)) by assumption.
    eexists. split; [reflexivity |]. simpl. rewrite Hn. repeat split.
    + intros b' [= <-]. exists bytes. apply list_lookup_insert_eq.
      now apply lookup_lt_Some in Hb.
    + intros b' Hne. apply list_lookup_insert_ne. congruence.
  - destruct Hst as [-> ->]. simpl in Hn.
    rewrite (destroy_eval_null this v) by assumption.
    eexists. split; [reflexivity |]. simpl. repeat split.
    + unfold destructor_events. now destruct trivially_destructible.
    + discriminate.
Qed.

(** X3.  Move construction followed by the destruction of the moved-from
    object: the second step releases nothing (it calls [free] on a null
    pointer), so the heap is untouched and the elements, which now belong to
    the new object, are still there. *)
Theorem moved_from_destructor_releases_nothing
    (this other : nat) (v v0 : vector) (xs : list T) (r : nat) (m : mem T) :
  objs m !! this = Some v0 ->
  rep m other v xs r ->
  this <> other ->
  exists m',
    (vector_move this other ;; vector_destructor other) m = Normal tt m'
    /\ heap m' = heap m
    /\ trace m' = trace m ++ [EvFree None]
    /\ rep m' this v xs r.
Proof.
  destruct m as [hp os tr]. simpl. intros Hv0 (Hv & Hn & Hst) Hne. simpl in Hv.
  assert (Hother : <[this := v]> os !! other = Some v)
    by now rewrite list_lookup_insert_ne.
  assert (Hmove : vector_move this other {| heap := hp; objs := os; trace := tr |}
                  = Normal tt
                      {| heap := hp;
                         objs := <[other := {| m_count := 0; m_capacity := 0;
                                               m_data_ptr := None |}]>
                                   (<[this := v]> os);
                         trace := tr |}).
  { unfold vector_move.
    rewrite (bind_eval _ _ _ _ _ (get_capacity_eval _ _ _ _ _ Hv)).
    rewrite (bind_eval _ _ _ _ _ (get_count_eval _ _ _ _ _ Hv)).
    rewrite (bind_eval _ _ _ _ _ (get_data_ptr_eval _ _ _ _ _ Hv)).
    rewrite (bind_eval _ _ _ _ _ (init_eval _ _ _ _ _ _ _ _ Hv0)).
    replace {| m_count := m_count v; m_capacity := m_capacity v;
               m_data_ptr := m_data_ptr v |} with v by now destruct v.
    apply (reset_eval other v _ _ _ Hother). }
  eexists. split.
  { rewrite (bind_eval _ _ _ _ _ Hmove). unfold vector_destructor.
    apply (destroy_eval_null other
             {| m_count := 0; m_capacity := 0; m_data_ptr := None |});
      [apply (lookup_insert_same _ _ _ _ Hother) | reflexivity ..]. }
  simpl. repeat split; try assumption.
  simpl. rewrite list_lookup_insert_ne by congruence.
  apply (lookup_insert_same _ _ _ _ Hv0).
Qed.

(** ** Allocation failure in the copy operations *)

(** X4.  When the destination's capacity is smaller than the source's size
    and [malloc] refuses the new storage, copy assignment throws
    [std::bad_alloc] and the whole state is what it was: the operator
    allocates before it destroys or overwrites anything. *)
Theorem copy_assign_allocation_failure
    (this other : nat) (v w : vector) (m : mem T) :
  objs m !! this = Some v ->
  objs m !! other = Some w ->
  m_capacity v < m_count w ->
  malloc_grants m (copy_bytes (m_count w)) = false ->
  copy_assign malloc_grants this other m = BadAlloc m.
Proof.
  destruct m as [hp os tr]. simpl. intros Hv Hw Hlt Hrefuse. unfold copy_assign.
  rewrite (bind_eval _ _ _ _ _ (get_capacity_eval _ _ _ _ _ Hv)).
  rewrite (bind_eval _ _ _ _ _ (get_count_eval _ _ _ _ _ Hw)).
  destruct (Z.ltb_spec (m_capacity v) (m_count w)) as [_ | Hge]; [| lia].
  unfold bind at 1.
  rewrite (bind_eval _ _ _ _ _ (get_count_eval _ _ _ _ _ Hw)).
  unfold bind at 1. rewrite allocate_eval.
  unfold copy_bytes in Hrefuse. now rewrite Hrefuse.
Qed.

(** X5.  When [malloc] refuses the storage for the copy of a non-empty
    vector, the copy constructor throws [std::bad_alloc] and the whole state,
    the source included, is what it was. *)
Theorem copy_construction_allocation_failure
    (this other : nat) (w : vector) (m : mem T) :
  objs m !! other = Some w ->
  m_count w <> 0 ->
  malloc_grants m (copy_bytes (m_count w)) = false ->
  vector_copy malloc_grants this other m = BadAlloc m.
Proof.
  destruct m as [hp os tr]. simpl. intros Hw Hnz Hrefuse. unfold vector_copy, size.
  rewrite (bind_eval _ _ _ _ _ (get_count_eval _ _ _ _ _ Hw)).
  destruct (Z.eqb_spec (m_count w) 0) as [| _]; [contradiction |].
  rewrite (bind_eval _ _ _ _ _ (get_count_eval _ _ _ _ _ Hw)).
  unfold bind at 1. rewrite allocate_eval.
  unfold copy_bytes in Hrefuse. now rewrite Hrefuse.
Qed.

(** ** Copy assignment between two vectors *)

Lemma stores_frame (m m' : mem T) (p : pointer) (ys : list T) (s : nat) :
  stores m p ys s ->
  (forall b, p = Some b -> heap m' !! b = heap m !! b) ->
  stores m' p ys s.
Proof.
  unfold stores. destruct p as [b|]; [| trivial].
  intros [bytes Hb] Hsame. exists bytes. now rewrite Hsame.
Qed.

(** [asd::copy] of the elements [ys] of a source storage over the first slots
    of another block. *)
Lemma copy_from_over sb nb bytes_s bytes_n (todo : list T) :
  forall (prev : list T) (rest olds : list (slot T))
         (hp : list (block T)) (os : list vector) (tr : list event),
  sb <> nb ->
  hp !! sb = Some {| blk_bytes := bytes_s;
                     blk_cells := (Obj <$> prev) ++ (Obj <$> todo) ++ rest;
                     blk_freed := false |} ->
  hp !! nb = Some {| blk_bytes := bytes_n;
                     blk_cells := (Obj <$> prev) ++ olds;
                     blk_freed := false |} ->
  copy_from (Some sb) (Some nb) (Z.of_nat (length prev)) (length todo)
    {| heap := hp; objs := os; trace := tr |}
  = if decide (length todo <= length olds)%nat then
      Normal tt
        {| heap :=
             <[nb := {| blk_bytes := bytes_n;
                        blk_cells := (Obj <$> (prev ++ todo)) ++ drop (length todo) olds;
                        blk_freed := false |}]> hp;
           objs := os;
           trace := tr ++ (EvCopyConstruct sb nb
                             <$> seqZ (Z.of_nat (length prev)) (Z.of_nat (length todo))) |}
    else Undefined.
Proof.
  induction todo as [|x todo IH]; intros prev rest olds hp os tr Hne Hsb Hnb.
  - simpl. unfold ret. rewrite !app_nil_r, drop_0.
    now rewrite (list_insert_id _ _ _ Hnb).
  - simpl length. cbn [copy_from]. destruct olds as [|old olds].
    + destruct (decide (S (length todo) <= length (@nil (slot T)))%nat) as [Hle |];
        [simpl in Hle; lia |].
      unfold bind, copy_construct.
      rewrite (live_block_eval _ _ _ _ _ Hsb eq_refl).
      rewrite (cell_at_eval _ _ _ _ _ _ Hsb eq_refl) by lia.
      rewrite (live_block_eval _ _ _ _ _ Hnb eq_refl).
      rewrite (cell_at_eval _ _ _ _ _ _ Hnb eq_refl) by lia.
      cbn [blk_cells]. rewrite Nat2Z.id.
      change ((Obj <$> x :: todo) ++ rest) with (Obj x :: (Obj <$> todo) ++ rest).
      rewrite list_lookup_middle by now rewrite !length_fmap.
      rewrite app_nil_r, lookup_ge_None_2 by now rewrite length_fmap.
      reflexivity.
    + erewrite bind_eval; cycle 1.
      { eapply (copy_construct_eval sb nb _ _ _ x old); eauto; try lia; cbn [blk_cells].
        - rewrite Nat2Z.id. apply list_lookup_middle. now rewrite !length_fmap.
        - rewrite Nat2Z.id. apply list_lookup_middle. now rewrite !length_fmap. }
      cbn [blk_bytes blk_cells blk_freed].
      replace (Z.of_nat (length prev) + 1) with (Z.of_nat (length (prev ++ [x])))
        by (rewrite length_app; simpl; lia).
      rewrite (IH (prev ++ [x]) rest olds); try assumption.
      * simpl length.
        destruct (decide (length todo <= length olds)%nat) as [Hle | Hgt];
          destruct (decide (S (length todo) <= S (length olds))%nat); try lia;
          [| reflexivity].
        f_equal. f_equal.
        -- rewrite list_insert_insert_eq. rewrite <- !app_assoc. reflexivity.
        -- rewrite <- app_assoc. f_equal. rewrite seqZ_first. simpl.
           rewrite length_app. simpl.
           replace (Z.of_nat (length prev + 1)) with (Z.of_nat (length prev) + 1) by lia.
           reflexivity.
      * rewrite list_lookup_insert_ne by congruence.
        rewrite Hsb. f_equal. f_equal.
        rewrite !fmap_app, <- app_assoc. reflexivity.
      * rewrite list_lookup_insert_eq by (now apply lookup_lt_Some in Hnb).
        f_equal. f_equal.
        rewrite Nat2Z.id.
        replace (length prev) with (length (Obj <$> prev)) by now rewrite !length_fmap.
        rewrite insert_after_prefix.
        rewrite !fmap_app, <- app_assoc. reflexivity.
Qed.

(** The same, from the storage of a vector, which is null when the vector
    has no element. *)
Lemma copy_from_stores (p : pointer) nb bytes_n (ys : list T) (s : nat)
    (olds : list (slot T)) (hp : list (block T)) (os : list vector) (tr : list event) :
  stores {| heap := hp; objs := os; trace := tr |} p ys s ->
  p <> Some nb ->
  hp !! nb = Some {| blk_bytes := bytes_n; blk_cells := olds; blk_freed := false |} ->
  copy_from p (Some nb) 0 (length ys) {| heap := hp; objs := os; trace := tr |}
  = if decide (length ys <= length olds)%nat then
      Normal tt
        {| heap :=
             <[nb := {| blk_bytes := bytes_n;
                        blk_cells := (Obj <$> ys) ++ drop (length ys) olds;
                        blk_freed := false |}]> hp;
           objs := os;
           trace := tr ++ copy_events p nb (Z.of_nat (length ys)) |}
    else Undefined.
Proof.
  intros Hst Hne Hnb. destruct p as [sb|]; simpl in Hst.
  - destruct Hst as [bytes_s Hsb].
    apply (copy_from_over sb nb bytes_s bytes_n ys [] (replicate s Raw) olds);
      [congruence | exact Hsb | exact Hnb].
  - destruct Hst as [-> ->]. simpl. unfold ret. rewrite app_nil_r, drop_0.
    now rewrite (list_insert_id _ _ _ Hnb).
Qed.

(** [destroy()] on a valid vector. *)
Lemma destroy_rep this v (xs : list T) (r : nat)
    (hp : list (block T)) (os : list vector) (tr : list event) :
  os !! this = Some v ->
  m_count v = Z.of_nat (length xs) ->
  stores {| heap := hp; objs := os; trace := tr |} (m_data_ptr v) xs r ->
  exists hp',
    destroy this {| heap := hp; objs := os; trace := tr |}
    = Normal tt {| heap := hp'; objs := os;
                   trace := tr ++ destructor_events (m_data_ptr v) (m_count v) |}
    /\ length hp' = length hp
    /\ (forall p, m_data_ptr v <> Some p -> hp' !! p = hp !! p)
    /\ (forall b, m_data_ptr v = Some b ->
          exists bytes,
            hp' !! b
            = Some {| blk_bytes := bytes;
                      blk_cells := (if trivially_destructible then Obj <$> xs
                                    else replicate (length xs) Raw)
                                   ++ replicate r Raw;
                      blk_freed := true |}).
Proof.
  intros Hv Hn Hst. destruct (m_data_ptr v) as [b|] eqn:Hp; simpl in Hst.
  - destruct Hst as [bytes Hb].
    rewrite (destroy_eval this v b bytes xs (replicate r Raw)) by assumption.
    eexists. split; [reflexivity |]. split; [apply length_insert |]. split.
    + intros p Hne. apply list_lookup_insert_ne. congruence.
    + intros b' [= <-]. exists bytes. apply list_lookup_insert_eq.
      now apply lookup_lt_Some in Hb.
  - destruct Hst as [-> ->]. simpl in Hn.
    rewrite (destroy_eval_null this v) by assumption.
    exists hp. split; [| split; [reflexivity | split; [reflexivity | discriminate]]].
    rewrite Hn. unfold destructor_events. now destruct trivially_destructible.
Qed.

Lemma holds_read_at this v (ys : list T) (m : mem T) (i : nat) (y : T) :
  holds m this v ys -> ys !! i = Some y ->
  read_at this (Z.of_nat i) m = Normal y m.
Proof.
  destruct m as [hp os tr]. intros (Hv & Hn & Hst) Hy. simpl in Hv.
  destruct Hst as [-> | (b & bytes & rest & Hp & Hb)]; [discriminate |].
  unfold read_at, subscript. rewrite bind_assoc.
  rewrite (bind_eval _ _ _ _ _ (get_data_ptr_eval _ _ _ _ _ Hv)).
  unfold ret, bind, load, read_obj. cbn [fst snd]. rewrite Hp.
  simpl in Hb. rewrite (cell_at_eval _ _ _ _ _ _ Hb eq_refl) by lia.
  cbn [blk_cells]. rewrite Nat2Z.id.
  rewrite lookup_app_l by (rewrite length_fmap; now apply lookup_lt_Some in Hy).
  now rewrite list_lookup_fmap, Hy.
Qed.

(** Copy assignment that reuses the destination's storage. *)
Lemma copy_assign_reuse_eval this other v w b bytes (ys : list T) (s : nat)
    (olds : list (slot T)) (hp : list (block T)) (os : list vector) (tr : list event) :
  os !! this = Some v ->
  os !! other = Some w ->
  this <> other ->
  m_count w = Z.of_nat (length ys) ->
  m_count w <= m_capacity v ->
  m_count w <= INT_MAX ->
  stores {| heap := hp; objs := os; trace := tr |} (m_data_ptr w) ys s ->
  m_data_ptr v = Some b ->
  m_data_ptr w <> Some b ->
  hp !! b = Some {| blk_bytes := bytes; blk_cells := olds; blk_freed := false |} ->
  copy_assign malloc_grants this other {| heap := hp; objs := os; trace := tr |}
  = if decide (length ys <= length olds)%nat then
      Normal this
        {| heap := <[b := {| blk_bytes := bytes;
                             blk_cells := (Obj <$> ys) ++ drop (length ys) olds;
                             blk_freed := false |}]> hp;
           objs := <[this := {| m_count := m_count w; m_capacity := m_count w;
                                m_data_ptr := Some b |}]> os;
           trace := tr ++ copy_events (m_data_ptr w) b (m_count w) |}
    else Undefined.
Proof.
  intros Hv Hw Hne Hn Hcap Hmax Hst Hp Hdisj Hb. unfold copy_assign, size.
  rewrite (bind_eval _ _ _ _ _ (get_capacity_eval _ _ _ _ _ Hv)).
  rewrite (bind_eval _ _ _ _ _ (get_count_eval _ _ _ _ _ Hw)).
  destruct (Z.ltb_spec (m_capacity v) (m_count w)) as [Hlt | _]; [lia |].
  unfold bind at 1, ret at 1.
  rewrite (bind_eval _ _ _ _ _ (get_data_ptr_eval _ _ _ _ _ Hw)).
  rewrite (bind_eval _ _ _ _ _ (get_count_eval _ _ _ _ _ Hw)).
  rewrite (bind_eval _ _ _ _ _ (get_data_ptr_eval _ _ _ _ _ Hv)).
  rewrite Hp. unfold copy. rewrite loop_count_small by lia. rewrite Hn, Nat2Z.id.
  unfold bind at 1.
  rewrite (copy_from_stores (m_data_ptr w) b bytes ys s olds) by assumption.
  destruct (decide (length ys <= length olds)%nat); [| reflexivity].
  rewrite (bind_eval _ _ _ _ _ (get_count_eval _ _ _ _ _ Hw)).
  rewrite (bind_eval _ _ _ _ _ (get_count_eval _ _ _ _ _ Hw)).
  rewrite (bind_eval _ _ _ _ _ (get_data_ptr_eval _ _ _ _ _ Hv)).
  rewrite (bind_eval _ _ _ _ _ (init_eval _ _ _ _ _ _ _ _ Hv)).
  now rewrite Hp, Hn.
Qed.

(** X6.  Copy assignment between two valid vectors that are distinct objects
    with distinct storage, when the source's count fits the [int] parameter
    of [asd::copy] and the call returns: the result is the destination; the
    destination's size and capacity are the source's size, and reading its
    index [i] gives the source's [i]-th element; the source is unchanged. *)
Theorem copy_assignment_copies_the_elements
    (this other : nat) (v w : vector) (xs ys : list T) (r s : nat)
    (m m' : mem T) (result : nat) :
  this <> other ->
  rep m this v xs r ->
  rep m other w ys s ->
  (forall b, m_data_ptr v = Some b -> m_data_ptr w <> Some b) ->
  0 <= m_capacity v ->
  m_count w <= INT_MAX ->
  copy_assign malloc_grants this other m = Normal result m' ->
  result = this
  /\ rep m' other w ys s
  /\ exists v',
       holds m' this v' ys
       /\ m_capacity v' = Z.of_nat (length ys)
       /\ forall (i : nat) (y : T),
            ys !! i = Some y -> read_at this (Z.of_nat i) m' = Normal y m'.
Proof.
  destruct m as [hp os tr].
  intros Hne (Hv & Hnv & Hstv) (Hw & Hnw & Hstw) Hdisj Hcap Hmax Hrun.
  simpl in Hv, Hw.
  assert (Hread : forall v', holds m' this v' ys ->
            forall (i : nat) (y : T),
              ys !! i = Some y -> read_at this (Z.of_nat i) m' = Normal y m').
  { intros v' Hh i y Hy. now apply (holds_read_at this v' ys). }
  destruct (Z.lt_ge_cases (m_capacity v) (m_count w)) as [Hgrow | Hreuse].
  - (* new storage *)
    assert (Hlive : forall b, m_data_ptr v = Some b -> (b < length hp)%nat).
    { intros b Hb. unfold stores in Hstv. rewrite Hb in Hstv. simpl in Hstv.
      destruct Hstv as [bytes Hblk]. now apply lookup_lt_Some in Hblk. }
    assert (Hlivew : forall b, m_data_ptr w = Some b -> (b < length hp)%nat).
    { intros b Hb. unfold stores in Hstw. rewrite Hb in Hstw. simpl in Hstw.
      destruct Hstw as [bytes Hblk]. now apply lookup_lt_Some in Hblk. }
    unfold copy_assign, size in Hrun.
    rewrite (bind_eval _ _ _ _ _ (get_capacity_eval _ _ _ _ _ Hv)) in Hrun.
    rewrite (bind_eval _ _ _ _ _ (get_count_eval _ _ _ _ _ Hw)) in Hrun.
    destruct (Z.ltb_spec (m_capacity v) (m_count w)) as [_ | Hge]; [| lia].
    rewrite !bind_assoc in Hrun.
    rewrite (bind_eval _ _ _ _ _ (get_count_eval _ _ _ _ _ Hw)) in Hrun.
    rewrite bind_assoc in Hrun.
    apply bind_Normal in Hrun as (p & ma & Ha & Hrun).
    rewrite allocate_eval in Ha. destruct (malloc_grants _ _); [| discriminate].
    injection Ha as <- <-.
    set (fresh := fresh_block (to_size_t (m_count w * sizeof))) in *.
    set (tra := tr ++ [EvMalloc (length hp) (to_size_t (m_count w * sizeof))]) in *.
    assert (Hsta : stores {| heap := hp ++ [fresh]; objs := os; trace := tra |}
                     (m_data_ptr v) xs r).
    { apply (stores_frame _ _ _ _ _ Hstv). intros b Hb. simpl.
      apply lookup_app_l. now apply Hlive. }
    destruct (destroy_rep this v xs r (hp ++ [fresh]) os tra Hv Hnv Hsta)
      as (hpd & Hd & Hlen & Hframe & _).
    rewrite bind_assoc in Hrun.
    rewrite (bind_eval _ _ _ _ _ Hd) in Hrun.
    rewrite (bind_eval _ _ _ _ _ (set_data_ptr_eval _ _ _ _ _ _ Hv)) in Hrun.
    assert (Hw1 : <[this := {| m_count := m_count v; m_capacity := m_capacity v;
                               m_data_ptr := Some (length hp) |}]> os !! other = Some w)
      by now rewrite list_lookup_insert_ne.
    pose proof (lookup_insert_same os this v
                  {| m_count := m_count v; m_capacity := m_capacity v;
                     m_data_ptr := Some (length hp) |} Hv) as Hv1.
    rewrite (bind_eval _ _ _ _ _ (get_data_ptr_eval _ _ _ _ _ Hw1)) in Hrun.
    rewrite (bind_eval _ _ _ _ _ (get_count_eval _ _ _ _ _ Hw1)) in Hrun.
    rewrite (bind_eval _ _ _ _ _ (get_data_ptr_eval _ _ _ _ _ Hv1)) in Hrun.
    cbn [m_data_ptr] in Hrun. unfold copy in Hrun.
    rewrite loop_count_small in Hrun by lia. rewrite Hnw, Nat2Z.id in Hrun.
    assert (Hnew : hpd !! length hp = Some fresh).
    { rewrite Hframe; [now apply list_lookup_middle |].
      intros Hb. apply Hlive in Hb. lia. }
    assert (Hsrc : forall b, m_data_ptr w = Some b -> hpd !! b = hp !! b).
    { intros b Hb. rewrite Hframe.
      - apply lookup_app_l. now apply Hlivew.
      - intros Hvb. now apply (Hdisj b). }
    apply bind_Normal in Hrun as ([] & mc & Hcopy & Hrun).
    rewrite (copy_from_stores (m_data_ptr w) (length hp)
               (to_size_t (Z.of_nat (length ys) * sizeof)) ys s
               (replicate (Z.to_nat (to_size_t (Z.of_nat (length ys) * sizeof) / sizeof)) Raw))
      in Hcopy; cycle 1.
    { apply (stores_frame _ _ _ _ _ Hstw). intros b Hb. simpl. now apply Hsrc. }
    { intros Hb. apply Hlivew in Hb. lia. }
    { rewrite Hnew. subst fresh. unfold fresh_block. now rewrite Hnw. }
    destruct (decide _); [| discriminate]. injection Hcopy as <-.
    rewrite (bind_eval _ _ _ _ _ (get_count_eval _ _ _ _ _ Hw1)) in Hrun.
    rewrite (bind_eval _ _ _ _ _ (get_count_eval _ _ _ _ _ Hw1)) in Hrun.
    rewrite (bind_eval _ _ _ _ _ (get_data_ptr_eval _ _ _ _ _ Hv1)) in Hrun.
    rewrite (bind_eval _ _ _ _ _ (init_eval _ _ _ _ _ _ _ _ Hv1)) in Hrun.
    injection Hrun as <- <-.
    assert (Hnblt : (length hp < length hpd)%nat)
      by (rewrite Hlen, length_app; simpl; lia).
    split; [reflexivity |]. split.
    + split; [| split; [exact Hnw |]].
      * simpl. now rewrite !list_lookup_insert_ne.
      * apply (stores_frame _ _ _ _ _ Hstw). intros b Hb. simpl.
        rewrite list_lookup_insert_ne by (apply Hlivew in Hb; lia).
        now apply Hsrc.
    + exists {| m_count := m_count w; m_capacity := m_count w;
                m_data_ptr := Some (length hp) |}.
      match goal with |- ?P /\ _ => assert (Hh : P) end.
      { split; [| split; [exact Hnw |]].
        - simpl. rewrite list_insert_insert_eq. apply (lookup_insert_same _ _ _ _ Hv).
        - right. eexists _, _, _. split; [reflexivity |]. simpl.
          now apply list_lookup_insert_eq. }
      split; [exact Hh | split; [exact Hnw | exact (Hread _ Hh)]].
  - (* the destination's storage is reused *)
    destruct (m_data_ptr v) as [b|] eqn:Hp; simpl in Hstv.
    + destruct Hstv as [bytes Hb].
      rewrite (copy_assign_reuse_eval this other v w b bytes ys s
                 ((Obj <$> xs) ++ replicate r Raw)) in Hrun;
        try assumption; [| now apply Hdisj].
      destruct (decide _); [| discriminate]. injection Hrun as <- <-.
      assert (Hblt : (b < length hp)%nat) by now apply lookup_lt_Some in Hb.
      split; [reflexivity |]. split.
      * split; [| split; [exact Hnw |]].
        -- simpl. now rewrite list_lookup_insert_ne.
        -- apply (stores_frame _ _ _ _ _ Hstw). intros b' Hb'. simpl.
           apply list_lookup_insert_ne. intros <-. now apply (Hdisj b).
      * exists {| m_count := m_count w; m_capacity := m_count w;
                  m_data_ptr := Some b |}.
        match goal with |- ?P /\ _ => assert (Hh : P) end.
        { split; [| split; [exact Hnw |]].
          - simpl. apply (lookup_insert_same _ _ _ _ Hv).
          - right. eexists _, _, _. split; [reflexivity |]. simpl.
            now apply list_lookup_insert_eq. }
        split; [exact Hh | split; [exact Hnw | exact (Hread _ Hh)]].
    + destruct Hstv as [-> ->].
      unfold copy_assign, size in Hrun.
      rewrite (bind_eval _ _ _ _ _ (get_capacity_eval _ _ _ _ _ Hv)) in Hrun.
      rewrite (bind_eval _ _ _ _ _ (get_count_eval _ _ _ _ _ Hw)) in Hrun.
      destruct (Z.ltb_spec (m_capacity v) (m_count w)) as [Hlt | _]; [lia |].
      unfold bind at 1, ret at 1 in Hrun.
      rewrite (bind_eval _ _ _ _ _ (get_data_ptr_eval _ _ _ _ _ Hw)) in Hrun.
      rewrite (bind_eval _ _ _ _ _ (get_count_eval _ _ _ _ _ Hw)) in Hrun.
      rewrite (bind_eval _ _ _ _ _ (get_data_ptr_eval _ _ _ _ _ Hv)) in Hrun.
      rewrite Hp in Hrun. unfold copy in Hrun.
      rewrite loop_count_small in Hrun by lia. rewrite Hnw, Nat2Z.id in Hrun.
      destruct ys as [|y ys].
      * simpl in Hrun. unfold bind at 1, ret at 1 in Hrun.
        rewrite (bind_eval _ _ _ _ _ (get_count_eval _ _ _ _ _ Hw)) in Hrun.
        rewrite (bind_eval _ _ _ _ _ (get_count_eval _ _ _ _ _ Hw)) in Hrun.
        rewrite (bind_eval _ _ _ _ _ (get_data_ptr_eval _ _ _ _ _ Hv)) in Hrun.
        rewrite (bind_eval _ _ _ _ _ (init_eval _ _ _ _ _ _ _ _ Hv)) in Hrun.
        injection Hrun as <- <-.
        split; [reflexivity |]. split.
        -- split; [| split; [exact Hnw | exact Hstw]].
           simpl. now rewrite list_lookup_insert_ne.
        -- exists {| m_count := m_count w; m_capacity := m_count w;
                     m_data_ptr := m_data_ptr v |}.
           match goal with |- ?P /\ _ => assert (Hh : P) end.
           { split; [| split; [exact Hnw | now left]].
             simpl. apply (lookup_insert_same _ _ _ _ Hv). }
           split; [exact Hh | split; [exact Hnw | exact (Hread _ Hh)]].
      * exfalso. simpl in Hrun. unfold bind at 1, bind at 1, copy_construct in Hrun.
        destruct (live_block (m_data_ptr w) _) as [[sb bs]|]; [| discriminate].
        destruct (cell_at (m_data_ptr w) 0 _) as [[|x]|]; discriminate.
Qed.

(** X7.  Copy assignment between two valid vectors with distinct storage,
    when the destination has storage, its capacity is at least the source's
    size, the source's elements fit the slots of the destination's block and
    their number fits the [int] parameter of [asd::copy].  The call returns
    the destination.  It allocates nothing, releases nothing and destroys
    nothing: the history grows by one copy construction per source element,
    in index order, and the other blocks are untouched.  The destination
    keeps its block, which now starts with the source's elements; its count
    and its capacity both become the source's size; and each element it had
    at an index from the source's size on is still constructed in its slot,
    outside the count. *)
Theorem copy_assign_within_capacity_reuses_storage
    (this other : nat) (v w : vector) (b : nat) (xs ys : list T) (r s : nat)
    (m : mem T) :
  this <> other ->
  rep m this v xs r ->
  rep m other w ys s ->
  m_data_ptr v = Some b ->
  m_data_ptr w <> Some b ->
  m_count w <= m_capacity v ->
  m_count w <= INT_MAX ->
  (length ys <= length xs + r)%nat ->
  exists m',
    copy_assign malloc_grants this other m = Normal this m'
    /\ trace m' = trace m ++ copy_events (m_data_ptr w) b (Z.of_nat (length ys))
    /\ objs m' = <[this := {| m_count := m_count w; m_capacity := m_count w;
                              m_data_ptr := Some b |}]> (objs m)
    /\ (exists bytes,
          heap m' !! b
          = Some {| blk_bytes := bytes;
                    blk_cells := (Obj <$> ys)
                                 ++ drop (length ys) ((Obj <$> xs) ++ replicate r Raw);
                    blk_freed := false |})
    /\ (forall q, q <> b -> heap m' !! q = heap m !! q)
    /\ (forall (i : nat) (x : T),
          (length ys <= i)%nat -> xs !! i = Some x ->
          cell_at (Some b) (Z.of_nat i) m' = Some (Obj x)).
Proof.
  destruct m as [hp os tr].
  intros Hne (Hv & Hnv & Hstv) (Hw & Hnw & Hstw) Hp Hdisj Hcap Hmax Hroom.
  simpl in Hv, Hw. rewrite Hp in Hstv. simpl in Hstv. destruct Hstv as [bytes Hb].
  rewrite (copy_assign_reuse_eval this other v w b bytes ys s
             ((Obj <$> xs) ++ replicate r Raw)) by assumption.
  destruct (decide _) as [_ | Hshort]; cycle 1.
  { exfalso. apply Hshort. rewrite length_app, length_fmap, length_replicate. exact Hroom. }
  assert (Hblt : (b < length hp)%nat) by now apply lookup_lt_Some in Hb.
  eexists. split; [reflexivity |]. cbn [heap objs trace].
  split; [now rewrite Hnw |]. split; [reflexivity |].
  split; [exists bytes; now apply list_lookup_insert_eq |].
  split; [intros q Hq; now apply list_lookup_insert_ne |].
  intros i x Hi Hx.
  erewrite cell_at_eval; [| now apply list_lookup_insert_eq | reflexivity | lia].
  cbn [blk_cells]. rewrite Nat2Z.id.
  rewrite lookup_app_r by (rewrite length_fmap; exact Hi).
  rewrite length_fmap, lookup_drop.
  replace (length ys + (i - length ys))%nat with i by lia.
  rewrite lookup_app_l by (rewrite length_fmap; now apply lookup_lt_Some in Hx).
  now rewrite list_lookup_fmap, Hx.
Qed.


(** X9.  Reading [v[idx]] on a valid vector of the elements [xs], for an
    index as [std::size_t] has it ([0 <= idx]): below the size it gives the
    element at that index and changes nothing; from the size on, whether
    inside the capacity or not, there is no bounds check and the read, of a
    slot that holds no object or of no slot at all, is undefined. *)
Theorem subscript_reads_exactly_the_elements
    (this : nat) (v : vector) (xs : list T) (r : nat) (m : mem T) (idx : Z) :
  rep m this v xs r ->
  0 <= idx ->
  read_at this idx m
  = match xs !! Z.to_nat idx with
    | Some x => Normal x m
    | None => Undefined
    end.
Proof.
  destruct m as [hp os tr]. intros (Hv & Hn & Hst) Hidx. simpl in Hv.
  unfold read_at, subscript. rewrite bind_assoc.
  rewrite (bind_eval _ _ _ _ _ (get_data_ptr_eval _ _ _ _ _ Hv)).
  unfold ret, bind, load, read_obj. cbn [fst snd].
  destruct (m_data_ptr v) as [b|]; simpl in Hst.
  - destruct Hst as [bytes Hb].
    rewrite (cell_at_eval _ _ _ _ _ _ Hb eq_refl Hidx). cbn [blk_cells].
    destruct (xs !! Z.to_nat idx) as [x|] eqn:Hx.
    + rewrite lookup_app_l by (rewrite length_fmap; now apply lookup_lt_Some in Hx).
      now rewrite list_lookup_fmap, Hx.
    + apply lookup_ge_None_1 in Hx.
      rewrite lookup_app_r by (now rewrite length_fmap).
      destruct (replicate r Raw !! _) as [c|] eqn:Hc; [| reflexivity].
      apply lookup_replicate in Hc as [-> _]. reflexivity.
  - destruct Hst as [-> _]. reflexivity.
Qed.

(** X10.  Assigning [v[i] = x] on a valid vector of the elements [xs]: for
    an index below the size the call returns, the vector then holds [xs]
    with [x] at index [i] and is otherwise as before (same data members,
    same capacity and storage), no event is added to the history and no
    other block changes; for an index past the last slot of the storage the
    assignment is undefined. *)
Theorem subscript_assignment
    (this : nat) (v : vector) (xs : list T) (r : nat) (m : mem T) (i : nat) (x : T) :
  rep m this v xs r ->
  ((i < length xs)%nat ->
     exists m',
       write_at this (Z.of_nat i) x m = Normal tt m'
       /\ rep m' this v (<[i := x]> xs) r
       /\ objs m' = objs m
       /\ trace m' = trace m
       /\ (forall q, m_data_ptr v <> Some q -> heap m' !! q = heap m !! q))
  /\ ((length xs + r <= i)%nat -> write_at this (Z.of_nat i) x m = Undefined).
Proof.
  destruct m as [hp os tr]. intros (Hv & Hn & Hst). simpl in Hv.
  unfold write_at, subscript. rewrite bind_assoc.
  rewrite (bind_eval _ _ _ _ _ (get_data_ptr_eval _ _ _ _ _ Hv)).
  unfold ret, bind, store. cbn [fst snd].
  destruct (m_data_ptr v) as [b|] eqn:Hp; simpl in Hst.
  - destruct Hst as [bytes Hb].
    rewrite (live_block_eval _ _ _ _ _ Hb eq_refl).
    rewrite (cell_at_eval _ _ _ _ _ _ Hb eq_refl) by lia.
    cbn [blk_cells]. rewrite Nat2Z.id. split.
    + intros Hi. destruct (lookup_lt_is_Some_2 xs i Hi) as [old Hold].
      rewrite lookup_app_l by (now rewrite length_fmap).
      rewrite list_lookup_fmap, Hold. cbn [fmap option_fmap option_map].
      rewrite (set_cell_eval _ _ _ _ _ _ _ Hb). rewrite Nat2Z.id.
      cbn [blk_bytes blk_cells blk_freed].
      eexists. split; [reflexivity |]. split.
      * split; [exact Hv | split].
        -- now rewrite length_insert.
        -- unfold stores. rewrite Hp. exists bytes. cbn [heap].
           rewrite list_lookup_insert_eq by now apply lookup_lt_Some in Hb.
           do 2 f_equal.
           rewrite insert_app_l by (now rewrite length_fmap).
           now rewrite list_fmap_insert.
      * split; [reflexivity |]. split; [reflexivity |].
        intros q Hq. cbn [heap]. apply list_lookup_insert_ne. congruence.
    + intros Hi.
      rewrite lookup_ge_None_2
        by (rewrite length_app, length_fmap, length_replicate; exact Hi).
      reflexivity.
  - destruct Hst as [-> _]. split; [simpl; lia | reflexivity].
Qed.

Lemma insert_all_as_mutations this (ops : list (@insertion T Args)) (m : mem T) :
  insert_all malloc_grants construct this ops m
  = mutate_all malloc_grants construct this
      ((fun op => match op with
                  | PushBack item => Push item
                  | EmplaceBack args => Emplace args
                  end) <$> ops) m.
Proof.
  revert m. induction ops as [|op ops IH]; intros m; [reflexivity |].
  destruct op; simpl; apply bind_ext; intros _ m'; apply IH.
Qed.

(** The state that move construction leaves. *)
Lemma moved_state (this other : nat) (v v0 : vector) (xs : list T) (r : nat) (m : mem T) :
  objs m !! this = Some v0 ->
  rep m other v xs r ->
  this <> other ->
  exists m1,
    vector_move this other m = Normal tt m1
    /\ from_empty m1 other []
    /\ rep m1 this v xs r
    /\ objs m1 !! other = Some {| m_count := 0; m_capacity := 0; m_data_ptr := None |}.
Proof.
  destruct m as [hp os tr]. simpl. intros Hv0 (Hv & Hn & Hst) Hne. simpl in Hv.
  assert (Hother : <[this := v]> os !! other = Some v)
    by now rewrite list_lookup_insert_ne.
  eexists. split.
  { unfold vector_move.
    rewrite (bind_eval _ _ _ _ _ (get_capacity_eval _ _ _ _ _ Hv)).
    rewrite (bind_eval _ _ _ _ _ (get_count_eval _ _ _ _ _ Hv)).
    rewrite (bind_eval _ _ _ _ _ (get_data_ptr_eval _ _ _ _ _ Hv)).
    rewrite (bind_eval _ _ _ _ _ (init_eval _ _ _ _ _ _ _ _ Hv0)).
    replace {| m_count := m_count v; m_capacity := m_capacity v;
               m_data_ptr := m_data_ptr v |} with v by now destruct v.
    apply (reset_eval other v _ _ _ Hother). }
  pose proof (lookup_insert_same _ _ _
                {| m_count := 0; m_capacity := 0; m_data_ptr := None |} Hother) as Hsrc.
  split; [| split; [| exact Hsrc]].
  - exists {| m_count := 0; m_capacity := 0; m_data_ptr := None |}, 0%nat.
    split; [split; [exact Hsrc | split; [reflexivity | now split]] |].
    split; [reflexivity |]. split; [reflexivity |].
    split; [| reflexivity].
    simpl. apply Z.pow_nonneg. lia.
  - split; [| split; [exact Hn | exact Hst]].
    simpl. rewrite list_lookup_insert_ne by congruence.
    apply (lookup_insert_same _ _ _ _ Hv0).
Qed.

(** X11.  After [vector this(std::move(other))] the source is an empty
    vector that can be used again: insertions into it that return leave it
    exactly as the same insertions leave a new vector (its elements are the
    inserted values, its capacity the least power of two that is at least
    their number), and they leave the vector that took the elements
    unchanged. *)
Theorem moved_from_vector_is_reusable
    (this other : nat) (v v0 : vector) (xs : list T) (r : nat)
    (ops : list (@insertion T Args)) (m m' : mem T) :
  objs m !! this = Some v0 ->
  rep m other v xs r ->
  this <> other ->
  (vector_move this other ;; insert_all malloc_grants construct other ops) m
  = Normal tt m' ->
  from_empty m' other (inserted construct <$> ops)
  /\ rep m' this v xs r.
Proof.
  intros Hthis Hrep Hne Hrun.
  destruct (moved_state this other v v0 xs r m Hthis Hrep Hne)
    as (m1 & Hmove & Hempty & Hkept & Hsrc).
  unfold bind in Hrun. rewrite Hmove in Hrun.
  split.
  - destruct (insert_all_from_empty malloc_grants construct other ops [] m1 Hempty)
      as [Hpart _].
    exact (Hpart m' Hrun).
  - rewrite insert_all_as_mutations in Hrun.
    refine (mutate_all_frame malloc_grants construct _ other this _ v xs r m1 m'
              _ Hsrc Hkept _ Hrun); [congruence |].
    intros q Hq. discriminate Hq.
Qed.

(** [asd::copy] from a block onto itself. *)
Lemma copy_from_self b bytes (cells : list (slot T)) (n : nat) :
  forall (i : nat) (hp : list (block T)) (os : list vector) (tr : list event),
  hp !! b = Some {| blk_bytes := bytes; blk_cells := cells; blk_freed := false |} ->
  (forall j, (i <= j < i + n)%nat -> exists x, cells !! j = Some (Obj x)) ->
  copy_from (Some b) (Some b) (Z.of_nat i) n {| heap := hp; objs := os; trace := tr |}
  = Normal tt
      {| heap := hp; objs := os;
         trace := tr ++ (EvCopyConstruct b b <$> seqZ (Z.of_nat i) (Z.of_nat n)) |}.
Proof.
  induction n as [|n IH]; intros i hp os tr Hb Hobj.
  - simpl. unfold ret. now rewrite app_nil_r.
  - cbn [copy_from]. destruct (Hobj i ltac:(lia)) as [x Hx].
    erewrite bind_eval; cycle 1.
    { eapply (copy_construct_eval b b _ _ _ x (Obj x)); eauto; try lia; cbn [blk_cells];
        now rewrite Nat2Z.id. }
    cbn [blk_bytes blk_cells blk_freed]. rewrite Nat2Z.id.
    rewrite (list_insert_id cells i (Obj x) Hx).
    rewrite (list_insert_id hp b _ Hb).
    replace (Z.of_nat i + 1) with (Z.of_nat (S i)) by lia.
    rewrite (IH (S i)); [| exact Hb | intros j Hj; apply Hobj; lia].
    rewrite seqZ_first. simpl. rewrite <- app_assoc. simpl.
    replace (Z.of_nat i + 1) with (Z.of_nat (S i)) by lia. reflexivity.
Qed.

(** X12.  Copy assignment has no check for self-assignment.  On [v = v],
    for a valid vector with storage whose count is at most its capacity and
    fits the [int] parameter of [asd::copy], a call that returns has
    copy-constructed each element from itself into its own slot, in index
    order, without destroying any, and has allocated and released nothing;
    it returns [v], whose count and storage are as before and whose capacity
    has become the size. *)
Theorem self_copy_assignment
    (this : nat) (v : vector) (b : nat) (xs : list T) (r : nat)
    (m m' : mem T) (result : nat) :
  rep m this v xs r ->
  m_data_ptr v = Some b ->
  m_count v <= m_capacity v ->
  m_count v <= INT_MAX ->
  copy_assign malloc_grants this this m = Normal result m' ->
  result = this
  /\ trace m' = trace m ++ (EvCopyConstruct b b <$> seqZ 0 (m_count v))
  /\ objs m'
     = <[this := {| m_count := m_count v; m_capacity := m_count v;
                    m_data_ptr := Some b |}]> (objs m)
  /\ shapes m' = shapes m.
Proof.
  destruct m as [hp os tr]. intros (Hv & Hn & Hst) Hp Hcap Hmax Hrun. simpl in Hv.
  rewrite Hp in Hst. simpl in Hst. destruct Hst as [bytes Hb].
  assert (Hcopy : copy_from (Some b) (Some b) 0 (length xs)
                    {| heap := hp; objs := os; trace := tr |}
                  = Normal tt
                      {| heap := hp; objs := os;
                         trace := tr ++ (EvCopyConstruct b b <$> seqZ 0 (m_count v)) |}).
  { rewrite Hn. apply (copy_from_self b bytes _ (length xs) 0 _ _ _ Hb).
    intros j Hj. destruct (lookup_lt_is_Some_2 xs j ltac:(lia)) as [x Hx].
    exists x. rewrite lookup_app_l by (rewrite length_fmap; lia).
    now rewrite list_lookup_fmap, Hx. }
  unfold copy_assign, size in Hrun.
  rewrite (bind_eval _ _ _ _ _ (get_capacity_eval _ _ _ _ _ Hv)) in Hrun.
  rewrite (bind_eval _ _ _ _ _ (get_count_eval _ _ _ _ _ Hv)) in Hrun.
  destruct (Z.ltb_spec (m_capacity v) (m_count v)) as [Hlt | _]; [lia |].
  unfold bind at 1, ret at 1 in Hrun.
  rewrite (bind_eval _ _ _ _ _ (get_data_ptr_eval _ _ _ _ _ Hv)) in Hrun.
  rewrite (bind_eval _ _ _ _ _ (get_count_eval _ _ _ _ _ Hv)) in Hrun.
  rewrite (bind_eval _ _ _ _ _ (get_data_ptr_eval _ _ _ _ _ Hv)) in Hrun.
  rewrite Hp in Hrun. unfold copy in Hrun. rewrite loop_count_small in Hrun by lia.
  replace (Z.to_nat (m_count v)) with (length xs) in Hrun by lia.
  rewrite (bind_eval _ _ _ _ _ Hcopy) in Hrun.
  rewrite (bind_eval _ _ _ _ _ (get_count_eval _ _ _ _ _ Hv)) in Hrun.
  rewrite (bind_eval _ _ _ _ _ (get_count_eval _ _ _ _ _ Hv)) in Hrun.
  rewrite (bind_eval _ _ _ _ _ (get_data_ptr_eval _ _ _ _ _ Hv)) in Hrun.
  rewrite (bind_eval _ _ _ _ _ (init_eval _ _ _ _ _ _ _ _ Hv)) in Hrun.
  rewrite Hp in Hrun. injection Hrun as <- <-.
  repeat split; reflexivity.
Qed.

(** ** The cost of insertions *)

(** What one insertion that returns does to the history and to the heap. *)
Lemma push_back_effect this v (xs : list T) r (x : T) (m m' : mem T) :
  rep m this v xs r ->
  m_count v <= INT_MAX ->
  push_back malloc_grants this x m = Normal tt m' ->
  exists v',
    objs m' = <[this := v']> (objs m)
    /\ m_count v' = to_size_t (m_count v + 1)
    /\ (exists r', stores m' (m_data_ptr v') (xs ++ [x]) r')
    /\ if m_count v =? m_capacity v then
         m_data_ptr v' = Some (length (heap m))
         /\ length (heap m') = S (length (heap m))
         /\ trace m'
            = trace m ++ growth_events (m_data_ptr v) (length (heap m))
                           (grown_bytes (m_capacity v)) (m_count v)
                      ++ [EvConstruct (length (heap m)) (m_count v)]
         /\ (forall q, m_data_ptr v <> Some q -> (q < length (heap m))%nat ->
                       heap m' !! q = heap m !! q)
         /\ (forall ob, m_data_ptr v = Some ob ->
                        exists blk, heap m' !! ob = Some blk /\ blk_freed blk = true)
       else
         exists b,
           m_data_ptr v = Some b
           /\ m_data_ptr v' = Some b
           /\ length (heap m') = length (heap m)
           /\ trace m' = trace m ++ [EvConstruct b (m_count v)]
           /\ (forall q, q <> b -> heap m' !! q = heap m !! q).
Proof.
  destruct m as [hp os tr]. intros (Hv & Hn & Hst) Hmax Hrun. simpl in Hv.
  rewrite (push_back_unfold malloc_grants this x v _ _ _ Hv) in Hrun. cbn [heap objs trace].
  destruct (Z.eqb_spec (m_count v) (m_capacity v)) as [Hfull | Hroom].
  - destruct (malloc_grants {| heap := hp; objs := os; trace := tr |}
                (grown_bytes (m_capacity v))) eqn:Hgrant; cycle 1.
    { unfold bind in Hrun. rewrite (reallocate_refused malloc_grants this v) in Hrun by assumption.
      discriminate. }
    destruct (m_data_ptr v) as [ob|] eqn:Hp; simpl in Hst.
    + destruct Hst as [bytes_o Hob].
      assert (Hlt : (ob < length hp)%nat) by now apply lookup_lt_Some in Hob.
      assert (Hloop : loop_count (m_count v) = length xs).
      { rewrite loop_count_exact by lia. rewrite Hn. apply Nat2Z.id. }
      unfold bind in Hrun.
      rewrite (reallocate_eval malloc_grants this v ob bytes_o xs r) in Hrun by assumption.
      destruct (decide _); [| discriminate]. cbv beta iota in Hrun.
      destruct (grown_slots (m_capacity v) - length xs)%nat as [|r'] eqn:Hr'.
      { erewrite construct_at_end_full in Hrun; [discriminate | ..].
        - apply (lookup_insert_same _ _ _ _ Hv).
        - exact Hn.
        - reflexivity.
        - now rewrite list_lookup_middle by (rewrite length_insert; reflexivity). }
      erewrite construct_at_end_eval in Hrun; cycle 1.
      { apply (lookup_insert_same _ _ _ _ Hv). }
      { exact Hn. }
      { reflexivity. }
      { now rewrite list_lookup_middle by (rewrite length_insert; reflexivity). }
      injection Hrun as <-. cbn [heap objs trace m_count m_capacity m_data_ptr].
      eexists. split; [rewrite list_insert_insert_eq; reflexivity |].
      cbn [m_data_ptr m_count].
      split; [rewrite ?Hn; reflexivity |].
      split; [eexists; eexists; cbn [heap]; apply list_lookup_insert_eq;
              rewrite ?length_app, ?length_insert; simpl; lia |].
      split; [reflexivity |]. split.
      { rewrite length_insert, length_app, length_insert. simpl. lia. }
      split; [now rewrite <- app_assoc |]. split.
      * intros q Hq Hql.
        rewrite list_lookup_insert_ne by lia.
        rewrite lookup_app_l by (rewrite length_insert; exact Hql).
        apply list_lookup_insert_ne. congruence.
      * intros ob' [= <-]. eexists. split.
        -- rewrite list_lookup_insert_ne by lia.
           rewrite lookup_app_l by (rewrite length_insert; exact Hlt).
           now apply list_lookup_insert_eq.
        -- reflexivity.
    + destruct Hst as [-> ->]. simpl in Hn.
      unfold bind in Hrun.
      rewrite (reallocate_eval_null malloc_grants this v) in Hrun by assumption.
      cbv beta iota in Hrun.
      destruct (grown_slots (m_capacity v)) as [|r'] eqn:Hr'.
      { erewrite (construct_at_end_full this _ (length hp) _ []) in Hrun;
          [discriminate | ..].
        - apply (lookup_insert_same _ _ _ _ Hv).
        - reflexivity.
        - reflexivity.
        - now rewrite list_lookup_middle. }
      erewrite (construct_at_end_eval this _ (length hp) _ [] r') in Hrun; cycle 1.
      { apply (lookup_insert_same _ _ _ _ Hv). }
      { reflexivity. }
      { reflexivity. }
      { now rewrite list_lookup_middle. }
      injection Hrun as <-. cbn [heap objs trace m_count m_capacity m_data_ptr].
      eexists. split; [rewrite list_insert_insert_eq; reflexivity |].
      cbn [m_data_ptr m_count].
      split; [rewrite ?Hn; reflexivity |].
      split; [eexists; eexists; cbn [heap]; apply list_lookup_insert_eq;
              rewrite ?length_app, ?length_insert; simpl; lia |].
      split; [reflexivity |]. split.
      { rewrite length_insert, length_app. simpl. lia. }
      split; [now rewrite <- app_assoc, Hn |]. split.
      * intros q _ Hql.
        rewrite list_lookup_insert_ne by lia.
        now apply lookup_app_l.
      * intros ob' [=].
  - unfold bind, ret in Hrun. cbv beta iota in Hrun.
    destruct (m_data_ptr v) as [b|] eqn:Hp; simpl in Hst.
    + destruct Hst as [bytes Hb]. destruct r as [|r'].
      { rewrite (construct_at_end_full this v b bytes xs) in Hrun by assumption.
        discriminate. }
      rewrite (construct_at_end_eval this v b bytes xs r') in Hrun by assumption.
      injection Hrun as <-. cbn [heap objs trace].
      assert (Hblt : (b < length hp)%nat) by now apply lookup_lt_Some in Hb.
      eexists. split; [reflexivity |]. cbn [m_data_ptr m_count].
      split; [rewrite ?Hn; reflexivity |].
      split; [eexists; eexists; cbn [heap]; apply list_lookup_insert_eq;
              rewrite ?length_app, ?length_insert; simpl; lia |].
      exists b.
      split; [reflexivity |]. split; [reflexivity |].
      split; [apply length_insert |]. split; [reflexivity |].
      intros q Hq. now apply list_lookup_insert_ne.
    + rewrite (construct_at_end_null this v) in Hrun by assumption. discriminate.
Qed.

Lemma count_events_app kind (tr1 tr2 : list event) :
  count_events kind (tr1 ++ tr2) = (count_events kind tr1 + count_events kind tr2)%nat.
Proof. induction tr1 as [|e tr1 IH]; simpl; [reflexivity | rewrite IH; lia]. Qed.

Lemma count_events_fmap kind (f : Z -> event) (c : bool) (l : list Z) :
  (forall i, kind (f i) = c) ->
  count_events kind (f <$> l) = if c then length l else 0%nat.
Proof.
  intros Hc. induction l as [|i l IH]; [now destruct c |].
  rewrite fmap_cons. cbn [count_events]. rewrite IH, Hc. now destruct c.
Qed.

Lemma count_growth_events (old : pointer) (nb : nat) (bytes n : Z) :
  (old = None -> n = 0) ->
  count_events is_move (growth_events old nb bytes n) = Z.to_nat n
  /\ count_events is_malloc (growth_events old nb bytes n) = 1%nat
  /\ count_events is_release (growth_events old nb bytes n)
     = match old with Some _ => 1%nat | None => 0%nat end
  /\ count_events is_destroy (growth_events old nb bytes n) = 0%nat.
Proof.
  intros Hnull. unfold growth_events. cbn [count_events is_move is_malloc is_release is_destroy].
  rewrite !count_events_app. destruct old as [ob|].
  - rewrite (count_events_fmap is_move _ true) by reflexivity.
    rewrite (count_events_fmap is_malloc _ false) by reflexivity.
    rewrite (count_events_fmap is_release _ false) by reflexivity.
    rewrite (count_events_fmap is_destroy _ false) by reflexivity.
    rewrite length_seqZ. simpl. repeat split; lia.
  - rewrite (Hnull eq_refl). simpl. repeat split; lia.
Qed.

Lemma capacity_after_full_or_room (n : nat) :
  Z.of_nat n <> capacity_after n -> Z.of_nat n < capacity_after n.
Proof. pose proof (capacity_after_ge n). lia. Qed.

Lemma capacity_after_pos (n : nat) : (0 < n)%nat -> 0 < capacity_after n.
Proof. pose proof (capacity_after_ge n). lia. Qed.

Lemma capacity_after_lt_double (n : nat) :
  (0 < n)%nat -> capacity_after n < 2 * Z.of_nat n.
Proof.
  destruct n as [|n]; [lia |]. intros _. unfold capacity_after.
  destruct (Z.eq_dec (Z.of_nat (S n)) 1) as [-> | Hne]; [reflexivity |].
  assert (Hk : 1 < Z.of_nat (S n)) by lia.
  pose proof (Z.log2_up_spec _ Hk) as [Hlo _].
  pose proof (Z.log2_up_pos _ Hk) as Hpos.
  replace (Z.log2_up (Z.of_nat (S n))) with (Z.succ (Z.pred (Z.log2_up (Z.of_nat (S n)))))
    at 1 by lia.
  rewrite Z.pow_succ_r by lia. lia.
Qed.

Lemma moves_after_grow (n : nat) :
  Z.of_nat n = capacity_after n -> moves_after (S n) = (moves_after n + n)%nat.
Proof.
  intros Hfull. unfold moves_after. destruct n as [|n]; [reflexivity |].
  rewrite (capacity_after_double (S n)) by (try exact Hfull; lia). lia.
Qed.

Lemma moves_after_keep (n : nat) :
  Z.of_nat n <> capacity_after n -> moves_after (S n) = moves_after n.
Proof.
  intros Hroom. unfold moves_after.
  now rewrite capacity_after_keep by now apply capacity_after_full_or_room.
Qed.

Lemma log2_up_of_capacity (j k : nat) (c : Z) :
  capacity_after (S j) = c * capacity_after (S k) -> c = 1 \/ c = 2 ->
  Z.log2_up (Z.of_nat (S j)) = Z.log2_up (Z.of_nat (S k)) + (c - 1).
Proof.
  unfold capacity_after. intros Heq Hc.
  pose proof (Z.log2_up_nonneg (Z.of_nat (S j))) as Hj.
  pose proof (Z.log2_up_nonneg (Z.of_nat (S k))) as Hk.
  apply (Z.pow_inj_r 2); [lia | lia | lia |].
  rewrite Heq. destruct Hc as [-> | ->].
  - now rewrite Z.mul_1_l, Z.add_0_r.
  - replace (Z.log2_up (Z.of_nat (S k)) + (2 - 1)) with (Z.succ (Z.log2_up (Z.of_nat (S k))))
      by lia.
    now rewrite Z.pow_succ_r by lia.
Qed.

Lemma allocations_after_grow (n : nat) :
  Z.of_nat n = capacity_after n -> allocations_after (S n) = S (allocations_after n).
Proof.
  intros Hfull. destruct n as [|n]; [reflexivity |].
  unfold allocations_after.
  rewrite (log2_up_of_capacity (S n) n 2);
    [| rewrite (capacity_after_double (S n)) by (try exact Hfull; lia); reflexivity
     | now right].
  pose proof (Z.log2_up_nonneg (Z.of_nat (S n))). lia.
Qed.

Lemma allocations_after_keep (n : nat) :
  Z.of_nat n <> capacity_after n -> allocations_after (S n) = allocations_after n.
Proof.
  intros Hroom. destruct n as [|n]; [now simpl in Hroom |].
  unfold allocations_after.
  rewrite (log2_up_of_capacity (S n) n 1);
    [| rewrite capacity_after_keep by (now apply capacity_after_full_or_room); lia
     | now left].
  f_equal. f_equal. lia.
Qed.

(** One insertion into a vector that started empty, when it returns: the
    vector's count fits an [int]. *)
Lemma from_empty_count_fits this (xs : list T) (x : T) (m m' : mem T) :
  from_empty m this xs ->
  push_back malloc_grants this x m = Normal tt m' ->
  Z.of_nat (length xs) <= INT_MAX.
Proof.
  intros Hfrom Hrun.
  destruct (push_back_from_empty malloc_grants this xs x m Hfrom) as [Hstep _].
  destruct (Hstep m' Hrun) as (_ & _ & _ & _ & _ & Hbound & _).
  pose proof (capacity_after_ge (length (xs ++ [x]))) as Hge.
  rewrite length_app in *. simpl in *. unfold INT_MAX. lia.
Qed.

Lemma insert_all_cost this (ops : list (@insertion T Args)) :
  forall (xs : list T) (m m' : mem T),
  from_empty m this xs ->
  insert_all malloc_grants construct this ops m = Normal tt m' ->
  exists added,
    trace m' = trace m ++ added
    /\ (count_events is_move added + moves_after (length xs)
        = moves_after (length xs + length ops))%nat
    /\ (count_events is_malloc added + allocations_after (length xs)
        = allocations_after (length xs + length ops))%nat
    /\ (count_events is_release added + pred (allocations_after (length xs))
        = pred (allocations_after (length xs + length ops)))%nat
    /\ count_events is_destroy added = 0%nat.
Proof.
  induction ops as [|op ops IH]; intros xs m m' Hfrom Hrun.
  - injection Hrun as <-. exists []. rewrite app_nil_r, Nat.add_0_r.
    repeat split; reflexivity.
  - cbn [insert_all] in Hrun. rewrite insert_push_back in Hrun.
    apply bind_Normal in Hrun as ([] & m1 & Hop & Hrest).
    pose proof (from_empty_count_fits this xs _ m m1 Hfrom Hop) as Hfits.
    destruct (push_back_from_empty malloc_grants this xs (inserted construct op) m Hfrom)
      as [Hstep _].
    specialize (Hstep m1 Hop).
    destruct (IH _ _ _ Hstep Hrest) as (added2 & Htr2 & Hmv2 & Hal2 & Hre2 & Hde2).
    rewrite length_app in Hmv2, Hal2, Hre2. simpl length in *.
    replace (length xs + 1 + length ops)%nat with (length xs + S (length ops))%nat
      in Hmv2, Hal2, Hre2 by lia.
    replace (length xs + 1)%nat with (S (length xs)) in Hmv2, Hal2, Hre2 by lia.
    destruct Hfrom as (v & r & Hrep & Hcap & Hnull & _).
    destruct (push_back_effect this v xs r (inserted construct op) m m1 Hrep)
      as (v' & _ & _ & _ & Heffect);
      [destruct Hrep as (_ & -> & _); exact Hfits | exact Hop |].
    destruct Hrep as (_ & Hn & Hst).
    rewrite Hn, Hcap in Heffect.
    destruct (Z.eqb_spec (Z.of_nat (length xs)) (capacity_after (length xs)))
      as [Hfull | Hroom].
    + destruct Heffect as (_ & _ & Htr1 & _).
      destruct (count_growth_events (m_data_ptr v) (length (heap m))
                  (grown_bytes (capacity_after (length xs))) (Z.of_nat (length xs)))
        as (Hmv1 & Hal1 & Hre1 & Hde1).
      { intros Hp. rewrite Hp in Hst. destruct Hst as [-> _]. reflexivity. }
      eexists. split; [rewrite Htr2, Htr1, <- !app_assoc; reflexivity |].
      rewrite !count_events_app, Hmv1, Hal1, Hre1, Hde1, Hde2. simpl.
      rewrite (moves_after_grow _ Hfull) in Hmv2.
      rewrite (allocations_after_grow _ Hfull) in Hal2, Hre2.
      assert (Hrel : (match m_data_ptr v with Some _ => 1 | None => 0 end
                      + pred (allocations_after (length xs))
                      = allocations_after (length xs))%nat).
      { destruct (m_data_ptr v) as [b|] eqn:Hp.
        - destruct xs as [|x0 xs]; [specialize (Hnull eq_refl); congruence |].
          simpl. lia.
        - destruct Hst as [-> _]. reflexivity. }
      simpl in Hre2. repeat split; lia.
    + destruct Heffect as (b & _ & _ & _ & Htr1 & _).
      eexists. split; [rewrite Htr2, Htr1, <- !app_assoc; reflexivity |].
      rewrite !count_events_app, Hde2. simpl.
      rewrite (moves_after_keep _ Hroom) in Hmv2.
      rewrite (allocations_after_keep _ Hroom) in Hal2, Hre2.
      repeat split; lia.
Qed.

(** X13.  The cost of a new vector followed by [n] insertions that all
    return.  The events they add to the history contain exactly
    [capacity - 1] move constructions (none for [n = 0]), which is at most
    [2 n]; one allocation per capacity the vector has had, that is
    [log2_up n + 1] for [n > 0]; one release of a block fewer than that; and
    no destructor call. *)
Theorem insertion_run_cost
    (ops : list (@insertion T Args)) (m0 : mem T) (this : nat) (m : mem T) :
  run malloc_grants construct ops m0 = Normal this m ->
  exists added,
    trace m = trace m0 ++ added
    /\ count_events is_move added = moves_after (length ops)
    /\ (count_events is_move added <= 2 * length ops)%nat
    /\ count_events is_malloc added = allocations_after (length ops)
    /\ count_events is_release added = pred (allocations_after (length ops))
    /\ count_events is_destroy added = 0%nat.
Proof.
  destruct m0 as [hp os tr]. unfold run. intros Hrun.
  rewrite (bind_eval _ _ _ _ _ (new_vector_eval hp os tr)) in Hrun.
  apply bind_Normal in Hrun as ([] & m1 & Hops & Hret). injection Hret as <- <-.
  destruct (insert_all_cost _ ops [] _ _ (from_empty_new hp os tr) Hops)
    as (added & Htr & Hmv & Hal & Hre & Hde).
  simpl in Htr, Hmv, Hal, Hre.
  exists added. split; [exact Htr |].
  assert (Hbound : (moves_after (length ops) <= 2 * length ops)%nat).
  { unfold moves_after. destruct (length ops) as [|k]; [simpl; lia |].
    pose proof (capacity_after_lt_double (S k)). lia. }
  change (moves_after 0) with 0%nat in Hmv.
  repeat split; lia.
Qed.

(** ** The blocks of a vector's lifetime *)

Lemma insert_all_heap this (ops : list (@insertion T Args)) (base : nat) :
  forall (xs : list T) (m m' : mem T),
  from_empty m this xs ->
  only_storage_live base m this ->
  (base <= length (heap m))%nat ->
  insert_all malloc_grants construct this ops m = Normal tt m' ->
  only_storage_live base m' this
  /\ (base <= length (heap m'))%nat
  /\ (forall q, (q < base)%nat -> heap m' !! q = heap m !! q).
Proof.
  induction ops as [|op ops IH]; intros xs m m' Hfrom Hlive Hbase Hrun.
  - injection Hrun as <-. now repeat split.
  - cbn [insert_all] in Hrun. rewrite insert_push_back in Hrun.
    apply bind_Normal in Hrun as ([] & m1 & Hop & Hrest).
    pose proof (from_empty_count_fits this xs _ m m1 Hfrom Hop) as Hfits.
    destruct (push_back_from_empty malloc_grants this xs (inserted construct op) m Hfrom)
      as [Hstep _].
    specialize (Hstep m1 Hop).
    destruct Hfrom as (v & r & Hrep & _).
    destruct (push_back_effect this v xs r (inserted construct op) m m1 Hrep)
      as (v' & Hobjs & _ & _ & Heffect);
      [destruct Hrep as (_ & -> & _); exact Hfits | exact Hop |].
    destruct Hrep as (Hv & _ & _).
    destruct Hlive as (v2 & Hv2 & Hge & Hfreed).
    rewrite Hv in Hv2. injection Hv2 as <-.
    assert (Hstep1 : only_storage_live base m1 this
                     /\ (base <= length (heap m1))%nat
                     /\ (forall q, (q < base)%nat -> heap m1 !! q = heap m !! q)).
    { destruct (m_count v =? m_capacity v).
      - destruct Heffect as (Hp' & Hlen & _ & Hframe & Hold).
        split; [| split; [lia |]].
        + exists v'. split; [rewrite Hobjs; apply (lookup_insert_same _ _ _ _ Hv) |].
          split; [intros b Hb; rewrite Hp' in Hb; injection Hb as <-; exact Hbase |].
          intros q blk Hq Hblk Hne.
          assert (Hql : (q < length (heap m))%nat).
          { apply lookup_lt_Some in Hblk. rewrite Hlen in Hblk.
            destruct (decide (q = length (heap m))) as [-> | Hneq]; [| lia].
            now rewrite Hp' in Hne. }
          destruct (decide (m_data_ptr v = Some q)) as [Hp | Hp].
          * destruct (Hold q Hp) as (blk' & Hblk' & Hf). congruence.
          * rewrite (Hframe q Hp Hql) in Hblk. now apply (Hfreed q blk).
        + intros q Hq. apply Hframe; [| lia].
          intros Hp. apply Hge in Hp. lia.
      - destruct Heffect as (b & Hp & Hp' & Hlen & _ & Hframe).
        split; [| split; [lia |]].
        + exists v'. split; [rewrite Hobjs; apply (lookup_insert_same _ _ _ _ Hv) |].
          split; [intros b' Hb'; apply Hge; congruence |].
          intros q blk Hq Hblk Hne.
          rewrite Hframe in Hblk by congruence.
          apply (Hfreed q blk Hq Hblk). congruence.
        + intros q Hq. apply Hframe. intros ->. apply Hge in Hp. lia. }
    destruct Hstep1 as (Hlive1 & Hbase1 & Hkeep1).
    destruct (IH _ _ _ Hstep Hlive1 Hbase1 Hrest) as (Hlive' & Hbase' & Hkeep').
    split; [exact Hlive' | split; [exact Hbase' |]].
    intros q Hq. now rewrite Hkeep', Hkeep1.
Qed.

(** The heap that a new vector and insertions leave. *)
Lemma run_heap (ops : list (@insertion T Args)) (m0 : mem T) (this : nat) (m : mem T) :
  run malloc_grants construct ops m0 = Normal this m ->
  exists v r,
    rep m this v (inserted construct <$> ops) r
    /\ (forall q, (q < length (heap m0))%nat -> heap m !! q = heap m0 !! q)
    /\ (forall b, m_data_ptr v = Some b -> (length (heap m0) <= b)%nat)
    /\ (forall q blk, (length (heap m0) <= q)%nat -> heap m !! q = Some blk ->
                      m_data_ptr v <> Some q -> blk_freed blk = true).
Proof.
  destruct m0 as [hp os tr]. unfold run. intros Hrun.
  rewrite (bind_eval _ _ _ _ _ (new_vector_eval hp os tr)) in Hrun.
  apply bind_Normal in Hrun as ([] & m1 & Hops & Hret). injection Hret as <- <-.
  pose proof (from_empty_new hp os tr) as Hnew.
  destruct (insert_all_from_empty malloc_grants construct (length os) ops [] _ Hnew)
    as [Hafter _].
  destruct (Hafter _ Hops) as (v & r & Hrep & _). simpl in Hrep.
  assert (Hheap : only_storage_live (length hp) m1 (length os)
                  /\ (length hp <= length (heap m1))%nat
                  /\ (forall q, (q < length hp)%nat -> heap m1 !! q = hp !! q)).
  { refine (insert_all_heap (length os) ops (length hp) [] _ m1 Hnew _ _ Hops);
      [| reflexivity].
    exists {| m_count := 0; m_capacity := 0; m_data_ptr := None |}.
    split; [simpl; now apply list_lookup_middle |].
    split; [intros b Hb; discriminate Hb |].
    intros q blk Hq Hblk _. simpl in Hblk. apply lookup_lt_Some in Hblk. lia. }
  destruct Hheap as ((v2 & Hv2 & Hge & Hfreed) & _ & Hkeep).
  destruct Hrep as (Hv & Hn & Hst). rewrite Hv in Hv2. injection Hv2 as <-.
  exists v, r. split; [split; [exact Hv | split; [exact Hn | exact Hst]] |].
  split; [exact Hkeep | split; [exact Hge | exact Hfreed]].
Qed.

(** X14.  After a new vector and insertions that all return, the blocks that
    were in the heap before are exactly as they were, and of the blocks
    allocated since, the vector's storage is the only one that has not been
    released: every block it has outgrown was released. *)
Theorem insertion_run_leaves_one_live_block
    (ops : list (@insertion T Args)) (m0 : mem T) (this : nat) (m : mem T) :
  run malloc_grants construct ops m0 = Normal this m ->
  (forall q, (q < length (heap m0))%nat -> heap m !! q = heap m0 !! q)
  /\ exists v,
       objs m !! this = Some v
       /\ forall q blk,
            (length (heap m0) <= q)%nat -> heap m !! q = Some blk ->
            (blk_freed blk = false <-> m_data_ptr v = Some q).
Proof.
  intros Hrun.
  destruct (run_heap ops m0 this m Hrun) as (v & r & (Hv & _ & Hst) & Hkeep & _ & Hfreed).
  split; [exact Hkeep |]. exists v. split; [exact Hv |].
  intros q blk Hq Hblk. split.
  - intros Hlive. destruct (decide (m_data_ptr v = Some q)) as [Hp | Hp]; [exact Hp |].
    rewrite (Hfreed q blk Hq Hblk Hp) in Hlive. discriminate.
  - intros Hp. unfold stores in Hst. rewrite Hp in Hst. destruct Hst as [bytes Hb].
    rewrite Hb in Hblk. now injection Hblk as <-.
Qed.

(** X15.  A whole lifetime leaks no block: after a new vector and insertions
    that all return, the destructor returns; then every block allocated since
    the vector was created has been released, and the blocks that were in the
    heap before are exactly as they were. *)
Theorem vector_lifetime_releases_every_block
    (ops : list (@insertion T Args)) (m0 : mem T) (this : nat) (m : mem T) :
  run malloc_grants construct ops m0 = Normal this m ->
  exists m',
    vector_destructor this m = Normal tt m'
    /\ length (heap m') = length (heap m)
    /\ (forall q, (q < length (heap m0))%nat -> heap m' !! q = heap m0 !! q)
    /\ (forall q blk,
          (length (heap m0) <= q)%nat -> heap m' !! q = Some blk ->
          blk_freed blk = true).
Proof.
  intros Hrun.
  destruct (run_heap ops m0 this m Hrun)
    as (v & r & (Hv & Hn & Hst) & Hkeep & Hge & Hfreed).
  destruct m as [hp os tr]. simpl in Hv, Hkeep, Hfreed.
  destruct (destroy_rep this v _ r hp os tr Hv Hn Hst)
    as (hp' & Hd & Hlen & Hframe & Hreleased).
  eexists. split; [exact Hd |]. cbn [heap]. split; [exact Hlen |]. split.
  - intros q Hq. rewrite Hframe; [now apply Hkeep |].
    intros Hp. apply Hge in Hp. lia.
  - intros q blk Hq Hblk.
    destruct (decide (m_data_ptr v = Some q)) as [Hp | Hp].
    + destruct (Hreleased q Hp) as [bytes Hb]. rewrite Hb in Hblk.
      now injection Hblk as <-.
    + rewrite (Hframe q Hp) in Hblk. now apply (Hfreed q blk).
Qed.

(** ** The limit that the [int] parameter of [asd::move] sets *)

(** X16.  A new vector never comes to hold more than [2 ^ (int_bits - 1)]
    elements: a run of more insertions than that, by [push_back] or
    [emplace_back], does not return normally, whatever the allocator grants.
    The growth step of the full vector of [2 ^ (int_bits - 1)] elements
    passes its count to the [int] parameter of [asd::move]. *)
Theorem insertion_run_beyond_int_limit
    (ops : list (@insertion T Args)) (m0 : mem T) :
  2 ^ (int_bits - 1) < Z.of_nat (length ops) ->
  returns (run malloc_grants construct ops m0) = false.
Proof.
  intros Hlong.
  destruct (run malloc_grants construct ops m0) as [this m | |] eqn:Hrun;
    try reflexivity.
  exfalso.
  destruct (run_from_empty malloc_grants construct ops m0) as [Hinv _].
  destruct (Hinv this m Hrun) as [_ (v & r & _ & _ & _ & Hbound & _)].
  rewrite length_fmap in Hbound.
  pose proof (capacity_after_ge (length ops)). lia.
Qed.

(** ** Copy assignment into new storage *)

Lemma copy_slots_exact (n : Z) :
  0 <= n -> n * sizeof < 2 ^ size_bits -> copy_slots n = Z.to_nat n.
Proof.
  intros Hn Hfit. pose proof sizeof_pos as Hs. unfold copy_slots, copy_bytes.
  rewrite to_size_t_small by nia. now rewrite Z.div_mul by lia.
Qed.

(** X17.  Copy assignment between two valid vectors with distinct storage,
    when the source's size exceeds the destination's capacity, fits the [int]
    parameter of [asd::copy], its size in bytes does not wrap, and the
    allocator grants the request.  The call returns the destination, and the
    history grows by, in this order: the allocation of a block of exactly the
    source's size; the destructor calls for the destination's old elements
    (unless [T] is trivially destructible) and the release of its old
    storage; one copy construction per source element.  The new block holds
    exactly the source's elements, the destination's count and capacity are
    the source's size, and no other block changes. *)
Theorem copy_assign_beyond_capacity_replaces_storage
    (this other : nat) (v w : vector) (xs ys : list T) (r s : nat) (m : mem T) :
  this <> other ->
  rep m this v xs r ->
  rep m other w ys s ->
  (forall b, m_data_ptr v = Some b -> m_data_ptr w <> Some b) ->
  m_capacity v < m_count w ->
  m_count w <= INT_MAX ->
  m_count w * sizeof < 2 ^ size_bits ->
  malloc_grants m (copy_bytes (m_count w)) = true ->
  exists m',
    copy_assign malloc_grants this other m = Normal this m'
    /\ trace m'
       = trace m ++ [EvMalloc (length (heap m)) (copy_bytes (m_count w))]
                 ++ destructor_events (m_data_ptr v) (m_count v)
                 ++ copy_events (m_data_ptr w) (length (heap m)) (m_count w)
    /\ objs m'
       = <[this := {| m_count := m_count w; m_capacity := m_count w;
                      m_data_ptr := Some (length (heap m)) |}]> (objs m)
    /\ heap m' !! length (heap m)
       = Some {| blk_bytes := copy_bytes (m_count w);
                 blk_cells := Obj <$> ys;
                 blk_freed := false |}
    /\ (forall b, m_data_ptr v = Some b ->
          exists blk, heap m' !! b = Some blk /\ blk_freed blk = true)
    /\ (forall q, (q < length (heap m))%nat -> m_data_ptr v <> Some q ->
          heap m' !! q = heap m !! q).
Proof.
  destruct m as [hp os tr].
  intros Hne (Hv & Hnv & Hstv) (Hw & Hnw & Hstw) Hdisj Hgrow Hmax Hfit Hgrant.
  simpl in Hv, Hw. cbn [heap objs trace].
  assert (Hlive : forall b, m_data_ptr v = Some b -> (b < length hp)%nat).
  { intros b Hb. unfold stores in Hstv. rewrite Hb in Hstv. simpl in Hstv.
    destruct Hstv as [bytes Hblk]. now apply lookup_lt_Some in Hblk. }
  assert (Hlivew : forall b, m_data_ptr w = Some b -> (b < length hp)%nat).
  { intros b Hb. unfold stores in Hstw. rewrite Hb in Hstw. simpl in Hstw.
    destruct Hstw as [bytes Hblk]. now apply lookup_lt_Some in Hblk. }
  set (fresh := fresh_block (T := T) (copy_bytes (m_count w))).
  set (tra := tr ++ [EvMalloc (length hp) (copy_bytes (m_count w))]).
  assert (Hsta : stores {| heap := hp ++ [fresh]; objs := os; trace := tra |}
                   (m_data_ptr v) xs r).
  { apply (stores_frame _ _ _ _ _ Hstv). intros b Hb. simpl.
    apply lookup_app_l. now apply Hlive. }
  destruct (destroy_rep this v xs r (hp ++ [fresh]) os tra Hv Hnv Hsta)
    as (hpd & Hd & Hlen & Hframe & Hreleased).
  assert (Hw1 : <[this := {| m_count := m_count v; m_capacity := m_capacity v;
                             m_data_ptr := Some (length hp) |}]> os !! other = Some w)
    by now rewrite list_lookup_insert_ne.
  pose proof (lookup_insert_same os this v
                {| m_count := m_count v; m_capacity := m_capacity v;
                   m_data_ptr := Some (length hp) |} Hv) as Hv1.
  assert (Hnew : hpd !! length hp = Some fresh).
  { rewrite Hframe; [now apply list_lookup_middle |].
    intros Hb. apply Hlive in Hb. lia. }
  assert (Hsrc : forall b, m_data_ptr w = Some b -> hpd !! b = hp !! b).
  { intros b Hb. rewrite Hframe.
    - apply lookup_app_l. now apply Hlivew.
    - intros Hvb. now apply (Hdisj b). }
  assert (Hslots : copy_slots (m_count w) = length ys).
  { rewrite copy_slots_exact by lia. rewrite Hnw. apply Nat2Z.id. }
  assert (Hrun : copy_assign malloc_grants this other {| heap := hp; objs := os; trace := tr |}
                 = Normal this
                     {| heap := <[length hp := {| blk_bytes := copy_bytes (m_count w);
                                                  blk_cells := Obj <$> ys;
                                                  blk_freed := false |}]> hpd;
                        objs := <[this := {| m_count := m_count w; m_capacity := m_count w;
                                             m_data_ptr := Some (length hp) |}]> os;
                        trace := (tra ++ destructor_events (m_data_ptr v) (m_count v))
                                 ++ copy_events (m_data_ptr w) (length hp) (m_count w) |}).
  { unfold copy_assign, size.
    rewrite (bind_eval _ _ _ _ _ (get_capacity_eval _ _ _ _ _ Hv)).
    rewrite (bind_eval _ _ _ _ _ (get_count_eval _ _ _ _ _ Hw)).
    destruct (Z.ltb_spec (m_capacity v) (m_count w)) as [_ | Hge]; [| lia].
    rewrite !bind_assoc.
    rewrite (bind_eval _ _ _ _ _ (get_count_eval _ _ _ _ _ Hw)).
    rewrite bind_assoc.
    erewrite bind_eval; cycle 1.
    { rewrite allocate_eval. unfold copy_bytes in Hgrant. rewrite Hgrant. reflexivity. }
    rewrite bind_assoc.
    rewrite (bind_eval _ _ _ _ _ Hd).
    rewrite (bind_eval _ _ _ _ _ (set_data_ptr_eval _ _ _ _ _ _ Hv)).
    rewrite (bind_eval _ _ _ _ _ (get_data_ptr_eval _ _ _ _ _ Hw1)).
    rewrite (bind_eval _ _ _ _ _ (get_count_eval _ _ _ _ _ Hw1)).
    rewrite (bind_eval _ _ _ _ _ (get_data_ptr_eval _ _ _ _ _ Hv1)).
    cbn [m_data_ptr]. unfold copy.
    rewrite loop_count_small by lia.
    replace (Z.to_nat (m_count w)) with (length ys) by lia.
    erewrite bind_eval; cycle 1.
    { rewrite (copy_from_stores (m_data_ptr w) (length hp) (copy_bytes (m_count w)) ys s
                 (replicate (copy_slots (m_count w)) Raw)).
      - rewrite length_replicate, Hslots.
        destruct (decide (length ys <= length ys)%nat); [reflexivity | lia].
      - apply (stores_frame _ _ _ _ _ Hstw). intros b Hb. simpl. now apply Hsrc.
      - intros Hb. apply Hlivew in Hb. lia.
      - exact Hnew. }
    rewrite (bind_eval _ _ _ _ _ (get_count_eval _ _ _ _ _ Hw1)).
    rewrite (bind_eval _ _ _ _ _ (get_count_eval _ _ _ _ _ Hw1)).
    rewrite (bind_eval _ _ _ _ _ (get_data_ptr_eval _ _ _ _ _ Hv1)).
    rewrite (bind_eval _ _ _ _ _ (init_eval _ _ _ _ _ _ _ _ Hv1)).
    unfold ret. rewrite list_insert_insert_eq.
    rewrite drop_replicate, Nat.sub_diag, app_nil_r, Hnw.
    reflexivity. }
  assert (Hnblt : (length hp < length hpd)%nat)
    by (rewrite Hlen, length_app; simpl; lia).
  eexists. split; [exact Hrun |]. cbn [heap objs trace].
  split; [subst tra; now rewrite <- !app_assoc |].
  split; [reflexivity |].
  split; [now apply list_lookup_insert_eq |]. split.
  - intros b Hb. destruct (Hreleased b Hb) as [bytes Hblk].
    eexists. split.
    + rewrite list_lookup_insert_ne by (apply Hlive in Hb; lia). exact Hblk.
    + reflexivity.
  - intros q Hq Hp. rewrite list_lookup_insert_ne by lia.
    rewrite (Hframe q Hp). now apply lookup_app_l.
Qed.

(** ** References into a vector across an insertion *)

(** X18.  An insertion into a valid vector that has a free slot and whose
    count differs from its capacity cannot fail, whatever the allocator would
    grant: it returns after constructing the new element in the slot after
    the last one.  It allocates and releases nothing, the vector keeps its
    storage and every element stays where it is, so references to elements
    remain valid; no other block and no other object changes. *)
Theorem push_back_within_capacity_keeps_storage
    (this : nat) (v : vector) (xs : list T) (r : nat) (x : T) (m : mem T) :
  rep m this v xs (S r) ->
  m_count v <> m_capacity v ->
  m_count v + 1 < 2 ^ size_bits ->
  exists b m',
    m_data_ptr v = Some b
    /\ push_back malloc_grants this x m = Normal tt m'
    /\ rep m' this
         {| m_count := m_count v + 1; m_capacity := m_capacity v; m_data_ptr := Some b |}
         (xs ++ [x]) r
    /\ trace m' = trace m ++ [EvConstruct b (m_count v)]
    /\ (forall q, q <> b -> heap m' !! q = heap m !! q)
    /\ (forall o, o <> this -> objs m' !! o = objs m !! o)
    /\ (forall (i : nat) (y : T),
          xs !! i = Some y -> load (Some b, Z.of_nat i) m' = Normal y m').
Proof.
  destruct m as [hp os tr]. intros (Hv & Hn & Hst) Hroom Hfit. simpl in Hv.
  destruct (m_data_ptr v) as [b|] eqn:Hp; simpl in Hst; [| destruct Hst; discriminate].
  destruct Hst as [bytes Hb]. exists b.
  assert (Hblt : (b < length hp)%nat) by now apply lookup_lt_Some in Hb.
  eexists. split; [reflexivity |]. split.
  { rewrite (push_back_unfold malloc_grants this x v _ _ _ Hv).
    destruct (Z.eqb_spec (m_count v) (m_capacity v)) as [Hfull | _]; [contradiction |].
    unfold bind at 1, ret at 1.
    apply (construct_at_end_eval this v b bytes xs r x _ _ _ Hv Hn Hp Hb). }
  cbn [heap objs trace].
  rewrite to_size_t_small by lia.
  split; [| split; [reflexivity | split; [| split]]].
  - split; [apply (lookup_insert_same _ _ _ _ Hv) | split].
    + cbn [m_count]. rewrite length_app, Hn. simpl. lia.
    + exists bytes. cbn [heap]. now apply list_lookup_insert_eq.
  - intros q Hq. now apply list_lookup_insert_ne.
  - intros o Ho. now apply list_lookup_insert_ne.
  - intros i y Hy. unfold load, read_obj. cbn [fst snd].
    erewrite cell_at_eval; [| now apply list_lookup_insert_eq | reflexivity | lia].
    cbn [blk_cells]. rewrite Nat2Z.id.
    rewrite lookup_app_l
      by (rewrite length_fmap, length_app; apply lookup_lt_Some in Hy; lia).
    rewrite list_lookup_fmap, lookup_app_l by now apply lookup_lt_Some in Hy.
    now rewrite Hy.
Qed.


End Members.

(** ** The theorems above on concrete inputs *)

Section MembersConcrete.

Local Existing Instance LP64.

(** Move construction of a declared object from a vector of two elements. *)
Lemma move_construction_witness :
  exists m',
    vector_move 1 0 source_and_declared_mem = Normal tt m'
    /\ heap m' = heap source_and_declared_mem
    /\ trace m' = []
    /\ objs m' !! 1%nat = Some {| m_count := 2; m_capacity := 2; m_data_ptr := Some 0%nat |}
    /\ objs m' !! 0%nat = Some {| m_count := 0; m_capacity := 0; m_data_ptr := None |}.
Proof.
  destruct (move_construction 1 0
              {| m_count := 2; m_capacity := 2; m_data_ptr := Some 0%nat |}
              {| m_count := 0; m_capacity := 0; m_data_ptr := None |}
              source_and_declared_mem eq_refl eq_refl ltac:(discriminate))
    as (m' & Hrun & Hheap & Htrace & Hthis & Hother & _).
  exists m'. repeat split; assumption.
Defined.

(** The destructor of a vector of two elements that own a resource. *)
Lemma destructor_destroys_then_releases_witness :
  let v := {| m_count := 2; m_capacity := 2; m_data_ptr := Some 0%nat |} in
  rep full_vector_mem 0 v [1; 2] 0
  /\ exists m',
       vector_destructor (H0 := owning_element) 0 full_vector_mem = Normal tt m'
       /\ trace m' = [EvDestroy 0 0; EvDestroy 0 1; EvFree (Some 0%nat)]
       /\ exists bytes,
            heap m' !! 0%nat
            = Some {| blk_bytes := bytes; blk_cells := [Raw; Raw]; blk_freed := true |}.
Proof.
  intros v.
  assert (Hrep : rep full_vector_mem 0 v [1; 2] 0).
  { repeat split. simpl. eexists. reflexivity. }
  split; [exact Hrep |].
  destruct (destructor_destroys_then_releases (H0 := owning_element) 0 v [1; 2] 0
              full_vector_mem Hrep)
    as (m' & Hrun & _ & Htrace & Hblock & _).
  exists m'. split; [exact Hrun |]. split; [exact Htrace |].
  exact (Hblock 0%nat eq_refl).
Defined.

(** The destructor of the source of a move construction. *)
Lemma moved_from_destructor_releases_nothing_witness :
  let v := {| m_count := 2; m_capacity := 2; m_data_ptr := Some 0%nat |} in
  rep source_and_declared_mem 0 v [1; 2] 0
  /\ exists m',
       (vector_move 1 0 ;; vector_destructor (H0 := owning_element) 0)%cpp
         source_and_declared_mem
       = Normal tt m'
       /\ heap m' = heap source_and_declared_mem
       /\ trace m' = [EvFree None]
       /\ rep m' 1 v [1; 2] 0.
Proof.
  intros v.
  assert (Hrep : rep source_and_declared_mem 0 v [1; 2] 0).
  { repeat split. simpl. eexists. reflexivity. }
  split; [exact Hrep |].
  exact (moved_from_destructor_releases_nothing (H0 := owning_element) 1 0 v
           {| m_count := 0; m_capacity := 0; m_data_ptr := None |} [1; 2] 0
           source_and_declared_mem eq_refl Hrep ltac:(discriminate)).
Defined.

(** [w = v] for [w] of capacity 1 and [v] of three elements, when the
    allocator refuses. *)
Lemma copy_assign_allocation_failure_witness :
  copy_assign (H0 := int_element) refuse_all 1 0 three_and_one_mem
  = BadAlloc three_and_one_mem.
Proof.
  apply (copy_assign_allocation_failure (H := LP64) (H0 := int_element) refuse_all 1 0
           {| m_count := 1; m_capacity := 1; m_data_ptr := Some 1%nat |}
           {| m_count := 3; m_capacity := 4; m_data_ptr := Some 0%nat |}
           three_and_one_mem);
    reflexivity.
Defined.

(** Copy construction from a vector of two elements, when the allocator
    refuses. *)
Lemma copy_construction_allocation_failure_witness :
  vector_copy (H0 := int_element) refuse_all 1 0 source_and_declared_mem
  = BadAlloc source_and_declared_mem.
Proof.
  apply (copy_construction_allocation_failure (H := LP64) (H0 := int_element) refuse_all
           1 0 {| m_count := 2; m_capacity := 2; m_data_ptr := Some 0%nat |}
           source_and_declared_mem);
    [reflexivity | discriminate | reflexivity].
Defined.

(** [v = w] for [v] of three elements and [w] of the one element 9. *)
Lemma copy_assignment_copies_the_elements_witness :
  let v := {| m_count := 3; m_capacity := 4; m_data_ptr := Some 0%nat |} in
  let w := {| m_count := 1; m_capacity := 1; m_data_ptr := Some 1%nat |} in
  rep three_and_one_mem 0 v [1; 2; 3] 1
  /\ rep three_and_one_mem 1 w [9] 0
  /\ exists m',
       copy_assign (H0 := int_element) grant_all 0 1 three_and_one_mem = Normal 0%nat m'
       /\ rep m' 1 w [9] 0
       /\ size 0 m' = Normal 1 m'
       /\ read_at 0 0 m' = Normal 9 m'.
Proof.
  intros v w.
  assert (Hv : rep three_and_one_mem 0 v [1; 2; 3] 1).
  { repeat split. simpl. eexists. reflexivity. }
  assert (Hw : rep three_and_one_mem 1 w [9] 0).
  { repeat split. simpl. eexists. reflexivity. }
  assert (Hmax : m_count w <= INT_MAX) by (vm_compute; intros X; discriminate X).
  assert (Hcap : 0 <= m_capacity v) by (vm_compute; intros X; discriminate X).
  assert (Hrun : exists m', copy_assign (H0 := int_element) grant_all 0 1
                              three_and_one_mem = Normal 0%nat m')
    by (eexists; vm_compute; reflexivity).
  split; [exact Hv |]. split; [exact Hw |]. destruct Hrun as [m' Hrun]. exists m'.
  destruct (copy_assignment_copies_the_elements (H := LP64) (H0 := int_element) grant_all
              0 1 v w [1; 2; 3] [9] 1 0 three_and_one_mem m' 0%nat
              ltac:(discriminate) Hv Hw ltac:(intros b [= <-]; discriminate)
              Hcap Hmax Hrun)
    as (_ & Hsrc & v' & (Hv' & Hn' & _) & _ & Hread).
  split; [exact Hrun |]. split; [exact Hsrc |]. split.
  - destruct m' as [hp' os' tr']. simpl in Hv'. unfold size.
    now rewrite (get_count_eval _ _ _ _ _ Hv'), Hn'.
  - exact (Hread 0%nat 9 eq_refl).
Defined.

(** The same assignment: the destination keeps its block, whose slots 1 and
    2 still hold the elements 2 and 3. *)
Lemma copy_assign_within_capacity_reuses_storage_witness :
  let v := {| m_count := 3; m_capacity := 4; m_data_ptr := Some 0%nat |} in
  let w := {| m_count := 1; m_capacity := 1; m_data_ptr := Some 1%nat |} in
  rep three_and_one_mem 0 v [1; 2; 3] 1
  /\ rep three_and_one_mem 1 w [9] 0
  /\ exists m',
       copy_assign (H0 := int_element) grant_all 0 1 three_and_one_mem = Normal 0%nat m'
       /\ trace m' = [EvCopyConstruct 1 0 0]
       /\ (exists bytes,
             heap m' !! 0%nat
             = Some {| blk_bytes := bytes; blk_cells := [Obj 9; Obj 2; Obj 3; Raw];
                       blk_freed := false |})
       /\ cell_at (Some 0%nat) 2 m' = Some (Obj 3).
Proof.
  intros v w.
  assert (Hv : rep three_and_one_mem 0 v [1; 2; 3] 1).
  { repeat split. simpl. eexists. reflexivity. }
  assert (Hw : rep three_and_one_mem 1 w [9] 0).
  { repeat split. simpl. eexists. reflexivity. }
  assert (Hmax : m_count w <= INT_MAX) by (vm_compute; intros X; discriminate X).
  assert (Hcap : m_count w <= m_capacity v) by (vm_compute; intros X; discriminate X).
  split; [exact Hv |]. split; [exact Hw |].
  destruct (copy_assign_within_capacity_reuses_storage (H := LP64) (H0 := int_element)
              grant_all 0 1 v w 0 [1; 2; 3] [9] 1 0 three_and_one_mem
              ltac:(discriminate) Hv Hw eq_refl ltac:(discriminate) Hcap Hmax
              ltac:(simpl; lia))
    as (m' & Hrun & Htrace & _ & Hblock & _ & Hkept).
  exists m'. split; [exact Hrun |]. split; [exact Htrace |].
  split; [exact Hblock |]. exact (Hkept 2%nat 3 ltac:(simpl; lia) eq_refl).
Defined.


(** Reads of a full vector of two elements, inside and outside its size. *)
Lemma subscript_reads_exactly_the_elements_witness :
  let v := {| m_count := 2; m_capacity := 2; m_data_ptr := Some 0%nat |} in
  rep full_vector_mem 0 v [1; 2] 0
  /\ read_at 0 1 full_vector_mem = Normal 2 full_vector_mem
  /\ read_at 0 2 full_vector_mem = Undefined.
Proof.
  intros v.
  assert (Hrep : rep full_vector_mem 0 v [1; 2] 0).
  { repeat split. simpl. eexists. reflexivity. }
  split; [exact Hrep |]. split.
  - exact (subscript_reads_exactly_the_elements 0 v [1; 2] 0 full_vector_mem 1 Hrep
             ltac:(lia)).
  - exact (subscript_reads_exactly_the_elements 0 v [1; 2] 0 full_vector_mem 2 Hrep
             ltac:(lia)).
Defined.

(** [v[1] = 7] and [v[4] = 7] on a vector of three elements with capacity 4. *)
Lemma subscript_assignment_witness :
  let v := {| m_count := 3; m_capacity := 4; m_data_ptr := Some 0%nat |} in
  rep three_and_one_mem 0 v [1; 2; 3] 1
  /\ (exists m',
        write_at 0 1 7 three_and_one_mem = Normal tt m'
        /\ rep m' 0 v [1; 7; 3] 1
        /\ trace m' = [])
  /\ write_at 0 4 7 three_and_one_mem = Undefined.
Proof.
  intros v.
  assert (Hrep : rep three_and_one_mem 0 v [1; 2; 3] 1).
  { repeat split. simpl. eexists. reflexivity. }
  split; [exact Hrep |]. split.
  - destruct (subscript_assignment 0 v [1; 2; 3] 1 three_and_one_mem 1 7 Hrep)
      as [Hin _].
    destruct (Hin ltac:(simpl; lia)) as (m' & Hrun & Hrep' & _ & Htrace & _).
    exists m'. split; [exact Hrun |]. split; [exact Hrep' | exact Htrace].
  - destruct (subscript_assignment 0 v [1; 2; 3] 1 three_and_one_mem 4 7 Hrep)
      as [_ Hout].
    exact (Hout ltac:(simpl; lia)).
Defined.

(** Move construction from a vector of two elements, then two insertions
    into the source. *)
Lemma moved_from_vector_is_reusable_witness :
  let v := {| m_count := 2; m_capacity := 2; m_data_ptr := Some 0%nat |} in
  let ops := [PushBack 5; EmplaceBack 6] in
  rep source_and_declared_mem 0 v [1; 2] 0
  /\ exists m',
       (vector_move 1 0 ;;
        insert_all (H0 := int_element) grant_all (fun z : Z => z) 0 ops)%cpp
         source_and_declared_mem
       = Normal tt m'
       /\ from_empty (H0 := int_element) m' 0 [5; 6]
       /\ rep m' 1 v [1; 2] 0.
Proof.
  intros v ops.
  assert (Hrep : rep source_and_declared_mem 0 v [1; 2] 0).
  { repeat split. simpl. eexists. reflexivity. }
  assert (Hrun : exists m',
             (vector_move 1 0 ;;
              insert_all (H0 := int_element) grant_all (fun z : Z => z) 0 ops)%cpp
               source_and_declared_mem
             = Normal tt m')
    by (eexists; vm_compute; reflexivity).
  split; [exact Hrep |]. destruct Hrun as [m' Hrun]. exists m'.
  split; [exact Hrun |].
  exact (moved_from_vector_is_reusable (H := LP64) (H0 := int_element) grant_all
           (fun z : Z => z) 1 0 v
           {| m_count := 0; m_capacity := 0; m_data_ptr := None |} [1; 2] 0 ops
           source_and_declared_mem m' eq_refl Hrep ltac:(discriminate) Hrun).
Defined.

(** [v = v] for a vector of three elements with capacity 4. *)
Lemma self_copy_assignment_witness :
  let v := {| m_count := 3; m_capacity := 4; m_data_ptr := Some 0%nat |} in
  rep three_and_one_mem 0 v [1; 2; 3] 1
  /\ exists m',
       copy_assign (H0 := int_element) grant_all 0 0 three_and_one_mem = Normal 0%nat m'
       /\ trace m' = [EvCopyConstruct 0 0 0; EvCopyConstruct 0 0 1; EvCopyConstruct 0 0 2]
       /\ objs m' !! 0%nat
          = Some {| m_count := 3; m_capacity := 3; m_data_ptr := Some 0%nat |}.
Proof.
  intros v.
  assert (Hrep : rep three_and_one_mem 0 v [1; 2; 3] 1).
  { repeat split. simpl. eexists. reflexivity. }
  assert (Hcap : m_count v <= m_capacity v) by (vm_compute; intros X; discriminate X).
  assert (Hmax : m_count v <= INT_MAX) by (vm_compute; intros X; discriminate X).
  assert (Hrun : exists m', copy_assign (H0 := int_element) grant_all 0 0
                              three_and_one_mem = Normal 0%nat m')
    by (eexists; vm_compute; reflexivity).
  split; [exact Hrep |]. destruct Hrun as [m' Hrun]. exists m'.
  destruct (self_copy_assignment (H := LP64) (H0 := int_element) grant_all 0 v 0 [1; 2; 3] 1
              three_and_one_mem m' 0%nat Hrep eq_refl Hcap Hmax Hrun)
    as (_ & Htrace & Hobjs & _).
  split; [exact Hrun |]. split; [exact Htrace |]. now rewrite Hobjs.
Defined.

(** Five insertions: capacities 1, 2, 4 and 8, and 0 + 1 + 2 + 4 moves. *)
Lemma insertion_run_cost_witness :
  let ops := [PushBack 1; PushBack 2; PushBack 3; PushBack 4; EmplaceBack 5] in
  exists m added,
    run (H0 := owning_element) grant_all (fun z : Z => z) ops empty_mem = Normal 0%nat m
    /\ trace m = added
    /\ count_events is_move added = 7%nat
    /\ count_events is_malloc added = 4%nat
    /\ count_events is_release added = 3%nat
    /\ count_events is_destroy added = 0%nat.
Proof.
  intros ops.
  assert (Hrun : exists m, run (H0 := owning_element) grant_all (fun z : Z => z) ops
                             empty_mem = Normal 0%nat m)
    by (eexists; vm_compute; reflexivity).
  destruct Hrun as [m Hrun]. exists m.
  destruct (insertion_run_cost (H := LP64) (H0 := owning_element) grant_all
              (fun z : Z => z) ops empty_mem 0%nat m Hrun)
    as (added & Htrace & Hmoves & _ & Hmallocs & Hreleases & Hdestroys).
  exists added. split; [exact Hrun |]. split; [exact Htrace |].
  split; [exact Hmoves |]. split; [exact Hmallocs |].
  split; [exact Hreleases | exact Hdestroys].
Defined.

(** Three insertions into a new vector next to a vector that exists: block 1
    is released, block 2 is the new vector's storage, block 0 is untouched. *)
Lemma insertion_run_leaves_one_live_block_witness :
  let ops := [PushBack 1; PushBack 2; PushBack 3] in
  exists m v,
    run (H0 := int_element) grant_all (fun z : Z => z) ops full_vector_mem = Normal 1%nat m
    /\ heap m !! 0%nat = heap full_vector_mem !! 0%nat
    /\ objs m !! 1%nat = Some v
    /\ forall q blk,
         (1 <= q)%nat -> heap m !! q = Some blk ->
         (blk_freed blk = false <-> m_data_ptr v = Some q).
Proof.
  intros ops.
  assert (Hrun : exists m, run (H0 := int_element) grant_all (fun z : Z => z) ops
                             full_vector_mem = Normal 1%nat m)
    by (eexists; vm_compute; reflexivity).
  destruct Hrun as [m Hrun]. exists m.
  destruct (insertion_run_leaves_one_live_block (H := LP64) (H0 := int_element) grant_all
              (fun z : Z => z) ops full_vector_mem 1%nat m Hrun)
    as (Hkeep & v & Hv & Hlive).
  exists v. split; [exact Hrun |].
  split; [exact (Hkeep 0%nat ltac:(simpl; lia)) |]. split; [exact Hv | exact Hlive].
Defined.

(** The same insertions followed by the destructor. *)
Lemma vector_lifetime_releases_every_block_witness :
  let ops := [PushBack 1; PushBack 2; PushBack 3] in
  exists m m',
    run (H0 := owning_element) grant_all (fun z : Z => z) ops full_vector_mem
    = Normal 1%nat m
    /\ vector_destructor (H0 := owning_element) 1 m = Normal tt m'
    /\ heap m' !! 0%nat = heap full_vector_mem !! 0%nat
    /\ forall q blk, (1 <= q)%nat -> heap m' !! q = Some blk -> blk_freed blk = true.
Proof.
  intros ops.
  assert (Hrun : exists m, run (H0 := owning_element) grant_all (fun z : Z => z) ops
                             full_vector_mem = Normal 1%nat m)
    by (eexists; vm_compute; reflexivity).
  destruct Hrun as [m Hrun]. exists m.
  destruct (vector_lifetime_releases_every_block (H := LP64) (H0 := owning_element)
              grant_all (fun z : Z => z) ops full_vector_mem 1%nat m Hrun)
    as (m' & Hd & _ & Hkeep & Hreleased).
  exists m'. split; [exact Hrun |]. split; [exact Hd |].
  split; [exact (Hkeep 0%nat ltac:(simpl; lia)) | exact Hreleased].
Defined.

(** On a platform whose [int] has 16 bits, 32769 insertions. *)
Lemma insertion_run_beyond_int_limit_witness :
  returns (run (H := IP16) (H0 := int_element) grant_all (fun z : Z => z)
             (replicate (Z.to_nat 32769) (PushBack 0)) empty_mem)
  = false.
Proof.
  apply (insertion_run_beyond_int_limit (H := IP16) (H0 := int_element) grant_all
           (fun z : Z => z) (replicate (Z.to_nat 32769) (PushBack 0)) empty_mem).
  vm_compute. reflexivity.
Defined.

(** [w = v] for [w] of the one element 9 with capacity 1 and [v] of three
    elements. *)
Lemma copy_assign_beyond_capacity_replaces_storage_witness :
  let v := {| m_count := 3; m_capacity := 4; m_data_ptr := Some 0%nat |} in
  let w := {| m_count := 1; m_capacity := 1; m_data_ptr := Some 1%nat |} in
  rep three_and_one_mem 1 w [9] 0
  /\ rep three_and_one_mem 0 v [1; 2; 3] 1
  /\ exists m',
       copy_assign (H0 := owning_element) grant_all 1 0 three_and_one_mem
       = Normal 1%nat m'
       /\ trace m'
          = [EvMalloc 2 96; EvDestroy 1 0; EvFree (Some 1%nat);
             EvCopyConstruct 0 2 0; EvCopyConstruct 0 2 1; EvCopyConstruct 0 2 2]
       /\ heap m' !! 2%nat
          = Some {| blk_bytes := 96; blk_cells := [Obj 1; Obj 2; Obj 3];
                    blk_freed := false |}
       /\ exists blk, heap m' !! 1%nat = Some blk /\ blk_freed blk = true.
Proof.
  intros v w.
  assert (Hv : rep three_and_one_mem 0 v [1; 2; 3] 1).
  { repeat split. simpl. eexists. reflexivity. }
  assert (Hw : rep three_and_one_mem 1 w [9] 0).
  { repeat split. simpl. eexists. reflexivity. }
  assert (Hgrow : m_capacity w < m_count v) by reflexivity.
  assert (Hmax : m_count v <= INT_MAX) by (vm_compute; intros X; discriminate X).
  assert (Hfit : m_count v * sizeof (Element := owning_element) < 2 ^ size_bits)
    by reflexivity.
  split; [exact Hw |]. split; [exact Hv |].
  destruct (copy_assign_beyond_capacity_replaces_storage (H := LP64) (H0 := owning_element)
              grant_all 1 0 w v [9] [1; 2; 3] 0 1 three_and_one_mem
              ltac:(discriminate) Hw Hv ltac:(intros b [= <-]; discriminate)
              Hgrow Hmax Hfit eq_refl)
    as (m' & Hrun & Htrace & _ & Hnew & Hold & _).
  exists m'. split; [exact Hrun |]. split; [exact Htrace |].
  split; [exact Hnew |]. exact (Hold 1%nat eq_refl).
Defined.

(** [v.push_back(4)] on a vector of three elements with capacity 4, with an
    allocator that refuses every request. *)
Lemma push_back_within_capacity_keeps_storage_witness :
  let v := {| m_count := 3; m_capacity := 4; m_data_ptr := Some 0%nat |} in
  rep three_and_one_mem 0 v [1; 2; 3] 1
  /\ exists m',
       push_back (H0 := int_element) refuse_all 0 4 three_and_one_mem = Normal tt m'
       /\ rep m' 0 {| m_count := 4; m_capacity := 4; m_data_ptr := Some 0%nat |}
            [1; 2; 3; 4] 0
       /\ trace m' = [EvConstruct 0 3]
       /\ load (Some 0%nat, 1) m' = Normal 2 m'.
Proof.
  intros v.
  assert (Hrep : rep three_and_one_mem 0 v [1; 2; 3] 1).
  { repeat split. simpl. eexists. reflexivity. }
  split; [exact Hrep |].
  destruct (push_back_within_capacity_keeps_storage (H := LP64) (H0 := int_element)
              refuse_all 0 v [1; 2; 3] 0 4 three_and_one_mem Hrep
              ltac:(discriminate) ltac:(reflexivity))
    as (b & m' & Hb & Hrun & Hrep' & Htrace & _ & _ & Hread).
  injection Hb as <-.
  exists m'. split; [exact Hrun |]. split; [exact Hrep' |]. split; [exact Htrace |].
  exact (Hread 1%nat 2 eq_refl).
Defined.


End MembersConcrete.
